(** * mypager: a paging text viewer, verified against its description

    A shallow embedding of [mypager.c].  The C program keeps its state in
    process-wide globals ([fd], [buffer], [buffer_start], [buffer_end],
    [buffer_has_data], [current_page_size]) and writes to standard output;
    here they are the fields of one [state] record that every function
    takes and returns.

    Conventions of the embedding:
    - C [int] is [Z].  Under the window invariant every integer of the
      program is bounded by the buffer capacity, so no wrap-around occurs.
    - C [char] is [Byte.byte]; arrays are [list byte].
    - [memcpy] is modelled with a snapshot of its source (the compaction
      copies towards lower addresses, where a forward byte copy agrees).
    - The stack arrays [word] and [line] are declared with [LINE_WIDTH]
      bytes in C.  The embedding returns the bytes the C code stores into
      them as lists, and records in the ghost flag [overrun] of the state
      every access that falls beyond their last cell ([note_array]): what
      the C program does after such an access is undefined, and the
      embedding goes on as if the arrays had room.
    - The three macros [PAGE_SIZE], [LINE_WIDTH] and [BUFFER_SIZE] are the
      fields of a [config]; [mypager] is the configuration of the source. *)

From Stdlib.Strings Require Import Byte String.
From Stdlib Require Import ZArith List Bool Lia Sorted Permutation.
Import ListNotations.
Open Scope Z_scope.
Open Scope list_scope.

(** ** Configuration (the preprocessor definitions) *)

Record config : Type := mkConfig {
  PAGE_SIZE : Z;
  LINE_WIDTH : Z;
  BUFFER_SIZE : Z
}.

(** [#define BUFFER_SIZE ((LINE_WIDTH + 1) * PAGE_SIZE)] *)
Definition macro_config (page_size line_width : Z) : config :=
  {| PAGE_SIZE := page_size;
     LINE_WIDTH := line_width;
     BUFFER_SIZE := (line_width + 1) * page_size |}.

(** [#define PAGE_SIZE 20], [#define LINE_WIDTH 80] *)
Definition mypager : config := macro_config 20 80.

(** ** Bytes and arrays *)

Definition LF : byte := x0a.
Definition SPACE : byte := x20.
Definition TAB : byte := x09.

(** The three [case] labels of the [switch] in [fetch_next_word]. *)
Definition is_delim (c : byte) : bool :=
  Byte.eqb c SPACE || Byte.eqb c LF || Byte.eqb c TAB.

(** [len] bytes of [buf] from offset [off]: the source of a [memcpy]. *)
Definition sub (buf : list byte) (off len : Z) : list byte :=
  firstn (Z.to_nat len) (skipn (Z.to_nat off) buf).

(** Store [bytes] into [buf] from offset [off]: the target of a [memcpy]
    or of [read]. *)
Definition write_at (off : Z) (bytes buf : list byte) : list byte :=
  firstn (Z.to_nat off) buf ++ bytes
    ++ skipn (Z.to_nat off + length bytes)%nat buf.

(** ** The byte source behind [fd]

    What [read] will deliver, in order: each [Data] is a non-empty run of
    bytes that one call may return at most (a short read ends at the end of
    a run), [Fault] is a call that fails with -1, and the empty list is end
    of file. *)

Inductive event : Type :=
| Data (b : byte) (bs : list byte)
| Fault.

Definition source : Type := list event.

(** [read(fd, _, n)]: the returned count, the bytes stored, and the rest
    of the source.  A request for no bytes returns 0. *)
Definition read (src : source) (n : Z) : Z * list byte * source :=
  if n <=? 0 then (0, [], src)
  else match src with
       | [] => (0, [], [])
       | Fault :: rest => (-1, [], rest)
       | Data b bs :: rest =>
           let got := firstn (Z.to_nat n) (b :: bs) in
           match skipn (Z.to_nat n) (b :: bs) with
           | [] => (Z.of_nat (length got), got, rest)
           | c :: cs => (Z.of_nat (length got), got, Data c cs :: rest)
           end
       end.

(** A regular file holding [content], read without faults. *)
Definition file (content : list byte) : source :=
  match content with
  | [] => []
  | b :: bs => [Data b bs]
  end.

(** ** Program state *)

(** One call writing to standard output. *)
Inductive out_event : Type :=
| Fwrite (bytes : list byte)   (* [fwrite( line, ... )]: bytes of the file *)
| Printf (text : list byte).   (* [printf( ... )]: text of the viewer *)

Record state : Type := mkState {
  fd : source;
  buffer : list byte;
  buffer_start : Z;
  buffer_end : Z;
  buffer_has_data : Z;
  current_page_size : Z;
  stdout : list out_event;       (* calls made so far, oldest first *)
  stale_read : bool;             (* ghost: some read of [buffer] fell
                                    outside [buffer_start, buffer_end] *)
  overrun : bool                 (* ghost: some access to [word] or [line]
                                    fell beyond its [LINE_WIDTH] cells *)
}.

Definition set_buffer (b : list byte) (st : state) : state :=
  mkState (fd st) b (buffer_start st) (buffer_end st) (buffer_has_data st)
          (current_page_size st) (stdout st) (stale_read st) (overrun st).

Definition set_buffer_start (s : Z) (st : state) : state :=
  mkState (fd st) (buffer st) s (buffer_end st) (buffer_has_data st)
          (current_page_size st) (stdout st) (stale_read st) (overrun st).

Definition set_current_page_size (n : Z) (st : state) : state :=
  mkState (fd st) (buffer st) (buffer_start st) (buffer_end st)
          (buffer_has_data st) n (stdout st) (stale_read st) (overrun st).

Definition emit (e : out_event) (st : state) : state :=
  mkState (fd st) (buffer st) (buffer_start st) (buffer_end st)
          (buffer_has_data st) (current_page_size st) (stdout st ++ [e])
          (stale_read st) (overrun st).

Definition set_overrun (o : bool) (st : state) : state :=
  mkState (fd st) (buffer st) (buffer_start st) (buffer_end st)
          (buffer_has_data st) (current_page_size st) (stdout st)
          (stale_read st) o.

(** Ghost bookkeeping: record a read of [buffer[lo .. hi]]. *)
Definition in_window (st : state) (lo hi : Z) : bool :=
  (buffer_start st <=? lo) && (hi <=? buffer_end st).

Definition note_read (lo hi : Z) (st : state) : state :=
  mkState (fd st) (buffer st) (buffer_start st) (buffer_end st)
          (buffer_has_data st) (current_page_size st) (stdout st)
          (stale_read st || negb (in_window st lo hi)) (overrun st).

(** All bytes written to standard output. *)
Definition out_bytes (e : out_event) : list byte :=
  match e with Fwrite b => b | Printf t => t end.

Definition rendered (st : state) : list byte :=
  concat (map out_bytes (stdout st)).

(** The bytes that came from the file (the [fwrite] calls only). *)
Definition file_bytes (e : out_event) : list byte :=
  match e with Fwrite b => b | Printf _ => [] end.

Definition rendered_content (st : state) : list byte :=
  concat (map file_bytes (stdout st)).

(** The two texts that [display_page] prints when it stops early. *)
Definition EOF_text : list byte :=
  list_byte_of_string "=== EOF ==="%string ++ [LF].

Definition error_text : list byte :=
  list_byte_of_string "(error reading file)"%string ++ [LF].

Section Pager.

Variable cfg : config.

(** ** [refill_buffer] *)

Definition refill_buffer (start : Z) (st : state) : Z * state :=
  let '(number_of_bytes, bytes, fd') :=
    read (fd st) (BUFFER_SIZE cfg - start) in
  let buffer' := write_at start bytes (buffer st) in
  if number_of_bytes >? 0
  then (number_of_bytes,
        mkState fd' buffer' 0 (start - 1 + number_of_bytes) 1
                (current_page_size st) (stdout st) (stale_read st)
                (overrun st))
  else (number_of_bytes,
        mkState fd' buffer' 0 (start - 1) 0
                (current_page_size st) (stdout st) (stale_read st)
                (overrun st)).

(** ** [fetch_next_word] *)

(** How the [while] loop of [fetch_next_word] is left: by a [return]
    inside it, or through its condition or [break] with the locals
    [more], [start], [count]. *)
Inductive scan_exit : Type :=
| Returned (code : Z) (st : state)
| Left (more : bool) (start count : Z) (st : state).

Inductive refilled : Type :=
| Stop (e : scan_exit)
| Go (start : Z) (st : state).

(** [memcpy( buffer, buffer + buffer_start, count )] *)
Definition compact (count : Z) (st : state) : state :=
  let st := note_read (buffer_start st) (buffer_start st + count - 1) st in
  set_buffer (write_at 0 (sub (buffer st) (buffer_start st) count)
                       (buffer st)) st.

(** The [if ( start + count > buffer_end )] block. *)
Definition at_buffer_end (start count : Z) (st : state) : refilled :=
  if start + count >? buffer_end st then
    let st := if count =? 0 then st else compact count st in
    let '(refill_return, st) := refill_buffer count st in
    let start := buffer_start st in
    if refill_return =? 0 then
      if count =? 0 then Stop (Returned 0 st)
      else Stop (Left false start count st)
    else if refill_return =? -1 then Stop (Returned (-1) st)
    else Go start st
  else Go start st.

(** [buffer[i]] *)
Definition peek (i : Z) (st : state) : byte * state :=
  (nth (Z.to_nat i) (buffer st) x00, note_read i i st).

(** The [while( more && count < (max_size + 1) )] loop.  Every iteration
    that continues increments [count], so [max_size + 1 - count]
    iterations are enough ([scan_fuel] below). *)
Fixpoint scan (fuel : nat) (max_size start count : Z) (st : state)
  : scan_exit :=
  if count <? max_size + 1 then
    match fuel with
    | O => Left true start count st
    | S fuel' =>
        match at_buffer_end start count st with
        | Stop e => e
        | Go start st =>
            let '(c, st) := peek (start + count) st in
            if is_delim c then Left false start (count + 1) st
            else scan fuel' max_size start (count + 1) st
        end
    end
  else Left true start count st.

(** Returns the code, the bytes copied into [word] (none unless the code
    is positive) and the new state. *)
Definition fetch_next_word (max_size : Z) (st : state)
  : Z * list byte * state :=
  match scan (Z.to_nat (max_size + 1)) max_size (buffer_start st) 0 st with
  | Returned code st => (code, [], st)
  | Left true _ _ st => (-2, [], st)
  | Left false start count st =>
      let st := note_read start (start + count - 1) st in
      (count, sub (buffer st) start count,
       set_buffer_start (buffer_start st + count) st)
  end.

(** ** The stack arrays

    [char word[LINE_WIDTH]] of [fetch_next_line] and [char line[LINE_WIDTH]]
    of [display_page], which is the [line] that [fetch_next_line] is
    given. *)

(** Ghost bookkeeping: the cells [0 .. used - 1] of an array of
    [LINE_WIDTH] cells are accessed. *)
Definition note_array (used : Z) (st : state) : state :=
  if used >? LINE_WIDTH cfg then set_overrun true st else st.

(** ** [fetch_next_line] *)

(** The [while( more )] loop; [line] holds the [count] bytes stored so
    far.  A round that continues leaves [count < LINE_WIDTH] and adds at
    least one byte, so [LINE_WIDTH + 1] rounds are enough
    ([line_loop_fuel] below).  A word found has been copied into [word]
    by [fetch_next_word], [number_of_chars] bytes from its first cell,
    and is copied from there into [line] behind the [count] bytes it
    holds. *)
Fixpoint line_loop (fuel : nat) (line : list byte) (count : Z) (st : state)
  : Z * list byte * state :=
  match fuel with
  | O => (count, line, st)
  | S fuel' =>
      let '(number_of_chars, word, st) :=
        fetch_next_word (LINE_WIDTH cfg - count) st in
      if number_of_chars >? 0 then
        let st := note_array number_of_chars st in           (* [word] *)
        let st := note_array (count + number_of_chars) st in (* [line] *)
        let line := line ++ word in
        let count := count + number_of_chars in
        if Byte.eqb (nth (Z.to_nat (number_of_chars - 1)) word x00) LF
           || (count >=? LINE_WIDTH cfg)
        then (count, line, st)
        else line_loop fuel' line count st
      else if (number_of_chars =? 0) || (number_of_chars =? -2)
      then (count, line, st)
      else (-1, line, st)
  end.

Definition fetch_next_line (st : state) : Z * list byte * state :=
  line_loop (S (Z.to_nat (LINE_WIDTH cfg))) [] 0 st.

(** ** [display_page] *)

(** The [for] loop, [n] iterations to go.  [fwrite] and the test of the
    last byte read the first [number_of_chars] cells of [line]. *)
Fixpoint page_loop (n : nat) (st : state) : Z * state :=
  match n with
  | O => (1, st)
  | S n' =>
      let '(number_of_chars, line, st) := fetch_next_line st in
      if number_of_chars >? 0 then
        let st := note_array number_of_chars st in           (* [line] *)
        let st := emit (Fwrite (firstn (Z.to_nat number_of_chars) line)) st in
        let st :=
          set_current_page_size (current_page_size st + number_of_chars) st in
        let st :=
          if Byte.eqb (nth (Z.to_nat (number_of_chars - 1)) line x00) LF
          then st else emit (Printf [LF]) st in
        page_loop n' st
      else if number_of_chars =? 0
      then (0, emit (Printf EOF_text) st)
      else (0, emit (Printf error_text) st)
  end.

Definition display_page (st : state) : Z * state :=
  page_loop (Z.to_nat (PAGE_SIZE cfg)) (set_current_page_size 0 st).

(** ** [main] *)

Definition key_f : byte := x66.
Definition key_q : byte := x71.

(** The process image before [main] runs: globals are zero. *)
Definition startup (src : source) : state :=
  mkState src (repeat x00 (Z.to_nat (BUFFER_SIZE cfg))) 0 0 0 0 [] false
          false.

(** The [do ... while ( command != 'q' )] loop over the keys that
    [getchar] will deliver.  The result says whether the loop was left
    (a ['q'] arrived); when the keys run out first the program is
    waiting in [getchar]. *)
Fixpoint command_loop (keys : list byte) (command : byte) (st : state)
  : bool * state :=
  let st := if Byte.eqb command key_f then snd (display_page st) else st in
  match keys with
  | [] => (false, st)
  | k :: keys' =>
      if Byte.eqb k key_q then (true, st) else command_loop keys' k st
  end.

(** [main] from the point where the file is open: [refill_buffer( 0 )],
    then the command loop.  The argument check, the message
    ["Opening file ..."] and [open] come before; [close] and the terminal
    settings come after and write nothing. *)
Definition main (src : source) (keys : list byte) : bool * state :=
  let st := snd (refill_buffer 0 (startup src)) in
  command_loop keys key_f st.

End Pager.

(** * Abstractions for the statements *)

(** The bytes a source still holds, whatever the runs and faults. *)
Fixpoint source_bytes (src : source) : list byte :=
  match src with
  | [] => []
  | Data b bs :: rest => (b :: bs) ++ source_bytes rest
  | Fault :: rest => source_bytes rest
  end.

Definition is_data (e : event) : bool :=
  match e with Data _ _ => true | Fault => false end.

Definition fault_free (src : source) : bool := forallb is_data src.

(** What one [read] does, as three cases. *)
Inductive read_result (src : source) (n : Z)
  : Z -> list byte -> source -> Prop :=
| read_some r bs src' :
    0 < r -> r = Z.of_nat (length bs) -> r <= n ->
    source_bytes src = bs ++ source_bytes src' ->
    (fault_free src = true -> fault_free src' = true) ->
    read_result src n r bs src'
| read_none :
    n <= 0 \/ src = [] ->
    read_result src n 0 [] src
| read_fault src' :
    0 < n -> src = Fault :: src' ->
    read_result src n (-1) [] src'.

(** The unconsumed bytes already in the store: [buffer[start .. end]]. *)
Definition window (st : state) : list byte :=
  sub (buffer st) (buffer_start st) (buffer_end st + 1 - buffer_start st).

(** Everything still to be delivered: the window, then the source. *)
Definition pending (st : state) : list byte :=
  window st ++ source_bytes (fd st).

(** The window invariant of the description, with the size of the
    store. *)
Definition window_ok (cfg : config) (st : state) : Prop :=
  0 <= buffer_start st <= buffer_end st + 1 /\
  buffer_end st + 1 <= BUFFER_SIZE cfg /\
  Z.of_nat (length (buffer st)) = BUFFER_SIZE cfg.

(** What is the same before and after an operation that only touches the
    buffer. *)
Definition same_output (st st' : state) : Prop :=
  stdout st' = stdout st /\ current_page_size st' = current_page_size st.

(** The loop invariant: [count] bytes have been scanned from the window
    start, all of them inside the window. *)
Definition scanning (cfg : config) (st : state) (start count : Z) : Prop :=
  window_ok cfg st /\ start = buffer_start st /\
  0 <= count /\ start + count <= buffer_end st + 1.

(** What every step of the scan keeps: nothing is consumed, the scanned
    bytes stay where [start] points, the window only grows at its end. *)
Definition kept (st : state) (start : Z) (st' : state) (start' : Z)
  (count : Z) : Prop :=
  pending st' = pending st /\
  sub (buffer st') start' count = sub (buffer st) start count /\
  (exists fresh, window st' = window st ++ fresh) /\
  buffer_start st' <= buffer_start st /\
  stale_read st' = stale_read st /\
  same_output st st' /\
  (fault_free (fd st) = true -> fault_free (fd st') = true).

(** The two shapes of a result: a word was taken from the head of the
    pending bytes, or nothing was consumed. *)
Definition word_taken (max_size : Z) (st : state)
  (code : Z) (word : list byte) (st' : state) : Prop :=
  0 < code <= max_size + 1 /\
  Z.of_nat (length word) = code /\
  pending st = word ++ pending st' /\
  (code = max_size + 1 -> is_delim (last word x00) = true).

Definition nothing_taken (st : state)
  (code : Z) (word : list byte) (st' : state) : Prop :=
  (code = 0 \/ code = -1 \/ code = -2) /\
  word = [] /\
  pending st' = pending st /\
  buffer_start st' <= buffer_start st /\
  exists fresh, window st' = window st ++ fresh.

(** The window invariant together with the ghost flag: no read so far
    fell outside the window. *)
Definition sound (cfg : config) (st : state) : Prop :=
  window_ok cfg st /\ stale_read st = false.

(** * The scanner as a function of the pending bytes

    Section 4.2 of the description, written over the bytes still to be
    delivered and without any buffer: a word is the bytes up to and
    including the first delimiter, or up to the end of the stream; the
    budget is the [max_size + 1] bytes the scan may look at. *)

Module Spec.

Inductive outcome : Type :=
| Found (word rest : list byte)
| EndOfStream
| Overlong.

Fixpoint next_word_from (budget : nat) (seen p : list byte) : outcome :=
  match budget with
  | O => Overlong
  | S budget' =>
      match p with
      | [] => match seen with [] => EndOfStream | _ => Found seen [] end
      | c :: p' =>
          if is_delim c then Found (seen ++ [c]) p'
          else next_word_from budget' (seen ++ [c]) p'
      end
  end.

Definition next_word (max_size : Z) (p : list byte) : outcome :=
  next_word_from (Z.to_nat (max_size + 1)) [] p.

(** The return code that stands for an outcome. *)
Definition code (o : outcome) : Z :=
  match o with
  | Found word _ => Z.of_nat (length word)
  | EndOfStream => 0
  | Overlong => -2
  end.

Definition word (o : outcome) : list byte :=
  match o with Found word _ => word | _ => [] end.

(** The bytes still pending after the outcome, from [p] before it. *)
Definition rest (p : list byte) (o : outcome) : list byte :=
  match o with Found _ rest => rest | _ => p end.

End Spec.

(** The scan of the program and the scan of the description agree. *)
Inductive scan_matches : Spec.outcome -> scan_exit -> Prop :=
| matches_overlong start count st :
    scan_matches Spec.Overlong (Left true start count st)
| matches_end st :
    scan_matches Spec.EndOfStream (Returned 0 st)
| matches_found word rest start count st :
    sub (buffer st) start count = word ->
    scan_matches (Spec.Found word rest) (Left false start count st).

(** * Auxiliary notions for the statements *)

(** The state in which [main] enters its command loop on a regular file
    holding [content]. *)
Definition loaded (cfg : config) (content : list byte) : state :=
  snd (refill_buffer cfg 0 (startup cfg (file content))).

(** A line made of one word only: no delimiter before its last byte. *)
Definition single_word (line : list byte) : bool :=
  negb (existsb is_delim (removelast line)).

(** The width bound as the description has it: a line that
    [fetch_next_line] returns has at most [LINE_WIDTH] bytes unless it is
    a single word. *)
Definition width_bound_as_described (cfg : config) (st : state) : Prop :=
  let '(n, line, _) := fetch_next_line cfg st in
  single_word line = false -> n <= LINE_WIDTH cfg.

(** Four bytes and a space, then 75 bytes and a space: two words, 81
    bytes. *)
Definition two_words_81 : list byte :=
  repeat x61 4 ++ [SPACE] ++ repeat x62 75 ++ [SPACE].

(** The pending bytes begin with more than [lw] bytes free of
    delimiters: a word that no line can hold. *)
Definition starts_overlong (lw : Z) (p : list byte) : bool :=
  (Z.to_nat (lw + 1) <=? length p)%nat
  && forallb (fun c => negb (is_delim c)) (firstn (Z.to_nat (lw + 1)) p).

(** The contract of refill as the description has it: the window end is
    [preserved_count - 1 + bytes_read], where [bytes_read] is the value
    returned, and 0 is returned when the source is exhausted. *)
Definition refill_as_described (cfg : config) (preserved_count : Z)
  (st : state) : Prop :=
  let '(bytes_read, st') := refill_buffer cfg preserved_count st in
  buffer_start st' = 0 /\
  buffer_end st' = preserved_count - 1 + bytes_read /\
  (bytes_read = 0 -> fd st = []).

(** The Overlong outcome as the description has it: the window start is
    not advanced and the bytes of the window are the same. *)
Definition overlong_as_described (cfg : config) (max_size : Z)
  (st : state) : Prop :=
  let '(code, _, st') := fetch_next_word cfg max_size st in
  code = -2 -> buffer_start st' <= buffer_start st /\ window st' = window st.

Definition no_delim (w : list byte) : bool :=
  forallb (fun c => negb (is_delim c)) w.

(** The stream has ended: the window is empty and the source is at end
    of file. *)
Definition at_end (st : state) : Prop :=
  fd st = [] /\ buffer_end st < buffer_start st.

(** The number of times [display_page] is called by the command loop
    entered with [command] when [keys] are then typed: the ['f'] commands
    before the first ['q']. *)
Fixpoint pages_requested (command : byte) (keys : list byte) : nat :=
  (if Byte.eqb command key_f then 1 else 0)
  + match keys with
    | [] => 0
    | k :: keys' =>
        if Byte.eqb k key_q then 0 else pages_requested k keys'
    end.

Definition quits (keys : list byte) : bool :=
  existsb (fun k => Byte.eqb k key_q) keys.

(** The state in which [main] enters its command loop on [src]. *)
Definition entered (cfg : config) (src : source) : state :=
  snd (refill_buffer cfg 0 (startup cfg src)).

(** The state after [k] calls of [display_page]. *)
Definition pages (cfg : config) (k : nat) (st : state) : state :=
  Nat.iter k (fun st => snd (display_page cfg st)) st.

(** The Ended state as the description has it: once [display_page] has
    returned 0, a further next-page command writes nothing. *)
Definition ended_as_described (cfg : config) (st : state) : Prop :=
  let '(status, st1) := display_page cfg st in
  status = 0 ->
  rendered (snd (command_loop cfg [] key_f st1)) = rendered st1.

(** Two runs of the program, possibly with different capacities, that
    have the same bytes pending and have written the same output. *)
Definition twin (cfg1 cfg2 : config) (st1 st2 : state) : Prop :=
  window_ok cfg1 st1 /\ window_ok cfg2 st2 /\
  fault_free (fd st1) = true /\ fault_free (fd st2) = true /\
  pending st1 = pending st2 /\
  stdout st1 = stdout st2 /\
  current_page_size st1 = current_page_size st2.

(** Transparency of the capacity as the description has it: whatever the
    two capacities are. *)
Definition transparency_as_described (cfg1 cfg2 : config)
  (content keys : list byte) : Prop :=
  LINE_WIDTH cfg1 = LINE_WIDTH cfg2 -> PAGE_SIZE cfg1 = PAGE_SIZE cfg2 ->
  stdout (snd (main cfg1 (file content) keys))
  = stdout (snd (main cfg2 (file content) keys)).

(** ** Concrete inputs *)

(** LineWidth = 10, PageSize = 1, hence a store of 11 bytes. *)
Definition small : config := macro_config 1 10.

(** The same line width and page size over a store of 5 bytes. *)
Definition tiny_store : config := mkConfig 1 10 5.

(** The line width and page size of the program over a store of 100
    bytes. *)
Definition mypager_100 : config := mkConfig 20 80 100.

Definition example_input : list byte :=
  list_byte_of_string "abcdefgh ij"%string ++ [LF]
    ++ list_byte_of_string "klmno"%string.

Definition text (s : string) : list byte := list_byte_of_string s.

(** 81 bytes without a delimiter. *)
Definition long_word : list byte := repeat x61 81.

(** A line, a word of 81 bytes, a line. *)
Definition around_long_word : list byte :=
  text "hello" ++ [LF] ++ long_word ++ [LF] ++ text "bye" ++ [LF].

(** Twenty full lines (1600 bytes), then 100 bytes without a delimiter:
    after the first page the window holds the first 20 of them. *)
Definition page_then_long_word : list byte :=
  concat (repeat (repeat x78 79 ++ [LF]) 20) ++ repeat x61 100.

(** The same bytes as [example_input], delivered by [read] in runs of
    3, 1 and 13 bytes. *)
Definition example_in_runs : source :=
  [Data x61 (text "bc"); Data x64 []; Data x65 (text "fgh ij" ++ [LF]
                                                  ++ text "klmno")].

(** Two bytes, then a [read] that fails, then three bytes more. *)
Definition fails_then_more : source :=
  [Data x61 [x62]; Fault; Data x63 [x64; LF]].

(** Every run of bytes free of delimiters in [p] has at most [lw] bytes,
    [run] bytes of the first run having been seen already. *)
Fixpoint runs_fit (lw run : nat) (p : list byte) : bool :=
  match p with
  | [] => true
  | c :: p' =>
      if is_delim c then runs_fit lw 0 p'
      else (S run <=? lw)%nat && runs_fit lw (S run) p'
  end.

(** No word of [p] has more than [lw] bytes before its delimiter. *)
Definition words_fit (lw : Z) (p : list byte) : bool :=
  runs_fit (Z.to_nat lw) 0 p.

(** The state of a run over [content] whose words fit the line: what has
    been written from the file and what is still pending make up
    [content]. *)
Definition fitting (cfg : config) (content : list byte) (st : state) : Prop :=
  window_ok cfg st /\ fault_free (fd st) = true /\
  words_fit (LINE_WIDTH cfg) (pending st) = true /\
  rendered_content st ++ pending st = content.

(** * Further notions for the viewer *)

(** The calls that [display_page] makes for [n] lines: each line is
    written with [fwrite], and a line feed is printed after a line that
    does not end with one. *)
Inductive page_lines : nat -> list out_event -> Prop :=
| page_lines_none : page_lines 0 []
| page_lines_ended line n evs :
    line <> [] -> last line x00 = LF -> page_lines n evs ->
    page_lines (S n) (Fwrite line :: evs)
| page_lines_wrapped line n evs :
    line <> [] -> last line x00 <> LF -> page_lines n evs ->
    page_lines (S n) (Fwrite line :: Printf [LF] :: evs).

(** The keys that the command loop acts on. *)
Definition is_command (k : byte) : bool :=
  Byte.eqb k key_f || Byte.eqb k key_q.

(** The bytes of the file among some calls to standard output. *)
Definition content_of (evs : list out_event) : list byte :=
  concat (map file_bytes evs).

(** * The terminal and the whole of [main]

    [main] of [mypager.c] from its first line: the argument check and
    [usage], the message and [open], then what [Base] calls [main], with
    the terminal switched to immediate input before the command loop and
    switched back after it. *)

(** [struct termios]: the flag words and the control characters. *)
Record termios : Type := mkTermios {
  c_iflag : Z;
  c_oflag : Z;
  c_cflag : Z;
  c_lflag : Z;
  c_cc : list byte
}.

Definition set_c_lflag (flags : Z) (t : termios) : termios :=
  mkTermios (c_iflag t) (c_oflag t) (c_cflag t) flags (c_cc t).

(** The attributes of file descriptor 0 and the two globals
    [struct termios old, new].  [tcgetattr] and [tcsetattr] are taken to
    succeed: standard input is a terminal. *)
Record tty : Type := mkTty {
  attributes : termios;
  old : termios;
  new : termios
}.

(** One call writing to standard error. *)
Inductive err_event : Type :=
| Fprintf (text : list byte)   (* [fprintf( stderr, ... )] *)
| Perror (message : list byte). (* [perror( ... )]: the message, then the
                                   text of [errno] *)

(** How a run of the program stands when its keys are used up: the exit
    status if [main] has returned, what was written, and the terminal. *)
Record run : Type := mkRun {
  exit_status : option Z;
  output : list out_event;
  errors : list err_event;
  terminal : tty
}.

Section Session.

Variable cfg : config.

(** [ICANON] and [ECHO] of [<termios.h>]: masks of [c_lflag]. *)
Variables ICANON ECHO : Z.

Definition eliminate_stdio_buffering (t : tty) : tty :=
  let old := attributes t in                       (* tcgetattr( 0, &old ) *)
  let new := old in
  let new := set_c_lflag (Z.land (c_lflag new) (Z.lnot ICANON)) new in
  let new := set_c_lflag (Z.land (c_lflag new) (Z.lnot ECHO)) new in
  mkTty new old new.                        (* tcsetattr( 0, TCSANOW, &new ) *)

Definition restore_stdio_buffering (t : tty) : tty :=
  mkTty (old t) (old t) (new t).            (* tcsetattr( 0, TCSANOW, &old ) *)

(** [usage]: the text for standard error and the value returned. *)
Definition usage (argv : list (list byte)) : list err_event * Z :=
  ([Fprintf (text "Usage:" ++ [LF]);
    Fprintf (nth 0 argv [] ++ text " <filename>" ++ [LF])], 1).

(** [main( argc, argv )].  [opened] is what [open] finds: a source, or
    nothing when it returns -1.  Falling off the end of [main] is exit
    status 0; while the program waits in [getchar] it has none. *)
Definition mypager_main (argc : Z) (argv : list (list byte))
  (opened : option source) (keys : list byte) (t : tty) : run :=
  if negb (argc =? 2) then
    let '(texts, status) := usage argv in
    mkRun (Some status) [] texts t
  else
    let opening :=
      Printf (text "Opening file " ++ nth 1 argv [] ++ text "..." ++ [LF]) in
    match opened with
    | None =>
        mkRun (Some 1) [opening] [Perror (text "open() failed")] t
    | Some src =>
        let st := emit opening (startup cfg src) in
        let st := snd (refill_buffer cfg 0 st) in
        let t := eliminate_stdio_buffering t in
        let '(quit, st) := command_loop cfg keys key_f st in
        if quit
        then mkRun (Some 0) (stdout st) [] (restore_stdio_buffering t)
        else mkRun None (stdout st) [] t
    end.

End Session.

(** The same state with [before] written to standard output first. *)
Definition after_output (before : list out_event) (st : state) : state :=
  mkState (fd st) (buffer st) (buffer_start st) (buffer_end st)
          (buffer_has_data st) (current_page_size st)
          (before ++ stdout st) (stale_read st) (overrun st).

(** The attributes with the bits of the two masks cleared in [c_lflag]. *)
Definition raw_mode (ICANON ECHO : Z) (t : termios) : termios :=
  set_c_lflag (Z.land (Z.land (c_lflag t) (Z.lnot ICANON)) (Z.lnot ECHO)) t.

Definition exit_after_output (before : list out_event) (e : scan_exit)
  : scan_exit :=
  match e with
  | Returned code st => Returned code (after_output before st)
  | Left more start count st => Left more start count (after_output before st)
  end.

Definition refilled_after_output (before : list out_event) (r : refilled)
  : refilled :=
  match r with
  | Stop e => Stop (exit_after_output before e)
  | Go start st => Go start (after_output before st)
  end.

(** * mycopy: copying a file

    A shallow embedding of [mycopy.c].  The file to copy is a [source] as
    for the viewer; the copy is a file that records what is written to
    it, with a plan of how the successive calls of [write] behave. *)

Module Mycopy.

(** [#define BUFFER_SIZE 4096] *)
Definition BUFFER_SIZE : Z := 4096.

(** [S_IRWXU | S_IRWXG | S_IRWXO] with the values of [<sys/stat.h>]:
    0700, 070 and 07. *)
Definition S_IRWXU : Z := 448.
Definition S_IRWXG : Z := 56.
Definition S_IRWXO : Z := 7.

(** How one call of [write] behaves: it writes all the bytes, or only
    the first [k] of them (returning that count), or it fails with -1. *)
Inductive written : Type :=
| All
| Part (k : nat)
| Fails.

(** The copy: the bytes written so far and the behaviour of the calls to
    come; once the plan is used up every call writes all its bytes. *)
Record sink : Type := mkSink {
  content : list byte;
  plan : list written
}.

(** [write( copy, buffer, n )] where [bytes] are the first [n] bytes of
    [buffer]: the value returned and the copy afterwards. *)
Definition write (copy : sink) (bytes : list byte) : Z * sink :=
  match plan copy with
  | [] => (Z.of_nat (length bytes), mkSink (content copy ++ bytes) [])
  | All :: rest =>
      (Z.of_nat (length bytes), mkSink (content copy ++ bytes) rest)
  | Part k :: rest =>
      let part := firstn k bytes in
      (Z.of_nat (length part), mkSink (content copy ++ part) rest)
  | Fails :: rest => (-1, mkSink (content copy) rest)
  end.

(** What the system calls of the set-up find.  [opened] is the file to
    copy ([None] when [open] returns -1), [st_mode] what [fstat] reports
    ([None] when it returns -1), [created] the plan of the new file
    ([None] when [open] with [O_CREAT|O_EXCL] returns -1), and [umask]
    the file mode creation mask of the process: [open] creates a file
    with the bits of its mode argument that the mask does not hold. *)
Record system : Type := mkSystem {
  opened : option source;
  st_mode : option Z;
  created : option (list written);
  umask : Z
}.

(** The result of a run: the exit status, standard output, the messages
    given to [perror], and the copy with the permissions it is created
    with, if created. *)
Record result : Type := mkResult {
  status : Z;
  printed : list byte;
  reported : list (list byte);
  copied : option (list byte);
  permissions : option Z
}.

(** [error]: the message for [perror] and the value returned. *)
Definition error (msg : list byte) : list byte * Z := (msg, 2).

(** [usage]: the text printed and the value returned. *)
Definition usage (name : list byte) : list byte * Z :=
  (text "Usage: " ++ name ++ text " <file to copy> <name of copy>" ++ [LF],
   1).

(** The [do ... while ( bytes_read > 0 )] loop.  [bytes_written] enters
    with the value it has in memory: the C code does not initialise it.
    Every round that continues takes at least one byte from the file, so
    one round more than the file has bytes is enough ([copy_loop_fuel]
    below).  Returns the last [bytes_read], the copy and the messages. *)
Fixpoint copy_loop (fuel : nat) (file : source) (copy : sink)
  (bytes_written : Z) (reported : list (list byte))
  : Z * sink * list (list byte) :=
  match fuel with
  | O => (0, copy, reported)
  | S fuel' =>
      let '(bytes_read, buffer, file) := read file BUFFER_SIZE in
      let '(bytes_written, copy) :=
        if bytes_read >? 0 then write copy buffer
        else (bytes_written, copy) in
      let reported :=
        if bytes_written <? 1
        then reported ++ [fst (error (text "write"))] else reported in
      if bytes_read >? 0
      then copy_loop fuel' file copy bytes_written reported
      else (bytes_read, copy, reported)
  end.

(** [main( argc, argv )]; [junk] is the indeterminate first value of
    [bytes_written]. *)
Definition main (argc : Z) (argv : list (list byte)) (sys : system)
  (junk : Z) : result :=
  if negb (argc =? 3) then
    let '(line, value) := usage (nth 0 argv []) in
    mkResult value line [] None None
  else
    match opened sys with
    | None =>
        let '(msg, value) := error (text "opening file to be copied") in
        mkResult value [] [msg] None None
    | Some file =>
        match st_mode sys with
        | None =>
            let '(msg, value) := error (text "fstat file") in
            mkResult value [] [msg] None None
        | Some mode =>
            let permissions :=
              Z.land mode (Z.lor (Z.lor S_IRWXU S_IRWXG) S_IRWXO) in
            match created sys with
            | None =>
                let '(msg, value) := error (text "creating copy") in
                mkResult value [] [msg] None None
            | Some plan =>
                let '(bytes_read, copy, reported) :=
                  copy_loop (S (length (source_bytes file))) file
                            (mkSink [] plan) junk [] in
                let reported :=
                  if bytes_read =? -1
                  then reported ++ [fst (error (text "read"))]
                  else reported in
                mkResult 0 [] reported (Some (content copy))
                         (Some (Z.land permissions (Z.lnot (umask sys))))
            end
        end
    end.

End Mycopy.

(** The bytes that can be read before the first failure. *)
Fixpoint readable (src : source) : list byte :=
  match src with
  | [] => []
  | Data b bs :: rest => (b :: bs) ++ readable rest
  | Fault :: _ => []
  end.

Definition is_all (w : Mycopy.written) : bool :=
  match w with Mycopy.All => true | _ => false end.

(** Every call of [write] to come writes all its bytes. *)
Definition complete (plan : list Mycopy.written) : bool := forallb is_all plan.

(** No byte at all. *)
Definition is_empty (bytes : list byte) : bool :=
  match bytes with [] => true | _ :: _ => false end.

(** * The sorting exercise ([main.c])

    The program asks for a count, fills an array of that many random
    numbers, sorts it with bubble sort or insertion sort as the user
    chooses, and prints it.

    Conventions of the embedding:
    - C [int] is [Z], and [int] gives the value that a 32-bit [int]
      holds for a result in [Z]: arithmetic that can leave the range of
      [int] is written with it ([numNums-1] and [numNums-i-1] of
      [bubbleSort], which leave it for the least [int]; C leaves this
      overflow undefined, the machine wraps around).  The other index
      expressions ([j+1], [i-1], [j-1], [i++]) follow a comparison that
      keeps them between -1 and the bound of their loop, and are written
      in [Z].
    - An [int] array is a [list Z].  An access through an index outside
      the array is undefined in C; here every access goes through [load]
      and [store], which give [None] there, and a function that accesses
      the array returns an [option].
    - [rand()] is a function from the number of earlier calls to the
      value returned; the numbers entered for [scanf] are a list, and
      what [scanf] stores for a number is its value as an [int] (for a
      number that an [int] cannot hold C leaves the result undefined;
      the statements about the numbers entered assume that they are in
      the range of [int]). *)

Module Sorting.

(** ** Integers *)

Definition INT_MIN : Z := -2147483648.
Definition INT_MAX : Z := 2147483647.

(** The value of a 32-bit two's complement [int] for the result [x]. *)
Definition int (x : Z) : Z := (x + 2147483648) mod 4294967296 - 2147483648.

Definition is_int (x : Z) : bool := (INT_MIN <=? x) && (x <=? INT_MAX).

(** ** Memory *)

Definition bind {A B : Type} (m : option A) (k : A -> option B) : option B :=
  match m with
  | Some a => k a
  | None => None
  end.

Notation "x <- m ;; k" := (bind m (fun x => k))
  (at level 100, m at next level, right associativity).

Notation "' pat <- m ;; k" := (bind m (fun x => let 'pat := x in k))
  (at level 100, pat pattern, m at next level, right associativity).

(** [array[i]] read. *)
Definition load (array : list Z) (i : Z) : option Z :=
  if i <? 0 then None else nth_error array (Z.to_nat i).

(** [array[i] = v]. *)
Definition store (array : list Z) (i v : Z) : option (list Z) :=
  if (0 <=? i) && (i <? Z.of_nat (length array))
  then Some (firstn (Z.to_nat i) array ++ v :: skipn (S (Z.to_nat i)) array)
  else None.

(** [malloc( cells * sizeof(int) )], taken to succeed: a block of [cells]
    cells, each holding [fill], which stands for its indeterminate
    content. *)
Definition malloc (cells fill : Z) : list Z := repeat fill (Z.to_nat cells).

(** [for ( i = first; i < bound; i++ ) body], for a body that changes
    neither [i] nor [bound]: the body runs for [first], [first+1], ...
    as many times as [bound - first] says, and not at all when that is
    not positive. *)
Fixpoint rounds {A : Type} (count : nat) (i : Z)
  (body : Z -> A -> option A) (a : A) : option A :=
  match count with
  | O => Some a
  | S count' => a' <- body i a ;; rounds count' (i + 1) body a'
  end.

Definition for_loop {A : Type} (first bound : Z)
  (body : Z -> A -> option A) (a : A) : option A :=
  rounds (Z.to_nat (bound - first)) first body a.

(** ** Input and output *)

(** One call of [printf]: a prompt of [obtainNumberBetween] with its three
    arguments, or one number of [printArray] on a line. *)
Inductive printed : Type :=
| Prompt (description : list byte) (low high : Z)
| Number (n : Z).

(** How a run ends. *)
Inductive outcome : Type :=
| Returns (status : Z) (out : list printed)
| AsksForever
| AccessOutside.

(** ** The functions of [main.c] *)

Section Range.

(** [RANGE_LOWEST] and [RANGE_HIGHEST] of [header.h]; the globals [low]
    and [high] are initialised with them and never assigned. *)
Variables RANGE_LOWEST RANGE_HIGHEST : Z.

Definition low : Z := RANGE_LOWEST.
Definition high : Z := RANGE_HIGHEST.

(** [getNextNumber]: [calls] counts the calls of [rand()] so far; [%] of
    C truncates, as [Z.rem]. *)
Definition getNextNumber (rand : nat -> Z) (calls : nat) : Z * nat :=
  (Z.rem (rand calls) (high - low + 1) + low, S calls).

(** [swap] *)
Definition swap (array : list Z) (i j : Z) : option (list Z) :=
  temp <- load array i ;;
  aj <- load array j ;;
  array <- store array i aj ;;
  store array j temp.

(** [obtainNumberBetween]: [inputs] are the numbers entered, [choice] is
    what the variable holds before the next [scanf], which stores the
    number entered as an [int] and leaves [choice] as it is at the end
    of the input.  The result is the number returned,
    the input left and the prompts printed; [None] when the loop never
    ends. *)
Fixpoint obtainNumberBetween (descriptionCPtr : list byte) (low high : Z)
  (inputs : list Z) (choice : Z) : option (Z * list Z * list printed) :=
  let prompt := Prompt descriptionCPtr low high in
  match inputs with
  | [] =>
      if (choice <? low) || (choice >? high) then None
      else Some (choice, [], [prompt])
  | entered :: inputs =>
      let choice := int entered in
      if (choice <? low) || (choice >? high)
      then match obtainNumberBetween descriptionCPtr low high inputs choice
           with
           | Some (number, inputs, out) => Some (number, inputs, prompt :: out)
           | None => None
           end
      else Some (choice, inputs, [prompt])
  end.

(** [createArray]: the array and the count of calls of [rand()]. *)
Definition createArray (rand : nat -> Z) (fill : Z) (numNums : Z)
  (calls : nat) : option (list Z * nat) :=
  for_loop 0 numNums
    (fun i '(array, calls) =>
       let '(number, calls) := getNextNumber rand calls in
       array <- store array i number ;;
       Some (array, calls))
    (malloc numNums fill, calls).

(** [printArray]: what it prints. *)
Definition printArray (array : list Z) (arrayLen : Z)
  : option (list printed) :=
  for_loop 0 arrayLen
    (fun i out => v <- load array i ;; Some (out ++ [Number v]))
    [].

(** [bubbleSort] *)
Definition bubbleSort (array : list Z) (numNums : Z) : option (list Z) :=
  for_loop 0 (int (numNums - 1))
    (fun i array =>
       for_loop 0 (int (int (numNums - i) - 1))
         (fun j array =>
            aj <- load array j ;;
            aj1 <- load array (j + 1) ;;
            if aj >? aj1 then swap array j (j + 1) else Some array)
         array)
    array.

(** The [while ( j >= 0 && array[j] > key )] loop of [insertionSort]:
    [&&] does not read [array[j]] when [j] is negative.  Every round
    lowers [j] by one, so [j + 1] rounds are enough; running out of them
    would give [None]. *)
Fixpoint shift (fuel : nat) (array : list Z) (key j : Z)
  : option (list Z * Z) :=
  if j >=? 0 then
    aj <- load array j ;;
    if aj >? key then
      match fuel with
      | O => None
      | S fuel' =>
          array <- store array (j + 1) aj ;;
          shift fuel' array key (j - 1)
      end
    else Some (array, j)
  else Some (array, j).

(** [insertionSort] *)
Definition insertionSort (array : list Z) (numNums : Z) : option (list Z) :=
  for_loop 1 numNums
    (fun i array =>
       key <- load array i ;;
       '(array, j) <- shift (Z.to_nat i) array key (i - 1) ;;
       store array (j + 1) key)
    array.

Definition msgCPtr : list byte :=
  text "What would you like to do?" ++ [LF] ++
  text "(1) Sort with bubble-sort" ++ [LF] ++
  text "(2) Sort with insertion-sort" ++ [LF] ++
  text "Your choice ".

(** [main].  [junk1] and [junk2] are what [choice] holds in the two calls
    of [obtainNumberBetween] before anything is entered. *)
Definition main (inputs : list Z) (rand : nat -> Z) (junk1 junk2 fill : Z)
  : outcome :=
  match obtainNumberBetween (text "number of numbers to sort")
          RANGE_LOWEST RANGE_HIGHEST inputs junk1 with
  | None => AsksForever
  | Some (numNums, inputs, out1) =>
      match obtainNumberBetween msgCPtr 1 2 inputs junk2 with
      | None => AsksForever
      | Some (choice, inputs, out2) =>
          match
            '(array, _) <- createArray rand fill numNums 0 ;;
            array <- (if choice =? 1 then bubbleSort array numNums
                      else if choice =? 2 then insertionSort array numNums
                      else Some array) ;;
            printArray array numNums
          with
          | None => AccessOutside
          | Some out3 => Returns 0 (out1 ++ out2 ++ out3)
          end
      end
  end.

End Range.

End Sorting.

(** The numbers of an array in ascending order. *)
Definition ascending (l : list Z) : Prop := StronglySorted Z.le l.

(** Out of the range asked for. *)
Definition refused (low high n : Z) : bool := (n <? low) || (n >? high).

(** One pass of bubble sort over [x :: l], as a function on lists: the
    larger of two neighbours is carried to the right. *)
Fixpoint carry (x : Z) (l : list Z) : list Z :=
  match l with
  | [] => [x]
  | y :: r => if x >? y then y :: carry x r else x :: carry y r
  end.


(** * Properties *)

(** Split a conjunction without unfolding the predicates inside it. *)
Ltac splits := repeat match goal with |- _ /\ _ => split end.

(** Project the fields of an explicit [mkState] without unfolding more. *)
Ltac fields :=
  cbn [fd buffer buffer_start buffer_end buffer_has_data current_page_size
       stdout stale_read overrun set_buffer set_buffer_start
       set_current_page_size set_overrun emit note_read] in *.

(** ** The ghost flag of the stack arrays *)

Lemma note_array_is (cfg : config) (used : Z) (st : state) :
  note_array cfg used st
  = set_overrun (overrun st || (used >? LINE_WIDTH cfg)) st.
Proof.
  unfold note_array. destruct st, (used >? LINE_WIDTH cfg); cbn;
    now rewrite ?orb_true_r, ?orb_false_r.
Qed.

Lemma note_array_inside (cfg : config) (used : Z) (st : state) :
  used <= LINE_WIDTH cfg -> note_array cfg used st = st.
Proof.
  intros H. unfold note_array.
  destruct (Z.gtb_spec used (LINE_WIDTH cfg)); [lia | reflexivity].
Qed.

Lemma pending_set_overrun (o : bool) (st : state) :
  pending (set_overrun o st) = pending st.
Proof. reflexivity. Qed.

Lemma window_set_overrun (o : bool) (st : state) :
  window (set_overrun o st) = window st.
Proof. reflexivity. Qed.

Lemma rendered_set_overrun (o : bool) (st : state) :
  rendered (set_overrun o st) = rendered st.
Proof. reflexivity. Qed.

Lemma rendered_content_set_overrun (o : bool) (st : state) :
  rendered_content (set_overrun o st) = rendered_content st.
Proof. reflexivity. Qed.

Lemma window_ok_set_overrun (cfg : config) (o : bool) (st : state) :
  window_ok cfg (set_overrun o st) = window_ok cfg st.
Proof. reflexivity. Qed.

Lemma same_output_set_overrun (o : bool) (st st' : state) :
  same_output st (set_overrun o st') = same_output st st'.
Proof. reflexivity. Qed.

(** Turn the notes of array accesses into [set_overrun] and project
    through it. *)
Ltac ghost :=
  rewrite ?note_array_is in *;
  rewrite ?pending_set_overrun, ?window_set_overrun, ?rendered_set_overrun,
          ?rendered_content_set_overrun, ?window_ok_set_overrun,
          ?same_output_set_overrun in *;
  fields.

(** ** Arrays *)

Lemma sub_length (buf : list byte) (off len : Z) :
  0 <= off -> 0 <= len -> off + len <= Z.of_nat (length buf) ->
  Z.of_nat (length (sub buf off len)) = len.
Proof.
  intros Hoff Hlen Hfit. unfold sub.
  rewrite length_firstn, length_skipn. lia.
Qed.

Lemma sub_nil (buf : list byte) (off : Z) : sub buf off 0 = [].
Proof. reflexivity. Qed.

Lemma sub_split (buf : list byte) (off a b : Z) :
  0 <= off -> 0 <= a -> 0 <= b ->
  sub buf off (a + b) = sub buf off a ++ sub buf (off + a) b.
Proof.
  intros Hoff Ha Hb. unfold sub.
  rewrite !Z2Nat.inj_add by lia.
  rewrite <- (firstn_skipn (Z.to_nat a) (skipn (Z.to_nat off) buf)) at 1.
  rewrite firstn_app, firstn_firstn, length_firstn, length_skipn.
  rewrite skipn_skipn.
  replace (Nat.min (Z.to_nat a + Z.to_nat b) (Z.to_nat a)) with (Z.to_nat a)
    by lia.
  f_equal.
  replace (Z.to_nat a + Z.to_nat off)%nat with (Z.to_nat off + Z.to_nat a)%nat
    by lia.
  set (rest := skipn (Z.to_nat off + Z.to_nat a) buf).
  destruct (Nat.le_gt_cases (Z.to_nat a) (length buf - Z.to_nat off)) as [H|H].
  - f_equal. lia.
  - subst rest. rewrite skipn_all2 by lia. now rewrite !firstn_nil.
Qed.

Lemma sub_nth (buf : list byte) (off len i : Z) (d : byte) :
  0 <= off -> 0 <= i < len ->
  nth (Z.to_nat i) (sub buf off len) d = nth (Z.to_nat (off + i)) buf d.
Proof.
  intros Hoff Hi. unfold sub.
  rewrite nth_firstn.
  destruct (Nat.ltb_spec (Z.to_nat i) (Z.to_nat len)) as [_|H]; [|lia].
  rewrite nth_skipn. f_equal. lia.
Qed.

Lemma sub_app_left (pre rest : list byte) (len : Z) :
  len = Z.of_nat (length pre) -> sub (pre ++ rest) 0 len = pre.
Proof.
  intros ->. unfold sub. simpl. rewrite Nat2Z.id.
  rewrite firstn_app, Nat.sub_diag, firstn_all. simpl. apply app_nil_r.
Qed.

Lemma sub_app_right (pre rest : list byte) (off len : Z) :
  off = Z.of_nat (length pre) -> sub (pre ++ rest) off len = sub rest 0 len.
Proof.
  intros ->. unfold sub. simpl. rewrite Nat2Z.id.
  rewrite skipn_app, Nat.sub_diag, skipn_all. reflexivity.
Qed.

Lemma write_at_length (off : Z) (bytes buf : list byte) :
  0 <= off -> off + Z.of_nat (length bytes) <= Z.of_nat (length buf) ->
  length (write_at off bytes buf) = length buf.
Proof.
  intros Hoff Hfit. unfold write_at.
  rewrite !length_app, length_firstn, length_skipn. lia.
Qed.

Lemma write_at_sub (off : Z) (bytes buf : list byte) :
  0 <= off -> off <= Z.of_nat (length buf) ->
  sub (write_at off bytes buf) off (Z.of_nat (length bytes)) = bytes.
Proof.
  intros Hoff Hfit. unfold write_at.
  rewrite sub_app_right by (rewrite length_firstn; lia).
  now apply sub_app_left.
Qed.

Lemma write_at_before (off a : Z) (bytes buf : list byte) :
  0 <= a <= off -> off <= Z.of_nat (length buf) ->
  sub (write_at off bytes buf) 0 a = sub buf 0 a.
Proof.
  intros Ha Hfit. unfold write_at, sub. simpl.
  rewrite firstn_app, length_firstn.
  replace (Z.to_nat a - Nat.min (Z.to_nat off) (length buf))%nat with O by lia.
  rewrite firstn_O, app_nil_r, firstn_firstn. f_equal. lia.
Qed.

(** ** The byte source *)

Lemma source_bytes_file (content : list byte) :
  source_bytes (file content) = content.
Proof. destruct content; simpl; [reflexivity | now rewrite app_nil_r]. Qed.

Lemma fault_free_file (content : list byte) : fault_free (file content) = true.
Proof. now destruct content. Qed.

Lemma read_spec (src : source) (n : Z) :
  let '(r, bs, src') := read src n in read_result src n r bs src'.
Proof.
  unfold read. destruct (Z.leb_spec n 0) as [Hn|Hn].
  - apply read_none. now left.
  - destruct src as [|[b bs|] rest].
    + apply read_none. now right.
    + pose proof (firstn_skipn (Z.to_nat n) (b :: bs)) as Hsplit.
      assert (Hgot : 0 < Z.of_nat (length (firstn (Z.to_nat n) (b :: bs)))).
      { rewrite length_firstn. simpl length. lia. }
      assert (Hle : Z.of_nat (length (firstn (Z.to_nat n) (b :: bs))) <= n).
      { rewrite length_firstn. lia. }
      destruct (skipn (Z.to_nat n) (b :: bs)) as [|c cs] eqn:Hrest.
      * apply read_some; auto.
        cbn [source_bytes]. rewrite <- Hsplit at 1. now rewrite app_nil_r.
      * apply read_some; auto.
        cbn [source_bytes]. rewrite <- Hsplit at 1.
        now rewrite <- app_assoc.
    + now apply read_fault.
Qed.

(** ** The window *)

Section Window.

Variable cfg : config.

(** [refill_buffer] with [start] preserved bytes, in one statement: the
    bytes [bs] that [read] delivered follow the preserved ones. *)
Lemma refill_buffer_spec (start : Z) (st : state) :
  0 <= start <= BUFFER_SIZE cfg ->
  Z.of_nat (length (buffer st)) = BUFFER_SIZE cfg ->
  exists r bs st',
    refill_buffer cfg start st = (r, st') /\
    read_result (fd st) (BUFFER_SIZE cfg - start) r bs (fd st') /\
    buffer_start st' = 0 /\
    buffer_end st' = start - 1 + Z.of_nat (length bs) /\
    length (buffer st') = length (buffer st) /\
    sub (buffer st') 0 (start + Z.of_nat (length bs))
      = sub (buffer st) 0 start ++ bs /\
    buffer_has_data st' = (if r >? 0 then 1 else 0) /\
    stale_read st' = stale_read st /\
    same_output st st'.
Proof.
  intros Hstart Hlen. unfold refill_buffer.
  pose proof (read_spec (fd st) (BUFFER_SIZE cfg - start)) as Hread.
  destruct (read (fd st) (BUFFER_SIZE cfg - start)) as [[r bs] src'].
  assert (Hbs : Z.of_nat (length bs) <= BUFFER_SIZE cfg - start).
  { destruct Hread; simpl; lia. }
  assert (Hstore : sub (write_at start bs (buffer st)) 0
                       (start + Z.of_nat (length bs))
                   = sub (buffer st) 0 start ++ bs).
  { rewrite sub_split by lia. f_equal.
    - apply write_at_before; lia.
    - simpl. apply write_at_sub; lia. }
  assert (Hkeep : length (write_at start bs (buffer st)) = length (buffer st)).
  { apply write_at_length; lia. }
  exists r, bs.
  destruct (r >? 0) eqn:Hr.
  - eexists. split; [reflexivity|]. cbn.
    repeat split; auto.
    destruct Hread; simpl in *; lia.
  - eexists. split; [reflexivity|]. cbn.
    repeat split; auto.
    destruct Hread; simpl in *; lia.
Qed.

Lemma read_result_bytes src n r bs src' :
  read_result src n r bs src' -> source_bytes src = bs ++ source_bytes src'.
Proof. destruct 1 as [? ? ? _ _ _ ? _| _ | ? _ ->]; auto. Qed.

Lemma read_result_fault_free src n r bs src' :
  read_result src n r bs src' -> fault_free src = true ->
  fault_free src' = true /\ 0 <= r.
Proof.
  destruct 1 as [? ? ? ? _ _ _ ?| _ | ? _ ->]; intros Hff.
  - split; [auto | lia].
  - split; [auto | lia].
  - discriminate.
Qed.

(** ** The scan of [fetch_next_word] *)

Lemma kept_refl st start count : kept st start st start count.
Proof.
  repeat split; auto; try lia. exists []. now rewrite app_nil_r.
Qed.

Lemma kept_trans st1 s1 st2 s2 st3 s3 count :
  kept st1 s1 st2 s2 count -> kept st2 s2 st3 s3 count ->
  kept st1 s1 st3 s3 count.
Proof.
  intros (Hp & Hs & [f Hw] & Hb & Hr & [Ho Hc] & Hf)
         (Hp' & Hs' & [f' Hw'] & Hb' & Hr' & [Ho' Hc'] & Hf').
  repeat split; try congruence; try lia; auto.
  exists (f ++ f'). now rewrite Hw', Hw, app_assoc.
Qed.

Lemma compact_spec st start count :
  scanning cfg st start count -> start + count = buffer_end st + 1 ->
  let st1 := if count =? 0 then st else compact count st in
  Z.of_nat (length (buffer st1)) = BUFFER_SIZE cfg /\
  sub (buffer st1) 0 count = sub (buffer st) start count /\
  fd st1 = fd st /\ stale_read st1 = stale_read st /\ same_output st st1.
Proof.
  intros ((Hwin & Hcap & Hlen) & -> & Hcount & Hin) Hfull.
  destruct (Z.eqb_spec count 0) as [->|Hnz]; cbn zeta.
  - repeat split; auto.
  - unfold compact, same_output. fields.
    assert (Hseen : Z.of_nat (length (sub (buffer st) (buffer_start st) count))
                    = count) by (apply sub_length; lia).
    repeat split.
    + rewrite write_at_length; lia.
    + unfold write_at. cbn [Z.to_nat firstn app].
      rewrite sub_app_left; auto.
    + unfold in_window.
      replace (buffer_start st <=? buffer_start st) with true
        by (symmetry; apply Z.leb_le; lia).
      replace (buffer_start st + count - 1 <=? buffer_end st) with true
        by (symmetry; apply Z.leb_le; lia).
      apply orb_false_r.
Qed.

Lemma window_full st start count :
  scanning cfg st start count -> start + count = buffer_end st + 1 ->
  window st = sub (buffer st) start count.
Proof.
  intros (_ & -> & _) Hfull. unfold window. f_equal. lia.
Qed.

(** The [if ( start + count > buffer_end )] block: either the scan goes
    on with a byte available at [start + count], or it stops because the
    source gave nothing ([read] returned 0) or failed. *)
Lemma at_buffer_end_spec st start count :
  scanning cfg st start count ->
  match at_buffer_end cfg start count st with
  | Go start' st' =>
      scanning cfg st' start' count /\ start' + count <= buffer_end st' /\
      kept st start st' start' count
  | Stop (Returned code st') =>
      scanning cfg st' (buffer_start st') count /\
      kept st start st' (buffer_start st') count /\
      start + count = buffer_end st + 1 /\
      ((code = 0 /\ count = 0 /\
        (BUFFER_SIZE cfg - count <= 0 \/ fd st = [])) \/
       (code = -1 /\ exists src', fd st = Fault :: src'))
  | Stop (Left more start' count' st') =>
      more = false /\ count' = count /\ 0 < count /\
      scanning cfg st' start' count /\ kept st start st' start' count /\
      start + count = buffer_end st + 1 /\
      start' + count = buffer_end st' + 1 /\
      (BUFFER_SIZE cfg - count <= 0 \/ fd st = [])
  end.
Proof.
  intros Hscan. unfold at_buffer_end.
  destruct (Z.gtb_spec (start + count) (buffer_end st)) as [Hend|Hend].
  2:{ splits; [exact Hscan | lia | apply kept_refl]. }
  assert (Hfull : start + count = buffer_end st + 1)
    by (destruct Hscan as (_ & _ & _ & ?); lia).
  pose proof (window_full _ _ _ Hscan Hfull) as Hwin.
  pose proof (compact_spec _ _ _ Hscan Hfull) as Hc. cbn zeta in Hc.
  set (st1 := if count =? 0 then st else compact count st) in *.
  destruct Hc as (Hlen1 & Hsub1 & Hfd1 & Hstale1 & Hout1).
  destruct Hscan as ((Hwok & Hcap & Hlen) & -> & Hcount & Hin).
  destruct (refill_buffer_spec count st1) as
    (r & bs & st2 & -> & Hread & Hs2 & He2 & Hlen2 & Hsub2 & _ & Hstale2 & Hout2);
    [lia | assumption |].
  assert (Hbs : Z.of_nat (length bs) <= BUFFER_SIZE cfg - count).
  { destruct Hread; simpl; lia. }
  assert (Hscan2 : scanning cfg st2 (buffer_start st2) count).
  { repeat split; lia. }
  assert (Hwin2 : window st2 = window st ++ bs).
  { unfold window at 1. rewrite Hs2, He2, Hwin, <- Hsub1, <- Hsub2.
    f_equal. lia. }
  assert (Hkept : kept st (buffer_start st) st2 (buffer_start st2) count).
  { unfold kept, same_output. splits.
    - unfold pending. rewrite Hwin2, <- app_assoc. f_equal.
      rewrite <- Hfd1. symmetry. eapply read_result_bytes; eassumption.
    - rewrite Hs2, <- Hsub1.
      assert (Hpre : sub (buffer st2) 0 (count + Z.of_nat (length bs))
                     = sub (buffer st1) 0 count ++ bs) by exact Hsub2.
      rewrite sub_split in Hpre by lia.
      apply (f_equal (firstn (Z.to_nat count))) in Hpre.
      assert (Hn : Z.of_nat (length (sub (buffer st2) 0 count)) = count)
        by (apply sub_length; lia).
      assert (Hn1 : Z.of_nat (length (sub (buffer st1) 0 count)) = count)
        by (apply sub_length; lia).
      rewrite !firstn_app in Hpre.
      replace (Z.to_nat count - length (sub (buffer st2) 0 count))%nat
        with O in Hpre by lia.
      replace (Z.to_nat count - length (sub (buffer st1) 0 count))%nat
        with O in Hpre by lia.
      rewrite !firstn_O, !app_nil_r in Hpre.
      rewrite !firstn_all2 in Hpre by lia. exact Hpre.
    - now exists bs.
    - lia.
    - congruence.
    - destruct Hout1, Hout2. congruence.
    - destruct Hout1, Hout2. congruence.
    - rewrite <- Hfd1. intros Hff.
      eapply read_result_fault_free; eassumption. }
  rewrite Hfd1 in Hread.
  destruct Hread as [r bs src' Hpos Hr Hle Hbytes Hff | Hnone | src' Hn Hsrc].
  - replace (r =? 0) with false by (symmetry; apply Z.eqb_neq; lia).
    replace (r =? -1) with false by (symmetry; apply Z.eqb_neq; lia).
    splits; solve [lia | assumption].
  - cbn [Z.eqb]. simpl length in *.
    destruct (Z.eqb_spec count 0) as [Hz|Hnz].
    + splits; try solve [lia | assumption]. left. auto.
    + splits; try solve [lia | assumption].
  - cbn [Z.eqb Pos.eqb]. simpl length in *.
    splits; try solve [lia | assumption]. right. eauto.
Qed.

Lemma note_read_inside lo hi st :
  buffer_start st <= lo -> hi <= buffer_end st -> note_read lo hi st = st.
Proof.
  intros Hlo Hhi. destruct st. unfold note_read, in_window. fields.
  apply Z.leb_le in Hlo, Hhi. rewrite Hlo, Hhi. cbn [andb negb].
  now rewrite orb_false_r.
Qed.

Lemma kept_weaken st start st' start' count :
  kept st start st' start' count -> kept st start st' start' 0.
Proof.
  intros (Hp & _ & Hrest). split; [exact Hp|]. split; [reflexivity|].
  exact Hrest.
Qed.

(** Invariant of the whole loop, for every source and every [max_size]:
    the window invariant is kept, nothing is consumed, and no read leaves
    the window. *)
Lemma scan_inv (fuel : nat) :
  forall max_size st start count,
  scanning cfg st start count ->
  match scan cfg fuel max_size start count st with
  | Returned code st' =>
      (code = 0 \/ code = -1) /\
      scanning cfg st' (buffer_start st') 0 /\
      kept st start st' (buffer_start st') 0
  | Left more start' count' st' =>
      scanning cfg st' start' count' /\ kept st start st' start' 0 /\
      count <= count' /\
      (more = false ->
       0 < count' <= max_size + 1 /\
       (count' = max_size + 1 ->
        is_delim (nth (Z.to_nat (start' + count' - 1)) (buffer st') x00)
        = true))
  end.
Proof.
  induction fuel as [|fuel IH]; intros max_size st start count Hscan;
    cbn [scan]; destruct (Z.ltb_spec count (max_size + 1)) as [Hlt|Hge];
    try (splits; [exact Hscan | apply kept_refl | lia | discriminate]).
  pose proof (at_buffer_end_spec st start count Hscan) as Hblock.
  destruct (at_buffer_end cfg start count st)
    as [[code st'|more start' count' st']|start' st'].
  - destruct Hblock as (Hscan' & Hkept & _ & Hcode).
    splits.
    + destruct Hcode as [(-> & _) | (-> & _)]; auto.
    + destruct Hscan' as (Hok & _ & _ & _). destruct Hok as (? & ? & ?).
      repeat split; lia.
    + eapply kept_weaken; eassumption.
  - destruct Hblock as (-> & -> & Hpos & Hscan' & Hkept & _ & _ & _).
    splits; try lia; [exact Hscan' | eapply kept_weaken; eassumption].
  - destruct Hblock as (Hscan' & Havail & Hkept).
    unfold peek.
    assert (Hin : note_read (start' + count) (start' + count) st' = st').
    { destruct Hscan' as (_ & -> & ? & _). apply note_read_inside; lia. }
    rewrite Hin.
    assert (Hnext : scanning cfg st' start' (count + 1)).
    { destruct Hscan' as (? & ? & ? & ?). repeat split; auto; try lia;
        apply H. }
    destruct (is_delim (nth (Z.to_nat (start' + count)) (buffer st') x00))
      eqn:Hdelim.
    + splits; try lia; [exact Hnext | eapply kept_weaken; eassumption |].
      intros _. split; [destruct Hscan' as (_ & _ & ? & _); lia|].
      intros _. now replace (start' + (count + 1) - 1) with (start' + count)
        by lia.
    + specialize (IH max_size st' start' (count + 1) Hnext).
      destruct (scan cfg fuel max_size start' (count + 1) st')
        as [code st''|more start'' count'' st''].
      * destruct IH as (Hcode & Hscan'' & Hkept'').
        splits; auto.
        eapply kept_trans; [eapply kept_weaken; eassumption | eassumption].
      * destruct IH as (Hscan'' & Hkept'' & Hcount & Hfound).
        splits; auto; try lia.
        eapply kept_trans; [eapply kept_weaken; eassumption | eassumption].
Qed.

Lemma last_nth (l : list byte) (d : byte) :
  last l d = nth (length l - 1) l d.
Proof.
  induction l as [|a l IH]; [reflexivity|].
  destruct l as [|b l]; [reflexivity|].
  change (last (a :: b :: l) d) with (last (b :: l) d). rewrite IH.
  cbn [length nth Nat.sub]. now rewrite Nat.sub_0_r.
Qed.

(** The scanned bytes are the head of the window; advancing the window
    start over them leaves the rest. *)
Lemma window_advance st start count :
  scanning cfg st start count ->
  window st = sub (buffer st) start count
                ++ window (set_buffer_start (buffer_start st + count) st).
Proof.
  intros ((Hwin & Hcap & Hlen) & -> & Hcount & Hin).
  unfold window. fields.
  rewrite <- sub_split by lia. f_equal. lia.
Qed.

(** ** [fetch_next_word]: what holds of every call *)

Lemma fetch_next_word_inv (max_size : Z) (st : state) :
  window_ok cfg st ->
  let '(code, word, st') := fetch_next_word cfg max_size st in
  window_ok cfg st' /\
  stale_read st' = stale_read st /\
  same_output st st' /\
  (fault_free (fd st) = true -> fault_free (fd st') = true) /\
  (word_taken max_size st code word st' \/ nothing_taken st code word st').
Proof.
  intros Hok. unfold fetch_next_word.
  assert (Hscan : scanning cfg st (buffer_start st) 0).
  { destruct Hok as (? & ? & ?). repeat split; auto; lia. }
  pose proof (scan_inv (Z.to_nat (max_size + 1)) max_size _ _ _ Hscan) as H.
  destruct (scan cfg (Z.to_nat (max_size + 1)) max_size (buffer_start st) 0 st)
    as [code st'|[|] start' count' st'].
  - destruct H as (Hcode & (Hok' & _) & Hp & _ & Hw & Hs & Hr & Ho & Hf).
    splits; auto. right. unfold nothing_taken. splits; auto.
    destruct Hcode; auto.
  - destruct H as ((Hok' & _) & (Hp & _ & Hw & Hs & Hr & Ho & Hf) & _).
    splits; auto. right. unfold nothing_taken. splits; auto.
  - destruct H as (Hscan' & (Hp & _ & Hw & Hs & Hr & Ho & Hf) & _ & Hfound).
    destruct (Hfound eq_refl) as (Hcount & Hdelim).
    pose proof (window_advance _ _ _ Hscan') as Hadv.
    destruct Hscan' as ((Hwin & Hcap & Hlen) & -> & _ & Hin).
    rewrite note_read_inside by lia.
    assert (Hlenw : Z.of_nat (length (sub (buffer st') (buffer_start st')
                                          count')) = count')
      by (apply sub_length; lia).
    splits; auto.
    + unfold window_ok. fields. lia.
    + left. unfold word_taken. splits; auto; try lia.
      * rewrite <- Hp. unfold pending at 1. rewrite Hadv, <- app_assoc.
        reflexivity.
      * intros Hmax. rewrite last_nth.
        replace (length (sub (buffer st') (buffer_start st') count') - 1)%nat
          with (Z.to_nat (count' - 1)) by lia.
        rewrite sub_nth by lia.
        replace (buffer_start st' + (count' - 1))
          with (buffer_start st' + count' - 1) by lia.
        auto.
Qed.

(** ** The loops are modelled with enough fuel *)

(** [scan] does not depend on its fuel once it is [max_size + 1 - count]:
    the fuel never runs out before the loop condition fails. *)
Lemma scan_fuel (fuel : nat) :
  forall fuel' max_size start count st,
  (Z.to_nat (max_size + 1 - count) <= fuel)%nat ->
  (Z.to_nat (max_size + 1 - count) <= fuel')%nat ->
  scan cfg fuel max_size start count st
  = scan cfg fuel' max_size start count st.
Proof.
  induction fuel as [|fuel IH]; intros [|fuel'] max_size start count st H H';
    cbn [scan]; destruct (Z.ltb_spec count (max_size + 1)); try reflexivity;
    try lia.
  destruct (at_buffer_end cfg start count st) as [e|start' st'];
    [reflexivity|].
  destruct (peek (start' + count) st') as [c st''].
  destruct (is_delim c); [reflexivity|].
  apply IH; lia.
Qed.

(** The equation of the [while] loop. *)
Lemma scan_unfold (fuel : nat) (max_size start count : Z) (st : state) :
  (Z.to_nat (max_size + 1 - count) <= fuel)%nat ->
  scan cfg fuel max_size start count st
  = if count <? max_size + 1 then
      match at_buffer_end cfg start count st with
      | Stop e => e
      | Go start st =>
          let '(c, st) := peek (start + count) st in
          if is_delim c then Left false start (count + 1) st
          else scan cfg fuel max_size start (count + 1) st
      end
    else Left true start count st.
Proof.
  intros Hfuel. destruct fuel as [|fuel].
  - cbn [scan].
    destruct (Z.ltb_spec count (max_size + 1)); [lia | reflexivity].
  - set (f := S fuel) at 2. cbn [scan].
    destruct (Z.ltb_spec count (max_size + 1)); [|reflexivity].
    destruct (at_buffer_end cfg start count st) as [e|start' st'];
      [reflexivity|].
    destruct (peek (start' + count) st') as [c st''].
    destruct (is_delim c); [reflexivity|].
    subst f. apply scan_fuel; lia.
Qed.

(** [line_loop] does not depend on its fuel once it exceeds
    [LINE_WIDTH - count]. *)
Lemma line_loop_fuel (fuel : nat) :
  forall fuel' line count st,
  (Z.to_nat (LINE_WIDTH cfg - count) < fuel)%nat ->
  (Z.to_nat (LINE_WIDTH cfg - count) < fuel')%nat ->
  line_loop cfg fuel line count st = line_loop cfg fuel' line count st.
Proof.
  induction fuel as [|fuel IH]; intros [|fuel'] line count st H H';
    try lia; cbn [line_loop].
  destruct (fetch_next_word cfg (LINE_WIDTH cfg - count) st)
    as [[chars word] st'].
  destruct (Z.gtb_spec chars 0) as [Hpos|_]; [|reflexivity].
  destruct (Byte.eqb _ LF); [reflexivity|]. cbn [orb].
  destruct (Z.geb_spec (count + chars) (LINE_WIDTH cfg)); [reflexivity|].
  apply IH; lia.
Qed.

(** ** The scanner refines its description *)

Lemma sub_one (buf : list byte) (off : Z) (d : byte) :
  0 <= off < Z.of_nat (length buf) ->
  sub buf off 1 = [nth (Z.to_nat off) buf d].
Proof.
  intros Hoff. unfold sub. change (Z.to_nat 1) with 1%nat.
  rewrite <- (firstn_skipn (Z.to_nat off) buf) at 2.
  rewrite app_nth2 by (rewrite length_firstn; lia).
  rewrite length_firstn.
  replace (Z.to_nat off - Nat.min (Z.to_nat off) (length buf))%nat with O
    by lia.
  destruct (skipn (Z.to_nat off) buf) eqn:Hs; [|reflexivity].
  apply (f_equal (@length byte)) in Hs. rewrite length_skipn in Hs.
  simpl in Hs. lia.
Qed.

Lemma skipn_pending st start count :
  scanning cfg st start count ->
  skipn (Z.to_nat count) (pending st)
  = pending (set_buffer_start (buffer_start st + count) st).
Proof.
  intros Hscan. unfold pending at 1.
  rewrite (window_advance _ _ _ Hscan), <- app_assoc.
  destruct Hscan as ((Hwin & Hcap & Hlen) & -> & Hcount & Hin).
  rewrite skipn_app.
  assert (Hn : Z.of_nat (length (sub (buffer st) (buffer_start st) count))
               = count) by (apply sub_length; lia).
  replace (Z.to_nat count - length (sub (buffer st) (buffer_start st) count))%nat
    with O by lia.
  rewrite skipn_all2 by lia. reflexivity.
Qed.

(** With a byte available at [start + count], it is the next pending
    byte. *)
Lemma pending_next st start count :
  scanning cfg st start count -> start + count <= buffer_end st ->
  skipn (Z.to_nat count) (pending st)
  = nth (Z.to_nat (start + count)) (buffer st) x00
      :: skipn (Z.to_nat (count + 1)) (pending st).
Proof.
  intros Hscan Havail.
  assert (Hnext : scanning cfg st start (count + 1)).
  { destruct Hscan as (? & ? & ? & ?). repeat split; auto; try lia; apply H. }
  rewrite (skipn_pending _ _ _ Hscan), (skipn_pending _ _ _ Hnext).
  destruct Hscan as ((Hwin & Hcap & Hlen) & -> & Hcount & Hin).
  set (st1 := set_buffer_start (buffer_start st + count) st).
  assert (Hscan1 : scanning cfg st1 (buffer_start st + count) 1).
  { subst st1. unfold scanning, window_ok. fields. repeat split; lia. }
  unfold pending at 1. rewrite (window_advance _ _ _ Hscan1).
  subst st1. fields.
  rewrite (sub_one _ _ x00) by lia. cbn [app]. f_equal.
  unfold pending. fields.
  replace (buffer_start st + count + 1) with (buffer_start st + (count + 1))
    by lia.
  reflexivity.
Qed.

Lemma sub_snoc st start count :
  scanning cfg st start count -> start + count <= buffer_end st ->
  sub (buffer st) start (count + 1)
  = sub (buffer st) start count
      ++ [nth (Z.to_nat (start + count)) (buffer st) x00].
Proof.
  intros ((Hwin & Hcap & Hlen) & -> & Hcount & Hin) Havail.
  rewrite sub_split by lia. f_equal. apply sub_one. lia.
Qed.

(** With a fault-free source and [max_size] below the capacity (so that
    every refill asks for at least one byte), the loop computes the
    outcome that the description gives for the pending bytes. *)
Lemma scan_refines (fuel : nat) :
  forall max_size st start count,
  scanning cfg st start count ->
  fault_free (fd st) = true ->
  max_size < BUFFER_SIZE cfg ->
  (Z.to_nat (max_size + 1 - count) <= fuel)%nat ->
  scan_matches
    (Spec.next_word_from (Z.to_nat (max_size + 1 - count))
       (sub (buffer st) start count) (skipn (Z.to_nat count) (pending st)))
    (scan cfg fuel max_size start count st).
Proof.
  induction fuel as [|fuel IH]; intros max_size st start count Hscan Hff Hcap
    Hfuel; cbn [scan];
    destruct (Z.ltb_spec count (max_size + 1)) as [Hlt|Hge];
    try (replace (Z.to_nat (max_size + 1 - count)) with O by lia;
         apply matches_overlong).
  replace (Z.to_nat (max_size + 1 - count))
    with (S (Z.to_nat (max_size + 1 - (count + 1)))) by lia.
  cbn [Spec.next_word_from].
  pose proof (at_buffer_end_spec st start count Hscan) as Hblock.
  assert (Hseen : Z.of_nat (length (sub (buffer st) start count)) = count).
  { destruct Hscan as ((? & ? & ?) & -> & ? & ?). apply sub_length; lia. }
  destruct (at_buffer_end cfg start count st)
    as [[code st'|more start' count' st']|start' st'].
  - (* a [return] inside the block *)
    destruct Hblock as (_ & _ & Hfull & [(-> & -> & Hnone)|(_ & src' & Hsrc)]).
    2:{ rewrite Hsrc in Hff. discriminate. }
    destruct Hnone as [Hnone|Hsrc]; [lia|].
    unfold pending. rewrite (window_full _ _ _ Hscan Hfull), Hsrc.
    cbn. apply matches_end.
  - (* the final word, at end of file *)
    destruct Hblock as (-> & -> & Hpos & _ & Hkept & Hfull & _ & Hnone).
    destruct Hnone as [Hnone|Hsrc]; [lia|].
    unfold pending. rewrite (window_full _ _ _ Hscan Hfull), Hsrc.
    cbn [source_bytes]. rewrite app_nil_r, skipn_all2 by lia.
    destruct (sub (buffer st) start count) eqn:Hsub;
      [simpl in Hseen; lia|].
    apply matches_found. rewrite <- Hsub. apply Hkept.
  - (* a byte is available *)
    destruct Hblock as (Hscan' & Havail & Hkept).
    destruct Hkept as (Hpend & Hsub & _ & _ & _ & _ & Hff').
    rewrite <- Hpend, <- Hsub.
    rewrite (pending_next _ _ _ Hscan' Havail).
    unfold peek.
    assert (Hin : note_read (start' + count) (start' + count) st' = st').
    { destruct Hscan' as (_ & -> & ? & _). apply note_read_inside; lia. }
    rewrite Hin.
    destruct (is_delim (nth (Z.to_nat (start' + count)) (buffer st') x00)).
    + apply matches_found. apply sub_snoc; assumption.
    + rewrite <- (sub_snoc _ _ _ Hscan' Havail).
      apply IH; auto; try lia.
      destruct Hscan' as (? & ? & ? & ?). repeat split; auto; try lia; apply H.
Qed.

Lemma next_word_from_split (budget : nat) :
  forall seen p word rest,
  Spec.next_word_from budget seen p = Spec.Found word rest ->
  seen ++ p = word ++ rest.
Proof.
  induction budget as [|budget IH]; intros seen p word rest; cbn;
    [discriminate|].
  destruct p as [|c p].
  - destruct seen; [discriminate|]. now intros [= <- <-].
  - destruct (is_delim c).
    + intros [= <- <-]. now rewrite <- app_assoc.
    + intros H. apply IH in H. now rewrite <- app_assoc in H.
Qed.

(** [fetch_next_word] computes [Spec.next_word] of the pending bytes and
    leaves exactly the rest pending. *)
Lemma fetch_next_word_refines (max_size : Z) (st : state) :
  window_ok cfg st ->
  fault_free (fd st) = true ->
  max_size < BUFFER_SIZE cfg ->
  let o := Spec.next_word max_size (pending st) in
  let '(code, word, st') := fetch_next_word cfg max_size st in
  code = Spec.code o /\ word = Spec.word o /\
  pending st' = Spec.rest (pending st) o /\
  window_ok cfg st' /\ fault_free (fd st') = true /\
  stale_read st' = stale_read st /\ same_output st st'.
Proof.
  intros Hok Hff Hcap o.
  pose proof (fetch_next_word_inv max_size st Hok) as Hinv.
  assert (Hscan : scanning cfg st (buffer_start st) 0).
  { destruct Hok as (? & ? & ?). repeat split; auto; lia. }
  pose proof (scan_refines (Z.to_nat (max_size + 1)) max_size st
                (buffer_start st) 0 Hscan Hff Hcap) as Href.
  rewrite Z.sub_0_r in Href. specialize (Href (Nat.le_refl _)).
  change (skipn (Z.to_nat 0) (pending st)) with (pending st) in Href.
  rewrite sub_nil in Href. fold (Spec.next_word max_size (pending st)) in Href.
  fold o in Href.
  pose proof (scan_inv (Z.to_nat (max_size + 1)) max_size _ _ _ Hscan) as Hpos.
  unfold fetch_next_word in *.
  destruct (scan cfg (Z.to_nat (max_size + 1)) max_size (buffer_start st) 0 st)
    as [code st'|more start' count' st'].
  - clear Hpos. inversion Href as [| st0 Ho |]; subst.
    destruct Hinv as (Hok' & Hstale & Hout & Hff' & [Htaken|Hnone]).
    + destruct Htaken as (Hpos & _). lia.
    + destruct Hnone as (_ & _ & Hpend & _). cbn. splits; auto.
  - inversion Href as [s c st0 Ho | | w r s c st0 Hsub Ho]; subst.
    + destruct Hinv as (Hok' & Hstale & Hout & Hff' & [Htaken|Hnone]).
      * destruct Htaken as (Hcode & _). lia.
      * destruct Hnone as (_ & _ & Hpend & _). cbn. splits; auto.
    + destruct Hinv as (Hok' & Hstale & Hout & Hff' & [Htaken|Hnone]).
      2:{ destruct Hpos as (_ & _ & _ & Hpos).
          destruct Hnone as (Hcode & _). specialize (Hpos eq_refl). lia. }
      destruct Htaken as (_ & Hlen & Hpend & _).
      fields. cbn [Spec.code Spec.word Spec.rest].
      splits; auto.
      symmetry in Ho. apply next_word_from_split in Ho. cbn [app] in Ho.
      rewrite Ho in Hpend. now apply app_inv_head in Hpend.
Qed.

(** ** [fetch_next_line]: what holds of every call *)

Lemma last_app_nonempty (l w : list byte) (d : byte) :
  w <> [] -> last (l ++ w) d = last w d.
Proof.
  intros Hw. destruct (exists_last Hw) as (w' & c & ->).
  now rewrite app_assoc, !last_last.
Qed.

(** For every source and every window: unless [read] failed, the line
    is the [n] bytes taken from the head of the pending bytes, [n] is at
    most [LINE_WIDTH + 1], and a line of [LINE_WIDTH + 1] bytes ends with
    a delimiter. *)
Lemma line_loop_inv (fuel : nat) :
  forall line count st,
  window_ok cfg st ->
  count = Z.of_nat (length line) ->
  let '(n, line', st') := line_loop cfg fuel line count st in
  window_ok cfg st' /\
  stale_read st' = stale_read st /\
  same_output st st' /\
  (fault_free (fd st) = true -> fault_free (fd st') = true) /\
  (n = -1 \/
   (n = Z.of_nat (length line') /\ count <= n /\
    line ++ pending st = line' ++ pending st' /\
    (count <= LINE_WIDTH cfg ->
     n <= LINE_WIDTH cfg + 1 /\
     (n = LINE_WIDTH cfg + 1 -> is_delim (last line' x00) = true)))).
Proof.
  induction fuel as [|fuel IH]; intros line count st Hok Hcount;
    cbn [line_loop].
  { unfold same_output. splits; auto. right. splits; auto; lia. }
  pose proof (fetch_next_word_inv (LINE_WIDTH cfg - count) st Hok) as Hword.
  destruct (fetch_next_word cfg (LINE_WIDTH cfg - count) st)
    as [[code word] st1].
  destruct Hword as (Hok1 & Hstale1 & Hout1 & Hff1 & Hword).
  destruct Hword as [(Hcode & Hlen & Hpend & Hdelim)
                    |(Hcode & -> & Hpend & _)].
  - replace (code >? 0) with true by (symmetry; apply Z.gtb_lt; lia).
    assert (Hw : word <> []) by (intros ->; simpl in Hlen; lia).
    assert (Hlen' : count + code = Z.of_nat (length (line ++ word)))
      by (rewrite length_app; lia).
    assert (Hpend' : line ++ pending st = (line ++ word) ++ pending st1)
      by (rewrite <- app_assoc; congruence).
    destruct (Byte.eqb _ LF || (count + code >=? LINE_WIDTH cfg)) eqn:Hstop.
    + ghost. splits; auto. right. splits; auto; try lia.
      intros _. split; [lia|].
      intros Hfull. rewrite last_app_nonempty by assumption.
      apply Hdelim. lia.
    + apply orb_false_iff in Hstop. destruct Hstop as (_ & Hroom).
      assert (Hlt : count + code < LINE_WIDTH cfg).
      { destruct (Z.geb_spec (count + code) (LINE_WIDTH cfg)); [discriminate|].
        assumption. }
      rewrite !note_array_inside by lia.
      specialize (IH (line ++ word) (count + code) st1 Hok1 Hlen').
      destruct (line_loop cfg fuel (line ++ word) (count + code) st1)
        as [[n line'] st'].
      destruct IH as (Hok' & Hstale' & [Hout' Hcps'] & Hff' & Hres).
      destruct Hout1.
      unfold same_output. splits; auto; try congruence.
      destruct Hres as [->|(Hn & Hbound & Hpend'' & Hfull)]; [now left|].
      right. splits; auto; try lia; [congruence|].
      intros _. apply Hfull. lia.
  - destruct Hcode as [->|[->| ->]]; cbn [Z.gtb Z.compare Z.eqb Pos.eqb orb];
      splits; auto; right; splits; auto; try lia; congruence.
Qed.

Lemma fetch_next_line_inv (st : state) :
  window_ok cfg st ->
  let '(n, line, st') := fetch_next_line cfg st in
  window_ok cfg st' /\
  stale_read st' = stale_read st /\
  same_output st st' /\
  (fault_free (fd st) = true -> fault_free (fd st') = true) /\
  (n = -1 \/
   (n = Z.of_nat (length line) /\ 0 <= n /\
    pending st = line ++ pending st' /\
    (0 <= LINE_WIDTH cfg ->
     n <= LINE_WIDTH cfg + 1 /\
     (n = LINE_WIDTH cfg + 1 -> is_delim (last line x00) = true)))).
Proof.
  intros Hok. unfold fetch_next_line.
  exact (line_loop_inv (S (Z.to_nat (LINE_WIDTH cfg))) [] 0 st Hok eq_refl).
Qed.

(** ** The stack arrays: when they are overrun *)

Lemma refill_buffer_overrun (start : Z) (st : state) :
  overrun (snd (refill_buffer cfg start st)) = overrun st.
Proof.
  unfold refill_buffer.
  destruct (read (fd st) (BUFFER_SIZE cfg - start)) as [[r bs] src'].
  now destruct (r >? 0).
Qed.

Lemma at_buffer_end_overrun (start count : Z) (st : state) :
  match at_buffer_end cfg start count st with
  | Stop (Returned _ st') => overrun st' = overrun st
  | Stop (Left _ _ _ st') => overrun st' = overrun st
  | Go _ st' => overrun st' = overrun st
  end.
Proof.
  unfold at_buffer_end.
  destruct (start + count >? buffer_end st); [|reflexivity].
  pose proof (refill_buffer_overrun count
                (if count =? 0 then st else compact count st)) as H.
  destruct (refill_buffer cfg count (if count =? 0 then st
                                     else compact count st)) as [r st'].
  cbn [snd] in H.
  assert (Hst : overrun st' = overrun st)
    by (rewrite H; now destruct (count =? 0)).
  destruct (r =? 0); [now destruct (count =? 0)|].
  now destruct (r =? -1).
Qed.

Lemma scan_overrun (fuel : nat) :
  forall max_size start count st,
  match scan cfg fuel max_size start count st with
  | Returned _ st' => overrun st' = overrun st
  | Left _ _ _ st' => overrun st' = overrun st
  end.
Proof.
  induction fuel as [|fuel IH]; intros max_size start count st; cbn [scan];
    destruct (count <? max_size + 1); try reflexivity.
  pose proof (at_buffer_end_overrun start count st) as Hend.
  destruct (at_buffer_end cfg start count st) as [[code st'|m s c st']
                                                  |start' st'];
    try exact Hend.
  unfold peek.
  destruct (is_delim (nth (Z.to_nat (start' + count)) (buffer st') x00));
    [exact Hend|].
  specialize (IH max_size start' (count + 1)
                 (note_read (start' + count) (start' + count) st')).
  destruct (scan cfg fuel max_size start' (count + 1)
              (note_read (start' + count) (start' + count) st'));
    now rewrite IH.
Qed.

(** [fetch_next_word] does not touch the stack arrays of its callers:
    what it copies into [word] is noted by [fetch_next_line], which owns
    the array. *)
Lemma fetch_next_word_overrun (max_size : Z) (st : state) :
  overrun (snd (fetch_next_word cfg max_size st)) = overrun st.
Proof.
  unfold fetch_next_word.
  pose proof (scan_overrun (Z.to_nat (max_size + 1)) max_size
                (buffer_start st) 0 st) as H.
  now destruct (scan cfg (Z.to_nat (max_size + 1)) max_size (buffer_start st)
                  0 st) as [code st'|[|] start count st'].
Qed.

(** The arrays are overrun by a line exactly when it has more than
    [LINE_WIDTH] bytes. *)
Lemma line_loop_overrun (fuel : nat) :
  forall line count st,
  window_ok cfg st ->
  0 <= count <= LINE_WIDTH cfg ->
  let '(n, _, st') := line_loop cfg fuel line count st in
  overrun st' = overrun st || (n >? LINE_WIDTH cfg).
Proof.
  assert (Hin : forall o n, n <= LINE_WIDTH cfg ->
                            o || (n >? LINE_WIDTH cfg) = o).
  { intros o n Hn. destruct (Z.gtb_spec n (LINE_WIDTH cfg)); [lia|].
    apply orb_false_r. }
  induction fuel as [|fuel IH]; intros line count st Hok Hcount;
    cbn [line_loop]; [now rewrite Hin by lia|].
  pose proof (fetch_next_word_inv (LINE_WIDTH cfg - count) st Hok) as Hword.
  pose proof (fetch_next_word_overrun (LINE_WIDTH cfg - count) st) as Hsame.
  destruct (fetch_next_word cfg (LINE_WIDTH cfg - count) st)
    as [[code word] st1].
  cbn [snd] in Hsame.
  destruct Hword as (Hok1 & _ & _ & _ & Hword).
  destruct (Z.gtb_spec code 0) as [Hpos|Hnon].
  - destruct Hword as [((_ & Hmax) & _)|(Hcode & _)]; [|lia].
    rewrite !note_array_is. fields.
    assert (Hword : code <= LINE_WIDTH cfg \/
                    count + code > LINE_WIDTH cfg) by lia.
    assert (Hflag : overrun st1 || (code >? LINE_WIDTH cfg)
                    || (count + code >? LINE_WIDTH cfg)
                    = overrun st || (count + code >? LINE_WIDTH cfg)).
    { rewrite Hsame.
      destruct (Z.gtb_spec code (LINE_WIDTH cfg)),
               (Z.gtb_spec (count + code) (LINE_WIDTH cfg));
        rewrite ?orb_true_r, ?orb_false_r; try reflexivity; lia. }
    rewrite Hflag.
    destruct (Byte.eqb _ LF); cbn [orb]; [reflexivity|].
    destruct (Z.geb_spec (count + code) (LINE_WIDTH cfg)) as [_|Hroom];
      [reflexivity|].
    match goal with
    | |- context [line_loop cfg fuel _ _ ?s] => set (st2 := s)
    end.
    assert (Hflag2 : overrun st2 = overrun st)
      by (subst st2; fields; now apply Hin; lia).
    assert (Hok2 : window_ok cfg st2) by exact Hok1.
    clearbody st2.
    specialize (IH (line ++ word) (count + code) st2 Hok2 ltac:(lia)).
    destruct (line_loop cfg fuel (line ++ word) (count + code) st2)
      as [[n line'] st'].
    now rewrite IH, Hflag2.
  - destruct ((code =? 0) || (code =? -2)); rewrite Hin by lia;
      exact Hsame.
Qed.

(** C3, the defect.  [fetch_next_line] returns at most [LINE_WIDTH + 1];
    a value that is not negative is the number of bytes it has stored in
    [line]; a line of [LINE_WIDTH + 1] bytes ends with a delimiter.  The
    array that [display_page] gives it has [LINE_WIDTH] cells, as has its
    own array [word]: a line of [LINE_WIDTH + 1] bytes, of one word or of
    several, is stored beyond the end of [line], and every other line is
    stored inside the arrays. *)
Theorem line_width_bound (st : state) :
  window_ok cfg st -> 0 <= LINE_WIDTH cfg ->
  let '(n, line, st') := fetch_next_line cfg st in
  n <= LINE_WIDTH cfg + 1 /\
  (0 <= n -> Z.of_nat (length line) = n) /\
  (n = LINE_WIDTH cfg + 1 -> is_delim (last line x00) = true) /\
  overrun st' = overrun st || (n >? LINE_WIDTH cfg).
Proof.
  intros Hok Hlw. pose proof (fetch_next_line_inv st Hok) as H.
  pose proof (line_loop_overrun (S (Z.to_nat (LINE_WIDTH cfg))) [] 0 st Hok
                ltac:(lia)) as Hflag.
  fold (fetch_next_line cfg st) in Hflag.
  destruct (fetch_next_line cfg st) as [[n line] st'].
  destruct H as (_ & _ & _ & _ & [->|(Hn & Hpos & _ & Hfull)]).
  - splits; auto; intros; lia.
  - destruct (Hfull Hlw) as (Hbound & Hdelim). splits; auto.
Qed.

(** The state in which [main] enters the command loop satisfies the
    window invariant, has recorded no read outside the window, and has
    all the bytes of the source pending. *)
Lemma entered_ok (src : source) :
  0 <= BUFFER_SIZE cfg ->
  let st := snd (refill_buffer cfg 0 (startup cfg src)) in
  window_ok cfg st /\
  stale_read st = false /\
  pending st = source_bytes src /\
  (fault_free src = true -> fault_free (fd st) = true) /\
  stdout st = [] /\ current_page_size st = 0.
Proof.
  intros Hcap.
  destruct (refill_buffer_spec 0 (startup cfg src))
    as (r & bs & st' & Heq & Hread & Hs & He & Hlen & Hsub & _ & Hstale
        & Hout & Hcps).
  { lia. }
  { cbn. rewrite repeat_length. lia. }
  rewrite Heq. cbn [snd].
  assert (Hbs : Z.of_nat (length bs) <= BUFFER_SIZE cfg - 0)
    by (destruct Hread; simpl; lia).
  cbn [startup fd buffer stale_read stdout current_page_size] in *.
  rewrite repeat_length in Hlen.
  splits; auto.
  - unfold window_ok. repeat split; lia.
  - unfold pending, window. rewrite Hs, He.
    replace (0 - 1 + Z.of_nat (length bs) + 1 - 0)
      with (0 + Z.of_nat (length bs)) by lia.
    rewrite Hsub. cbn [sub Z.to_nat firstn app].
    symmetry. eapply read_result_bytes; eassumption.
  - intros Hff. eapply read_result_fault_free; eassumption.
Qed.

Lemma loaded_ok (content : list byte) :
  0 <= BUFFER_SIZE cfg ->
  window_ok cfg (loaded cfg content) /\
  stale_read (loaded cfg content) = false /\
  pending (loaded cfg content) = content /\
  fault_free (fd (loaded cfg content)) = true /\
  stdout (loaded cfg content) = [].
Proof.
  intros Hcap.
  destruct (entered_ok (file content) Hcap) as (Hok & Hst & Hp & Hff & Ho & _).
  rewrite source_bytes_file in Hp. unfold loaded.
  splits; auto. apply Hff, fault_free_file.
Qed.

(** ** A word longer than the line *)

Lemma next_word_from_overlong (budget : nat) :
  forall seen p,
  (budget <= length p)%nat ->
  forallb (fun c => negb (is_delim c)) (firstn budget p) = true ->
  Spec.next_word_from budget seen p = Spec.Overlong.
Proof.
  induction budget as [|budget IH]; intros seen p Hlen Hfree;
    [reflexivity|].
  destruct p as [|c p]; [simpl in Hlen; lia|].
  cbn in Hfree. apply andb_true_iff in Hfree. destruct Hfree as (Hc & Hfree).
  cbn [Spec.next_word_from].
  destruct (is_delim c); [discriminate|].
  apply IH; [simpl in Hlen; lia | assumption].
Qed.

(** At the start of a line, a word of more than [LINE_WIDTH] bytes makes
    [fetch_next_line] return 0 without consuming anything. *)
Lemma fetch_next_line_stalls (st : state) :
  window_ok cfg st -> fault_free (fd st) = true ->
  0 <= LINE_WIDTH cfg < BUFFER_SIZE cfg ->
  starts_overlong (LINE_WIDTH cfg) (pending st) = true ->
  exists st',
    fetch_next_line cfg st = (0, [], st') /\
    pending st' = pending st /\
    window_ok cfg st' /\ fault_free (fd st') = true /\
    stale_read st' = stale_read st /\ same_output st st'.
Proof.
  intros Hok Hff Hlw Hlong.
  apply andb_true_iff in Hlong. destruct Hlong as (Hlen & Hfree).
  apply Nat.leb_le in Hlen.
  unfold fetch_next_line. cbn [line_loop].
  pose proof (fetch_next_word_refines (LINE_WIDTH cfg - 0) st Hok Hff
                ltac:(lia)) as Href.
  cbn zeta in Href. unfold Spec.next_word in Href.
  rewrite Z.sub_0_r in *.
  rewrite next_word_from_overlong in Href by assumption.
  destruct (fetch_next_word cfg (LINE_WIDTH cfg) st) as [[code word] st'].
  destruct Href as (-> & -> & Hpend & Hok' & Hff' & Hstale & Hout).
  exists st'. cbn. splits; auto.
Qed.

Lemma display_page_stalls (st : state) :
  window_ok cfg st -> fault_free (fd st) = true ->
  0 <= LINE_WIDTH cfg < BUFFER_SIZE cfg -> 0 < PAGE_SIZE cfg ->
  starts_overlong (LINE_WIDTH cfg) (pending st) = true ->
  exists st',
    display_page cfg st = (0, st') /\
    stdout st' = stdout st ++ [Printf EOF_text] /\
    pending st' = pending st /\
    window_ok cfg st' /\ fault_free (fd st') = true /\
    stale_read st' = stale_read st.
Proof.
  intros Hok Hff Hlw Hps Hlong. unfold display_page.
  destruct (Z.to_nat (PAGE_SIZE cfg)) as [|n] eqn:Hn; [lia|].
  cbn [page_loop].
  destruct (fetch_next_line_stalls (set_current_page_size 0 st))
    as (st' & -> & Hpend & Hok' & Hff' & Hstale & Hout & _); auto.
  cbn [Z.gtb Z.compare Z.eqb]. eexists. split; [reflexivity|].
  unfold pending, window, window_ok in *. fields.
  destruct Hok' as ((? & ?) & ? & ?).
  splits; auto. now rewrite Hout.
Qed.

Lemma rendered_content_printf (st : state) (text : list byte) :
  rendered_content (emit (Printf text) st) = rendered_content st.
Proof.
  unfold rendered_content. fields.
  rewrite map_app, concat_app. cbn. now rewrite app_nil_r.
Qed.

(** Once the pending bytes begin with such a word, no key gets the
    viewer past it: every page is the end-of-input text alone. *)
Lemma command_loop_stalls (keys : list byte) :
  forall command st,
  window_ok cfg st -> fault_free (fd st) = true ->
  0 <= LINE_WIDTH cfg < BUFFER_SIZE cfg -> 0 < PAGE_SIZE cfg ->
  starts_overlong (LINE_WIDTH cfg) (pending st) = true ->
  let st' := snd (command_loop cfg keys command st) in
  rendered_content st' = rendered_content st /\ pending st' = pending st.
Proof.
  induction keys as [|k keys IH]; intros command st Hok Hff Hlw Hps Hlong;
    cbn [command_loop].
  - destruct (Byte.eqb command key_f); [|now split].
    destruct (display_page_stalls st) as (st' & -> & Hout & Hpend & _); auto.
    cbn [snd]. split; [|assumption].
    unfold rendered_content. rewrite Hout, map_app, concat_app. cbn.
    now rewrite app_nil_r.
  - destruct (Byte.eqb command key_f).
    + destruct (display_page_stalls st)
        as (st' & -> & Hout & Hpend & Hok' & Hff' & _); auto.
      cbn [snd].
      assert (Hsame : rendered_content st' = rendered_content st).
      { unfold rendered_content. rewrite Hout, map_app, concat_app. cbn.
        now rewrite app_nil_r. }
      destruct (Byte.eqb k key_q); [now split|].
      rewrite <- Hsame, <- Hpend. apply IH; auto. now rewrite Hpend.
    + destruct (Byte.eqb k key_q); [now split|]. now apply IH.
Qed.

(** C1, the behaviour of the program.  When the file begins with more
    than [LINE_WIDTH] bytes free of delimiters, then whatever keys are
    pressed no byte of the file is ever written: the word is never shown
    and stays pending. *)
Theorem overlong_word_never_shown (content keys : list byte) :
  0 <= LINE_WIDTH cfg < BUFFER_SIZE cfg -> 0 < PAGE_SIZE cfg ->
  starts_overlong (LINE_WIDTH cfg) content = true ->
  let st := snd (main cfg (file content) keys) in
  rendered_content st = [] /\ pending st = content.
Proof.
  intros Hlw Hps Hlong.
  destruct (loaded_ok content) as (Hok & _ & Hpend & Hff & Hout); [lia|].
  pose proof (command_loop_stalls keys key_f (loaded cfg content) Hok Hff
                Hlw Hps) as H.
  rewrite Hpend in H. specialize (H Hlong). cbn zeta in H.
  unfold rendered_content in H at 2. rewrite Hout in H.
  exact H.
Qed.

(** ** A delimiter at the window start *)



(** ** The contract of [refill_buffer] *)

Lemma app_inv_length (l1 l2 r1 r2 : list byte) :
  l1 ++ r1 = l2 ++ r2 -> length l1 = length l2 -> l1 = l2 /\ r1 = r2.
Proof.
  revert l2. induction l1 as [|a l1 IH]; intros [|b l2] Heq Hlen;
    try discriminate; [now split|].
  injection Heq as -> Heq. injection Hlen as Hlen.
  destruct (IH _ Heq Hlen) as (-> & ->). now split.
Qed.

(** C5, amended.  With [0 <= start <= BUFFER_SIZE] preserved bytes,
    [refill_buffer] resets the window start to 0, leaves the preserved
    bytes in place, stores the bytes read (at most [BUFFER_SIZE - start])
    from offset [start] on, and returns what [read] returned; the window
    end becomes [start - 1 + bytes_read] when the result is not negative
    and [start - 1] when it is -1 (failure).  With room left in the
    store, 0 is returned only when the source is exhausted; with
    [start = BUFFER_SIZE] no byte is asked for, 0 is returned and the
    source is left as it is, exhausted or not. *)
Theorem refill_contract (start : Z) (st : state) :
  0 <= start <= BUFFER_SIZE cfg ->
  Z.of_nat (length (buffer st)) = BUFFER_SIZE cfg ->
  let '(bytes_read, st') := refill_buffer cfg start st in
  buffer_start st' = 0 /\
  buffer_end st' = start - 1 + Z.max 0 bytes_read /\
  -1 <= bytes_read <= BUFFER_SIZE cfg - start /\
  length (buffer st') = length (buffer st) /\
  sub (buffer st') 0 start = sub (buffer st) 0 start /\
  source_bytes (fd st)
  = sub (buffer st') start (Z.max 0 bytes_read) ++ source_bytes (fd st') /\
  (bytes_read = 0 -> start < BUFFER_SIZE cfg -> fd st = []) /\
  (fd st = [] -> bytes_read = 0) /\
  (start = BUFFER_SIZE cfg -> bytes_read = 0 /\ fd st' = fd st) /\
  (bytes_read = -1 -> exists rest, fd st = Fault :: rest /\ fd st' = rest) /\
  buffer_has_data st' = (if bytes_read >? 0 then 1 else 0).
Proof.
  intros Hstart Hlen.
  destruct (refill_buffer_spec start st Hstart Hlen)
    as (r & bs & st' & -> & Hread & Hs & He & Hlen' & Hsub & Hdata & _).
  assert (Hbs : Z.of_nat (length bs) = Z.max 0 r /\
                -1 <= r <= BUFFER_SIZE cfg - start).
  { destruct Hread; simpl; lia. }
  destruct Hbs as (Hbs & Hr).
  rewrite sub_split in Hsub by lia.
  apply app_inv_length in Hsub.
  2:{ apply Nat2Z.inj. rewrite !sub_length; lia. }
  destruct Hsub as (Hkeep & Hnew). cbn [Z.add] in Hnew.
  splits; auto; try lia.
  - rewrite <- Hbs, Hnew. eapply read_result_bytes; eassumption.
  - intros -> Hroom. inversion Hread as [? ? ? ? | [?|?] | ]; subst; auto; lia.
  - intros Hnil. rewrite Hnil in Hread.
    inversion Hread as [? ? ? Hpos Hsize _ Hbytes | | rest]; subst;
      [|reflexivity|discriminate].
    destruct bs; [simpl in Hpos; lia | discriminate Hbytes].
  - intros Hfull. inversion Hread as [? ? ? ? | | rest]; subst; try lia.
    now split.
  - intros ->. inversion Hread as [? ? ? ? | | rest]; subst; try lia. eauto.
Qed.

(** ** The Overlong outcome *)

Lemma next_word_from_delimited (w : list byte) :
  forall budget seen d rest,
  no_delim w = true -> is_delim d = true -> (length w < budget)%nat ->
  Spec.next_word_from budget seen (w ++ d :: rest)
  = Spec.Found (seen ++ w ++ [d]) rest.
Proof.
  induction w as [|c w IH]; intros [|budget] seen d rest Hw Hd Hlen;
    try (simpl in Hlen; lia); cbn [app Spec.next_word_from].
  - now rewrite Hd.
  - cbn in Hw. apply andb_true_iff in Hw. destruct Hw as (Hc & Hw).
    destruct (is_delim c); [discriminate|].
    rewrite IH by (auto; simpl in Hlen; lia).
    now rewrite <- app_assoc.
Qed.

Lemma next_word_from_final (w : list byte) :
  forall budget seen,
  no_delim w = true -> (length w < budget)%nat -> seen ++ w <> [] ->
  Spec.next_word_from budget seen w = Spec.Found (seen ++ w) [].
Proof.
  induction w as [|c w IH]; intros [|budget] seen Hw Hlen Hne;
    try (simpl in Hlen; lia); cbn [Spec.next_word_from].
  - rewrite app_nil_r in *. now destruct seen.
  - cbn in Hw. apply andb_true_iff in Hw. destruct Hw as (Hc & Hw).
    destruct (is_delim c); [discriminate|].
    rewrite IH; auto.
    + now rewrite <- app_assoc.
    + simpl in Hlen; lia.
    + now destruct seen.
Qed.

(** C2, amended.  When [fetch_next_word] returns -2, the window start is
    not advanced (it is kept, or reset to 0 by a compaction), the old
    window is a prefix of the new one (a refill may have added bytes at
    its end), and the pending bytes, window then source, are unchanged.
    A later call whose budget holds the word (and is below the capacity)
    returns it whole: up to and including its delimiter, or up to the
    end of the stream. *)
Theorem overlong_consumes_nothing (max_size : Z) (st : state) :
  window_ok cfg st ->
  let '(code, _, st') := fetch_next_word cfg max_size st in
  code = -2 ->
  buffer_start st' <= buffer_start st /\
  (exists fresh, window st' = window st ++ fresh) /\
  pending st' = pending st /\
  window_ok cfg st' /\
  forall budget w,
    fault_free (fd st) = true ->
    no_delim w = true ->
    Z.of_nat (length w) <= budget < BUFFER_SIZE cfg ->
    (forall d rest,
       is_delim d = true -> pending st = w ++ d :: rest ->
       exists st'',
         fetch_next_word cfg budget st'
         = (Z.of_nat (length w) + 1, w ++ [d], st'') /\
         pending st'' = rest) /\
    (w <> [] -> pending st = w ->
     exists st'',
       fetch_next_word cfg budget st' = (Z.of_nat (length w), w, st'') /\
       pending st'' = []).
Proof.
  intros Hok.
  pose proof (fetch_next_word_inv max_size st Hok) as Hinv.
  destruct (fetch_next_word cfg max_size st) as [[code word] st'].
  destruct Hinv as (Hok' & _ & _ & Hff' & Hres). intros ->.
  destruct Hres as [((Hpos & _) & _)|(_ & _ & Hpend & Hstart & Hgrow)];
    [lia|].
  splits; auto.
  intros budget w Hff Hw Hbudget.
  pose proof (fetch_next_word_refines budget st' Hok' (Hff' Hff)
                ltac:(lia)) as Href.
  cbn zeta in Href. rewrite Hpend in Href. unfold Spec.next_word in Href.
  destruct (fetch_next_word cfg budget st') as [[code' word'] st''].
  destruct Href as (Hcode & Hword & Hrest & _).
  split.
  - intros d rest Hd Hsplit. rewrite Hsplit in *.
    rewrite next_word_from_delimited in * by (auto; lia).
    cbn in Hcode, Hword, Hrest. subst.
    exists st''. split; [|reflexivity].
    rewrite length_app. cbn [length]. repeat f_equal. lia.
  - intros Hne Hall. rewrite Hall in *.
    rewrite next_word_from_final in * by (auto; lia).
    cbn in Hcode, Hword, Hrest. subst.
    exists st''. now split.
Qed.

(** ** After the end of the stream *)

Lemma rendered_emit (e : out_event) (st : state) :
  rendered (emit e st) = rendered st ++ out_bytes e.
Proof.
  unfold rendered. fields. rewrite map_app, concat_app. cbn.
  now rewrite app_nil_r.
Qed.

Lemma rendered_content_emit (e : out_event) (st : state) :
  rendered_content (emit e st) = rendered_content st ++ file_bytes e.
Proof.
  unfold rendered_content. fields. rewrite map_app, concat_app. cbn.
  now rewrite app_nil_r.
Qed.

Lemma rendered_snoc (e : out_event) (st st' : state) :
  stdout st' = stdout st ++ [e] ->
  rendered st' = rendered st ++ out_bytes e /\
  rendered_content st' = rendered_content st ++ file_bytes e.
Proof.
  intros H. unfold rendered, rendered_content.
  rewrite H, !map_app, !concat_app. cbn [map concat].
  now rewrite !app_nil_r.
Qed.

(** At the end of the stream a page is the end-of-input text alone, and
    the stream is still at its end afterwards. *)
Lemma display_page_at_end (st : state) :
  at_end st -> 0 <= LINE_WIDTH cfg -> 0 < PAGE_SIZE cfg ->
  exists st',
    display_page cfg st = (0, st') /\ at_end st' /\
    stdout st' = stdout st ++ [Printf EOF_text].
Proof.
  intros (Hsrc & Hempty) Hlw Hps. unfold display_page.
  destruct (Z.to_nat (PAGE_SIZE cfg)) as [|n] eqn:Hn; [lia|].
  cbn [page_loop]. unfold fetch_next_line. cbn [line_loop].
  unfold fetch_next_word.
  destruct (Z.to_nat (LINE_WIDTH cfg - 0 + 1)) as [|m] eqn:Hm; [lia|].
  cbn [scan].
  destruct (Z.ltb_spec 0 (LINE_WIDTH cfg - 0 + 1)) as [_|?]; [|lia].
  unfold at_buffer_end. fields. rewrite Z.add_0_r.
  destruct (Z.gtb_spec (buffer_start st) (buffer_end st)) as [_|?]; [|lia].
  cbn [Z.eqb]. unfold refill_buffer, read. fields. rewrite Hsrc.
  destruct (BUFFER_SIZE cfg - 0 <=? 0);
    cbv beta iota zeta; cbn [Z.gtb Z.compare Z.eqb orb];
    (eexists; split; [reflexivity|]); unfold at_end; fields;
    (split; [split; [reflexivity | lia] | reflexivity]).
Qed.

(** From a state at the end of the stream, the command loop calls
    [display_page] again for every ['f'] typed before the first ['q'];
    each call writes the end-of-input text once more and nothing of the
    file; the loop is left only by ['q']. *)
Lemma command_loop_at_end (keys : list byte) :
  forall command st,
  at_end st -> 0 <= LINE_WIDTH cfg -> 0 < PAGE_SIZE cfg ->
  let '(quit, st') := command_loop cfg keys command st in
  quit = quits keys /\
  rendered st'
  = rendered st ++ concat (repeat EOF_text (pages_requested command keys)) /\
  rendered_content st' = rendered_content st /\
  at_end st'.
Proof.
  induction keys as [|k keys IH]; intros command st Hend Hlw Hps;
    cbn [command_loop pages_requested quits existsb].
  - destruct (Byte.eqb command key_f).
    + destruct (display_page_at_end st Hend Hlw Hps) as (st' & -> & He & Ho).
      apply rendered_snoc in Ho. destruct Ho as (Hr & Hc).
      cbn [snd file_bytes out_bytes] in *. rewrite app_nil_r in Hc.
      cbn [Nat.add repeat concat]. rewrite app_nil_r. now splits.
    + cbn [Nat.add repeat concat]. rewrite app_nil_r. now splits.
  - destruct (Byte.eqb command key_f).
    + destruct (display_page_at_end st Hend Hlw Hps) as (st' & -> & He & Ho).
      apply rendered_snoc in Ho. destruct Ho as (Hr & Hc).
      cbn [snd file_bytes out_bytes] in *. rewrite app_nil_r in Hc.
      destruct (Byte.eqb k key_q).
      * cbn [orb Nat.add repeat concat]. rewrite app_nil_r. now splits.
      * specialize (IH k st' He Hlw Hps).
        destruct (command_loop cfg keys k st') as [quit st''].
        destruct IH as (Hl & Hr' & Hc' & He').
        cbn [orb Nat.add repeat concat]. splits; auto; try congruence.
        rewrite Hr', Hr. now rewrite <- app_assoc.
    + destruct (Byte.eqb k key_q).
      * cbn [orb Nat.add repeat concat]. rewrite app_nil_r. now splits.
      * specialize (IH k st Hend Hlw Hps).
        destruct (command_loop cfg keys k st) as [quit st''].
        exact IH.
Qed.

(** ** The window invariant *)

Lemma page_loop_inv (n : nat) :
  forall st,
  window_ok cfg st ->
  let '(_, st') := page_loop cfg n st in
  window_ok cfg st' /\ stale_read st' = stale_read st /\
  (fault_free (fd st) = true -> fault_free (fd st') = true).
Proof.
  induction n as [|n IH]; intros st Hok; cbn [page_loop]; [now splits|].
  pose proof (fetch_next_line_inv st Hok) as Hline.
  destruct (fetch_next_line cfg st) as [[chars line] st1].
  destruct Hline as (Hok1 & Hstale1 & _ & Hff1 & _).
  destruct (chars >? 0).
  - match goal with |- context [page_loop cfg n ?s] => set (st2 := s) end.
    assert (H2 : window_ok cfg st2 /\ stale_read st2 = stale_read st1 /\
                 fd st2 = fd st1).
    { subst st2. rewrite note_array_is.
      destruct (Byte.eqb _ LF); unfold window_ok in *; fields; now splits. }
    destruct H2 as (Hok2 & Hstale2 & Hfd2).
    specialize (IH st2 Hok2). destruct (page_loop cfg n st2) as [status st'].
    destruct IH as (Hok' & Hstale' & Hff'). rewrite Hfd2 in Hff'.
    splits; auto; congruence.
  - destruct (chars =? 0); unfold window_ok in *; fields; now splits.
Qed.

Lemma display_page_inv (st : state) :
  window_ok cfg st ->
  let '(_, st') := display_page cfg st in
  window_ok cfg st' /\ stale_read st' = stale_read st /\
  (fault_free (fd st) = true -> fault_free (fd st') = true).
Proof.
  intros Hok. unfold display_page.
  apply (page_loop_inv _ (set_current_page_size 0 st)). exact Hok.
Qed.

(** The ghost flag of the arrays is never reset: a run that ends with the
    flag down has made no access beyond them. *)
Lemma page_loop_keeps_overrun (n : nat) :
  forall st,
  window_ok cfg st -> 0 <= LINE_WIDTH cfg -> overrun st = true ->
  overrun (snd (page_loop cfg n st)) = true.
Proof.
  induction n as [|n IH]; intros st Hok Hlw Hflag; cbn [page_loop];
    [exact Hflag|].
  pose proof (fetch_next_line_inv st Hok) as Hline.
  pose proof (line_loop_overrun (S (Z.to_nat (LINE_WIDTH cfg))) [] 0 st Hok
                ltac:(lia)) as Hflag1.
  fold (fetch_next_line cfg st) in Hflag1.
  destruct (fetch_next_line cfg st) as [[chars line] st1].
  destruct Hline as (Hok1 & _).
  rewrite Hflag in Hflag1. cbn [orb] in Hflag1.
  destruct (chars >? 0).
  - match goal with |- context [page_loop cfg n ?s] => set (st2 := s) end.
    assert (H2 : window_ok cfg st2 /\ overrun st2 = true).
    { subst st2. rewrite note_array_is.
      destruct (Byte.eqb _ LF); unfold window_ok in *; fields;
        rewrite Hflag1; now splits. }
    destruct H2 as (Hok2 & Hflag2). now apply IH.
  - now destruct (chars =? 0).
Qed.

Lemma command_loop_keeps_overrun (keys : list byte) :
  forall command st,
  window_ok cfg st -> 0 <= LINE_WIDTH cfg -> overrun st = true ->
  overrun (snd (command_loop cfg keys command st)) = true.
Proof.
  assert (Hpage : forall command st,
            window_ok cfg st -> 0 <= LINE_WIDTH cfg -> overrun st = true ->
            let st1 := if Byte.eqb command key_f
                       then snd (display_page cfg st) else st in
            window_ok cfg st1 /\ overrun st1 = true).
  { intros command st Hok Hlw Hflag.
    destruct (Byte.eqb command key_f); [|now split].
    pose proof (display_page_inv st Hok) as H.
    unfold display_page in *.
    pose proof (page_loop_keeps_overrun (Z.to_nat (PAGE_SIZE cfg))
                  (set_current_page_size 0 st) Hok Hlw Hflag) as Hkeep.
    destruct (page_loop cfg (Z.to_nat (PAGE_SIZE cfg))
                (set_current_page_size 0 st)) as [status st'].
    destruct H as (Hok' & _). now split. }
  induction keys as [|k keys IH]; intros command st Hok Hlw Hflag;
    cbn [command_loop]; destruct (Hpage command st Hok Hlw Hflag)
      as (Hok1 & Hflag1).
  - exact Hflag1.
  - destruct (Byte.eqb k key_q); [exact Hflag1 | now apply IH].
Qed.

Lemma command_loop_inv (keys : list byte) :
  forall command st,
  sound cfg st -> sound cfg (snd (command_loop cfg keys command st)).
Proof.
  assert (Hpage : forall command st, sound cfg st ->
            sound cfg (if Byte.eqb command key_f
                       then snd (display_page cfg st) else st)).
  { intros command st (Hok & Hstale).
    destruct (Byte.eqb command key_f); [|now split].
    pose proof (display_page_inv st Hok) as H.
    destruct (display_page cfg st) as [status st'].
    destruct H as (Hok' & Hstale' & _). cbn [snd].
    split; [assumption | congruence]. }
  induction keys as [|k keys IH]; intros command st Hsound;
    cbn [command_loop]; specialize (Hpage command st Hsound).
  - exact Hpage.
  - destruct (Byte.eqb k key_q); [exact Hpage | now apply IH].
Qed.

(** C9.  The window invariant [0 <= start <= end + 1 <= BUFFER_SIZE]
    holds of the zeroed globals (for a store of at least one byte) and
    when [main] enters its command loop; it is preserved by
    [refill_buffer], by the compaction step, and by [fetch_next_word]
    whatever it returns, hence by [fetch_next_line] and [display_page];
    and through a whole run of [main] no read of the buffer falls outside
    the window. *)
Theorem window_invariant :
  0 <= BUFFER_SIZE cfg ->
  (forall src, 1 <= BUFFER_SIZE cfg -> sound cfg (startup cfg src)) /\
  (forall src, sound cfg (snd (refill_buffer cfg 0 (startup cfg src)))) /\
  (forall start st,
     window_ok cfg st -> 0 <= start <= BUFFER_SIZE cfg ->
     window_ok cfg (snd (refill_buffer cfg start st)) /\
     stale_read (snd (refill_buffer cfg start st)) = stale_read st) /\
  (forall count st,
     window_ok cfg st ->
     0 <= count <= buffer_end st + 1 - buffer_start st ->
     window_ok cfg (compact count st) /\
     stale_read (compact count st) = stale_read st) /\
  (forall max_size st,
     sound cfg st -> sound cfg (snd (fetch_next_word cfg max_size st))) /\
  (forall st, sound cfg st -> sound cfg (snd (fetch_next_line cfg st))) /\
  (forall st, sound cfg st -> sound cfg (snd (display_page cfg st))) /\
  (forall src keys, sound cfg (snd (main cfg src keys))).
Proof.
  intros Hcap.
  assert (Hrefill : forall start st,
            Z.of_nat (length (buffer st)) = BUFFER_SIZE cfg ->
            0 <= start <= BUFFER_SIZE cfg ->
            window_ok cfg (snd (refill_buffer cfg start st)) /\
            stale_read (snd (refill_buffer cfg start st)) = stale_read st).
  { intros start st Hlen Hstart.
    destruct (refill_buffer_spec start st Hstart Hlen)
      as (r & bs & st' & -> & Hread & Hs & He & Hlen' & _ & _ & Hstale & _).
    assert (Hbs : Z.of_nat (length bs) <= BUFFER_SIZE cfg - start)
      by (destruct Hread; simpl; lia).
    cbn [snd]. split; [|assumption]. unfold window_ok. lia. }
  assert (Hinit : forall src,
            sound cfg (snd (refill_buffer cfg 0 (startup cfg src)))).
  { intros src.
    destruct (Hrefill 0 (startup cfg src)) as (Hok & Hstale).
    - cbn. rewrite repeat_length. lia.
    - lia.
    - split; assumption. }
  splits.
  - intros src Hone. unfold sound, window_ok. cbn.
    rewrite repeat_length. repeat split; lia.
  - exact Hinit.
  - intros start st (_ & _ & Hlen) Hstart. now apply Hrefill.
  - intros count st (Hwin & Hend & Hlen) Hcount.
    unfold compact, window_ok. fields. splits; try lia.
    + rewrite write_at_length; [lia | lia |].
      rewrite sub_length; lia.
    + unfold in_window.
      replace (buffer_start st <=? buffer_start st) with true
        by (symmetry; apply Z.leb_le; lia).
      replace (buffer_start st + count - 1 <=? buffer_end st) with true
        by (symmetry; apply Z.leb_le; lia).
      apply orb_false_r.
  - intros max_size st (Hok & Hstale).
    pose proof (fetch_next_word_inv max_size st Hok) as H.
    destruct (fetch_next_word cfg max_size st) as [[code word] st'].
    destruct H as (Hok' & Hstale' & _). cbn [snd].
    split; [assumption | congruence].
  - intros st (Hok & Hstale).
    pose proof (fetch_next_line_inv st Hok) as H.
    destruct (fetch_next_line cfg st) as [[n line] st'].
    destruct H as (Hok' & Hstale' & _). cbn [snd].
    split; [assumption | congruence].
  - intros st (Hok & Hstale).
    pose proof (display_page_inv st Hok) as H.
    destruct (display_page cfg st) as [status st'].
    destruct H as (Hok' & Hstale' & _). cbn [snd].
    split; [assumption | congruence].
  - intros src keys. unfold main. apply command_loop_inv, Hinit.
Qed.

(** ** Input whose words fit the line *)

Lemma next_word_from_nonempty (budget : nat) :
  forall seen p word rest,
  Spec.next_word_from budget seen p = Spec.Found word rest -> word <> [].
Proof.
  induction budget as [|budget IH]; intros seen p word rest; cbn;
    [discriminate|].
  destruct p as [|c p].
  - destruct seen; [discriminate|]. intros [= <- _]. discriminate.
  - destruct (is_delim c).
    + intros [= <- _]. now destruct seen.
    + apply IH.
Qed.

Lemma next_word_from_end (budget : nat) (seen p : list byte) :
  Spec.next_word_from budget seen p = Spec.EndOfStream ->
  seen = [] /\ p = [].
Proof.
  revert seen p. induction budget as [|budget IH]; intros seen p; cbn;
    [discriminate|].
  destruct p as [|c p].
  - now destruct seen.
  - destruct (is_delim c); [discriminate|].
    intros H. apply IH in H. destruct H as (H & _). now destruct seen.
Qed.

(** With a budget for the rest of the longest admissible run, the scan
    of such input never gives up. *)
Lemma next_word_from_fits (lw : nat) (p : list byte) :
  forall budget seen,
  runs_fit lw (length seen) p = true ->
  (length seen + budget = S lw)%nat -> (0 < budget)%nat ->
  Spec.next_word_from budget seen p <> Spec.Overlong.
Proof.
  induction p as [|c p IH]; intros [|budget] seen Hfit Hsum Hpos;
    try lia; cbn [Spec.next_word_from].
  - now destruct seen.
  - cbn [runs_fit] in Hfit. destruct (is_delim c); [discriminate|].
    apply andb_true_iff in Hfit. destruct Hfit as (Hrun & Hfit).
    apply Nat.leb_le in Hrun.
    apply IH.
    + rewrite length_app. cbn [length].
      now replace (length seen + 1)%nat with (S (length seen)) by lia.
    + rewrite length_app. cbn [length]. lia.
    + lia.
Qed.

(** What follows a word of such input is such input again. *)
Lemma next_word_from_rest_fits (lw budget : nat) :
  forall run seen p word rest,
  runs_fit lw run p = true ->
  Spec.next_word_from budget seen p = Spec.Found word rest ->
  runs_fit lw 0 rest = true.
Proof.
  induction budget as [|budget IH]; intros run seen p word rest Hfit; cbn;
    [discriminate|].
  destruct p as [|c p].
  - destruct seen; [discriminate|]. now intros [= _ <-].
  - cbn [runs_fit] in Hfit. destruct (is_delim c).
    + now intros [= _ <-].
    + apply andb_true_iff in Hfit. destruct Hfit as (_ & Hfit).
      now apply IH with (run := S run).
Qed.

(** A line of such input: no failure, the rest is such input, and an
    empty result at the start of a line means that nothing is pending. *)
Lemma line_loop_fits (fuel : nat) :
  forall line count st,
  window_ok cfg st -> fault_free (fd st) = true ->
  0 <= LINE_WIDTH cfg < BUFFER_SIZE cfg ->
  count = Z.of_nat (length line) ->
  words_fit (LINE_WIDTH cfg) (pending st) = true ->
  let '(n, _, st') := line_loop cfg fuel line count st in
  n <> -1 /\
  words_fit (LINE_WIDTH cfg) (pending st') = true /\
  ((0 < fuel)%nat -> count = 0 -> n = 0 -> pending st = []).
Proof.
  induction fuel as [|fuel IH]; intros line count st Hok Hff Hlw Hcount Hfit;
    cbn [line_loop]; [splits; auto; lia|].
  pose proof (fetch_next_word_refines (LINE_WIDTH cfg - count) st Hok Hff
                ltac:(lia)) as Href.
  cbn zeta in Href.
  destruct (fetch_next_word cfg (LINE_WIDTH cfg - count) st)
    as [[code word] st1].
  destruct Href as (Hcode & Hword & Hrest & Hok1 & Hff1 & _).
  unfold Spec.next_word in *.
  destruct (Spec.next_word_from (Z.to_nat (LINE_WIDTH cfg - count + 1)) []
              (pending st)) as [w r| |] eqn:Hnext;
    cbn [Spec.code Spec.word Spec.rest] in *; subst code word.
  - pose proof (next_word_from_nonempty _ _ _ _ _ Hnext) as Hne.
    pose proof (next_word_from_rest_fits _ _ _ _ _ _ _ Hfit Hnext) as Hfit1.
    assert (Hlen : 0 < Z.of_nat (length w)) by (destruct w; simpl; [easy|lia]).
    destruct (Z.gtb_spec (Z.of_nat (length w)) 0) as [_|?]; [|lia].
    rewrite !note_array_is.
    destruct (Byte.eqb _ LF
              || (count + Z.of_nat (length w) >=? LINE_WIDTH cfg)).
    + rewrite !pending_set_overrun, Hrest. splits; auto; lia.
    + match goal with
      | |- context [line_loop cfg fuel _ _ ?s] => set (st2 := s)
      end.
      assert (Hok2 : window_ok cfg st2) by exact Hok1.
      assert (Hff2 : fault_free (fd st2) = true) by exact Hff1.
      assert (Hrest2 : pending st2 = r) by exact Hrest.
      clearbody st2.
      specialize (IH (line ++ w) (count + Z.of_nat (length w)) st2 Hok2 Hff2
                     Hlw ltac:(rewrite length_app; lia)).
      rewrite Hrest2 in IH. specialize (IH Hfit1).
      pose proof (line_loop_inv fuel (line ++ w)
                    (count + Z.of_nat (length w)) st2 Hok2
                    ltac:(rewrite length_app; lia)) as Hinv.
      destruct (line_loop cfg fuel (line ++ w) (count + Z.of_nat (length w))
                  st2) as [[n line'] st'].
      destruct IH as (Herr & Hfit' & _).
      destruct Hinv as (_ & _ & _ & _ & [?|(_ & Hle & _)]); [contradiction|].
      splits; auto. intros _ -> ->. lia.
  - cbn [Z.gtb Z.compare Z.eqb orb]. rewrite Hrest.
    apply next_word_from_end in Hnext. destruct Hnext as (_ & Hnil).
    splits; auto; lia.
  - cbn [Z.gtb Z.compare Z.eqb Pos.eqb orb]. rewrite Hrest.
    splits; auto; try lia.
    intros _ -> _. exfalso.
    refine (next_word_from_fits (Z.to_nat (LINE_WIDTH cfg)) (pending st) _ []
              Hfit _ _ Hnext); cbn [length]; lia.
Qed.

Lemma fetch_next_line_fits (content : list byte) (st : state) :
  fitting cfg content st ->
  0 <= LINE_WIDTH cfg < BUFFER_SIZE cfg ->
  let '(n, line, st') := fetch_next_line cfg st in
  n = Z.of_nat (length line) /\
  pending st = line ++ pending st' /\
  stdout st' = stdout st /\
  window_ok cfg st' /\ fault_free (fd st') = true /\
  words_fit (LINE_WIDTH cfg) (pending st') = true /\
  (n = 0 -> pending st = []).
Proof.
  intros (Hok & Hff & Hfit & Hall) Hlw.
  pose proof (fetch_next_line_inv st Hok) as Hinv.
  pose proof (line_loop_fits (S (Z.to_nat (LINE_WIDTH cfg))) [] 0 st Hok Hff
                Hlw eq_refl Hfit) as Hfits.
  unfold fetch_next_line in *.
  destruct (line_loop cfg (S (Z.to_nat (LINE_WIDTH cfg))) [] 0 st)
    as [[n line] st'].
  destruct Hinv as (Hok' & _ & (Hout & _) & Hff' & Hres).
  destruct Hfits as (Herr & Hfit' & Hempty).
  destruct Hres as [?|(Hn & _ & Hpend & _)]; [contradiction|].
  splits; auto. intros Hzero. apply Hempty; auto; lia.
Qed.

(** A page over such input: what it writes from the file is what it
    takes from the pending bytes; it reports the end only when nothing
    is pending; and it takes at least one byte unless nothing is
    pending. *)
Lemma page_loop_fits (content : list byte) (n : nat) :
  forall st,
  fitting cfg content st ->
  0 <= LINE_WIDTH cfg < BUFFER_SIZE cfg ->
  let '(status, st') := page_loop cfg n st in
  fitting cfg content st' /\
  (length (pending st') <= length (pending st))%nat /\
  ((0 < n)%nat ->
   pending st' = [] \/ (length (pending st') < length (pending st))%nat).
Proof.
  induction n as [|n IH]; intros st Hfitting Hlw; cbn [page_loop];
    [splits; auto; lia|].
  pose proof (fetch_next_line_fits content st Hfitting Hlw) as Hline.
  destruct (fetch_next_line cfg st) as [[chars line] st1].
  destruct Hline as (Hn & Hpend & Hout & Hok1 & Hff1 & Hfit1 & Hempty).
  destruct Hfitting as (Hok & Hff & Hfit & Hall).
  destruct (Z.gtb_spec chars 0) as [Hpos|Hnon].
  - match goal with |- context [page_loop cfg n ?s] => set (st2 := s) end.
    assert (H2 : fitting cfg content st2 /\ pending st2 = pending st1).
    { assert (Hline : firstn (Z.to_nat chars) line = line)
        by (apply firstn_all2; lia).
      subst st2. rewrite note_array_is.
      destruct (Byte.eqb _ LF);
        unfold fitting, window_ok, pending, window, rendered_content in *;
        fields; rewrite Hline, Hout, !map_app, !concat_app;
        cbn [map concat file_bytes]; rewrite ?app_nil_r;
        (split; [|reflexivity]); splits; auto; try apply Hok1;
        rewrite <- Hall, <- !app_assoc; f_equal; exact (eq_sym Hpend). }
    destruct H2 as (Hfitting2 & Hpend2).
    specialize (IH st2 Hfitting2 Hlw).
    destruct (page_loop cfg n st2) as [status st'].
    destruct IH as (Hfitting' & Hle & _).
    assert (Hshorter : (length (pending st1) < length (pending st))%nat).
    { rewrite Hpend, length_app. lia. }
    rewrite Hpend2 in Hle. splits; auto; try lia.
  - assert (Hzero : chars = 0) by lia.
    specialize (Hempty Hzero).
    assert (Hnil : pending st1 = []).
    { rewrite Hempty in Hpend. symmetry in Hpend.
      now apply app_eq_nil in Hpend. }
    destruct (Z.eqb_spec chars 0) as [_|?]; [|contradiction].
    assert (Hend : fitting cfg content (emit (Printf EOF_text) st1) /\
                   pending (emit (Printf EOF_text) st1) = []).
    { unfold fitting, window_ok, pending, window, rendered_content in *.
      fields. rewrite Hout, !map_app, !concat_app.
      cbn [map concat file_bytes]. rewrite ?app_nil_r.
      split; [|exact Hnil]. splits; auto; try apply Hok1.
      rewrite Hnil. rewrite Hempty in Hall. exact Hall. }
    destruct Hend as (Hfitting' & Hnil').
    rewrite Hnil'. cbn [length]. splits; auto; lia.
Qed.

Lemma display_page_fits (content : list byte) (st : state) :
  fitting cfg content st ->
  0 <= LINE_WIDTH cfg < BUFFER_SIZE cfg -> 0 < PAGE_SIZE cfg ->
  let st' := snd (display_page cfg st) in
  fitting cfg content st' /\
  (pending st' = [] \/ (length (pending st') < length (pending st))%nat).
Proof.
  intros Hfitting Hlw Hps. unfold display_page.
  pose proof (page_loop_fits content (Z.to_nat (PAGE_SIZE cfg))
                (set_current_page_size 0 st) Hfitting Hlw) as H.
  destruct (page_loop cfg (Z.to_nat (PAGE_SIZE cfg))
              (set_current_page_size 0 st)) as [status st'].
  destruct H as (Hfitting' & _ & Hless). cbn [snd].
  split; [assumption | apply Hless; lia].
Qed.

(** Pressing ['f'] [k] times over such input leaves nothing pending or
    at least [k + 1] bytes fewer. *)
Lemma command_loop_fits (content : list byte) (k : nat) :
  forall st,
  fitting cfg content st ->
  0 <= LINE_WIDTH cfg < BUFFER_SIZE cfg -> 0 < PAGE_SIZE cfg ->
  let st' := snd (command_loop cfg (repeat key_f k) key_f st) in
  fitting cfg content st' /\
  (pending st' = [] \/ (length (pending st') + S k <= length (pending st))%nat).
Proof.
  induction k as [|k IH]; intros st Hfitting Hlw Hps;
    cbn [repeat command_loop]; change (Byte.eqb key_f key_f) with true;
    cbv iota;
    destruct (display_page_fits content st Hfitting Hlw Hps)
      as (Hfitting1 & Hless).
  - cbn [snd]. split; [assumption|].
    destruct Hless; [now left | right; lia].
  - change (Byte.eqb key_f key_q) with false. cbv iota.
    destruct (IH (snd (display_page cfg st)) Hfitting1 Hlw Hps)
      as (Hfitting' & Hless').
    split; [assumption|].
    destruct Hless' as [?|Hless']; [now left|].
    destruct Hless as [Hnil|Hless].
    + rewrite Hnil in Hless'. cbn [length] in Hless'. lia.
    + right. lia.
Qed.

(** X1.  The round trip of the description, for input whose words fit
    the line, in a run that stays inside the arrays [word] and [line]:
    once ['f'] has been pressed as many times as the file has bytes, the
    bytes written from the file (the output without what the viewer
    added) are the file. *)
Theorem lossless_when_words_fit (content : list byte) (k : nat) :
  0 <= LINE_WIDTH cfg < BUFFER_SIZE cfg -> 0 < PAGE_SIZE cfg ->
  words_fit (LINE_WIDTH cfg) content = true ->
  (length content <= k)%nat ->
  let st := snd (main cfg (file content) (repeat key_f k)) in
  overrun st = false ->
  rendered_content st = content /\ pending st = [].
Proof.
  intros Hlw Hps Hfit Hk.
  destruct (loaded_ok content) as (Hok & _ & Hpend & Hff & Hout); [lia|].
  assert (Hfitting : fitting cfg content (loaded cfg content)).
  { unfold fitting, rendered_content. rewrite Hout, Hpend. now splits. }
  destruct (command_loop_fits content k (loaded cfg content) Hfitting Hlw Hps)
    as ((_ & _ & _ & Hall) & Hless).
  change (snd (command_loop cfg (repeat key_f k) key_f (loaded cfg content)))
    with (snd (main cfg (file content) (repeat key_f k))) in *.
  cbn zeta. intros _. rewrite Hpend in Hless.
  destruct Hless as [Hnil|?]; [|lia].
  rewrite Hnil, app_nil_r in Hall. now split.
Qed.

End Window.

(** ** The capacity of the buffer is not observable *)

Section Transparency.

Variables cfg1 cfg2 : config.

Hypothesis same_width : LINE_WIDTH cfg1 = LINE_WIDTH cfg2.
Hypothesis same_page : PAGE_SIZE cfg1 = PAGE_SIZE cfg2.
Hypothesis room1 : LINE_WIDTH cfg1 < BUFFER_SIZE cfg1.
Hypothesis room2 : LINE_WIDTH cfg2 < BUFFER_SIZE cfg2.

Lemma fetch_next_word_twin (max_size : Z) (st1 st2 : state) :
  twin cfg1 cfg2 st1 st2 -> max_size <= LINE_WIDTH cfg1 ->
  let '(code1, word1, st1') := fetch_next_word cfg1 max_size st1 in
  let '(code2, word2, st2') := fetch_next_word cfg2 max_size st2 in
  code1 = code2 /\ word1 = word2 /\ twin cfg1 cfg2 st1' st2' /\
  (0 < code1 \/ code1 = 0 \/ code1 = -2).
Proof.
  intros (Hok1 & Hok2 & Hff1 & Hff2 & Hpend & Hout & Hcps) Hmax.
  pose proof (fetch_next_word_inv cfg1 max_size st1 Hok1) as Hinv.
  pose proof (fetch_next_word_refines cfg1 max_size st1 Hok1 Hff1
                ltac:(lia)) as H1.
  pose proof (fetch_next_word_refines cfg2 max_size st2 Hok2 Hff2
                ltac:(lia)) as H2.
  cbn zeta in H1, H2. rewrite <- Hpend in H2.
  destruct (fetch_next_word cfg1 max_size st1) as [[code1 word1] st1'].
  destruct (fetch_next_word cfg2 max_size st2) as [[code2 word2] st2'].
  destruct H1 as (Hc1 & Hw1 & Hp1 & Hok1' & Hff1' & _ & Ho1 & Hs1).
  destruct H2 as (Hc2 & Hw2 & Hp2 & Hok2' & Hff2' & _ & Ho2 & Hs2).
  unfold twin. splits; auto; try congruence.
  destruct Hinv as (_ & _ & _ & _ & [((Hpos & _) & _)|(Hcode & _)]);
    [now left|].
  assert (Hnot : code1 <> -1).
  { rewrite Hc1. destruct (Spec.next_word max_size (pending st1)); cbn; lia. }
  lia.
Qed.

Lemma twin_note_array (used1 used2 : Z) (st1 st2 : state) :
  twin cfg1 cfg2 st1 st2 ->
  twin cfg1 cfg2 (note_array cfg1 used1 st1) (note_array cfg2 used2 st2).
Proof.
  rewrite !note_array_is. exact (fun H => H).
Qed.

Lemma line_loop_twin (fuel : nat) :
  forall line count st1 st2,
  twin cfg1 cfg2 st1 st2 -> 0 <= count ->
  let '(n1, line1, st1') := line_loop cfg1 fuel line count st1 in
  let '(n2, line2, st2') := line_loop cfg2 fuel line count st2 in
  n1 = n2 /\ line1 = line2 /\ twin cfg1 cfg2 st1' st2' /\ 0 <= n1.
Proof.
  induction fuel as [|fuel IH]; intros line count st1 st2 Htwin Hcount;
    cbn [line_loop]; [splits; auto; lia|].
  rewrite <- same_width.
  pose proof (fetch_next_word_twin (LINE_WIDTH cfg1 - count) st1 st2 Htwin
                ltac:(lia)) as Hword.
  destruct (fetch_next_word cfg1 (LINE_WIDTH cfg1 - count) st1)
    as [[code word] st1'].
  destruct (fetch_next_word cfg2 (LINE_WIDTH cfg1 - count) st2)
    as [[code2 word2] st2'].
  destruct Hword as (<- & <- & Htwin' & Hcases).
  destruct (Z.gtb_spec code 0) as [Hpos|Hnon].
  - destruct (Byte.eqb _ LF || (count + code >=? LINE_WIDTH cfg1)).
    + splits; auto using twin_note_array; lia.
    + apply IH; [now repeat apply twin_note_array | lia].
  - assert (Hcode : (code =? 0) || (code =? -2) = true).
    { apply orb_true_iff. rewrite !Z.eqb_eq. lia. }
    rewrite Hcode. splits; auto; lia.
Qed.

Lemma twin_emit (e : out_event) (st1 st2 : state) :
  twin cfg1 cfg2 st1 st2 -> twin cfg1 cfg2 (emit e st1) (emit e st2).
Proof.
  unfold twin, window_ok, pending, window. fields.
  intros (? & ? & ? & ? & ? & Hout & ?). rewrite Hout. now splits.
Qed.

Lemma twin_set_current_page_size (n1 n2 : Z) (st1 st2 : state) :
  twin cfg1 cfg2 st1 st2 -> n1 = n2 ->
  twin cfg1 cfg2 (set_current_page_size n1 st1)
                 (set_current_page_size n2 st2).
Proof.
  unfold twin, window_ok, pending, window. fields.
  intros (? & ? & ? & ? & ? & ? & ?) ->. now splits.
Qed.

Lemma page_loop_twin (n : nat) :
  forall st1 st2,
  twin cfg1 cfg2 st1 st2 ->
  let '(status1, st1') := page_loop cfg1 n st1 in
  let '(status2, st2') := page_loop cfg2 n st2 in
  status1 = status2 /\ twin cfg1 cfg2 st1' st2'.
Proof.
  induction n as [|n IH]; intros st1 st2 Htwin; cbn [page_loop];
    [now split|].
  pose proof (line_loop_twin (S (Z.to_nat (LINE_WIDTH cfg1))) [] 0 st1 st2
                Htwin ltac:(lia)) as Hline.
  unfold fetch_next_line. rewrite <- same_width.
  destruct (line_loop cfg1 (S (Z.to_nat (LINE_WIDTH cfg1))) [] 0 st1)
    as [[chars line] st1'].
  destruct (line_loop cfg2 (S (Z.to_nat (LINE_WIDTH cfg1))) [] 0 st2)
    as [[chars2 line2] st2'].
  destruct Hline as (<- & <- & Htwin' & Hpos).
  destruct (chars >? 0).
  - apply IH.
    pose proof (twin_note_array chars chars st1' st2' Htwin') as Hnoted.
    set (noted1 := note_array cfg1 chars st1') in *.
    set (noted2 := note_array cfg2 chars st2') in *.
    clearbody noted1 noted2.
    assert (Hcps : twin cfg1 cfg2
              (set_current_page_size
                 (current_page_size
                    (emit (Fwrite (firstn (Z.to_nat chars) line)) noted1)
                  + chars)
                 (emit (Fwrite (firstn (Z.to_nat chars) line)) noted1))
              (set_current_page_size
                 (current_page_size
                    (emit (Fwrite (firstn (Z.to_nat chars) line)) noted2)
                  + chars)
                 (emit (Fwrite (firstn (Z.to_nat chars) line)) noted2))).
    { apply twin_set_current_page_size; [now apply twin_emit|].
      fields. destruct Hnoted as (_ & _ & _ & _ & _ & _ & ->). reflexivity. }
    destruct (Byte.eqb (nth (Z.to_nat (chars - 1)) line x00) LF);
      [assumption | now apply twin_emit].
  - destruct (chars =? 0); (split; [reflexivity | now apply twin_emit]).
Qed.

Lemma display_page_twin (st1 st2 : state) :
  twin cfg1 cfg2 st1 st2 ->
  let '(status1, st1') := display_page cfg1 st1 in
  let '(status2, st2') := display_page cfg2 st2 in
  status1 = status2 /\ twin cfg1 cfg2 st1' st2'.
Proof.
  intros Htwin. unfold display_page. rewrite <- same_page.
  apply page_loop_twin. now apply twin_set_current_page_size.
Qed.

Lemma command_loop_twin (keys : list byte) :
  forall command st1 st2,
  twin cfg1 cfg2 st1 st2 ->
  let '(quit1, st1') := command_loop cfg1 keys command st1 in
  let '(quit2, st2') := command_loop cfg2 keys command st2 in
  quit1 = quit2 /\ twin cfg1 cfg2 st1' st2'.
Proof.
  assert (Hpage : forall command st1 st2, twin cfg1 cfg2 st1 st2 ->
            twin cfg1 cfg2
              (if Byte.eqb command key_f
               then snd (display_page cfg1 st1) else st1)
              (if Byte.eqb command key_f
               then snd (display_page cfg2 st2) else st2)).
  { intros command st1 st2 Htwin.
    destruct (Byte.eqb command key_f); [|assumption].
    pose proof (display_page_twin st1 st2 Htwin) as H.
    destruct (display_page cfg1 st1), (display_page cfg2 st2). apply H. }
  induction keys as [|k keys IH]; intros command st1 st2 Htwin;
    cbn [command_loop]; specialize (Hpage command st1 st2 Htwin).
  - now split.
  - destruct (Byte.eqb k key_q); [now split | now apply IH].
Qed.

(** C8, amended.  For line width and page size fixed and two capacities
    that both exceed the line width, two fault-free sources holding the
    same bytes (however [read] cuts them) and the same keys give the same
    run: the loop is left or not alike, and the same calls write the same
    lines to standard output. *)
Theorem capacity_transparent (src1 src2 : source) (keys : list byte) :
  0 <= LINE_WIDTH cfg1 ->
  fault_free src1 = true -> fault_free src2 = true ->
  source_bytes src1 = source_bytes src2 ->
  fst (main cfg1 src1 keys) = fst (main cfg2 src2 keys) /\
  stdout (snd (main cfg1 src1 keys)) = stdout (snd (main cfg2 src2 keys)) /\
  pending (snd (main cfg1 src1 keys)) = pending (snd (main cfg2 src2 keys)).
Proof.
  intros Hlw Hff1 Hff2 Hbytes. unfold main.
  destruct (entered_ok cfg1 src1 ltac:(lia))
    as (Hok1 & _ & Hp1 & Hf1 & Ho1 & Hc1).
  destruct (entered_ok cfg2 src2 ltac:(lia))
    as (Hok2 & _ & Hp2 & Hf2 & Ho2 & Hc2).
  pose proof (command_loop_twin keys key_f
                (snd (refill_buffer cfg1 0 (startup cfg1 src1)))
                (snd (refill_buffer cfg2 0 (startup cfg2 src2)))) as H.
  destruct (command_loop cfg1 keys key_f _) as [quit1 st1'].
  destruct (command_loop cfg2 keys key_f _) as [quit2 st2'].
  destruct H as (Hquit & _ & _ & _ & _ & Hpend & Hout & _).
  { unfold twin. splits; auto; congruence. }
  now splits.
Qed.

End Transparency.

(** * The statements at concrete inputs *)

(** C6.  With LineWidth = 10 and PageSize = 1 the input
    ["abcdefgh ij\nklmno"] is written page by page as ["abcdefgh "] with
    a line feed added, then ["ij\n"], then ["klmno"] with a line feed
    added, and the page after that is the end-of-input text. *)
Theorem example_rendering :
  let pages keys := stdout (snd (main small (file example_input) keys)) in
  pages [] = [Fwrite (text "abcdefgh "); Printf [LF]] /\
  pages [key_f] = pages [] ++ [Fwrite (text "ij" ++ [LF])] /\
  pages [key_f; key_f]
  = pages [key_f] ++ [Fwrite (text "klmno"); Printf [LF]] /\
  pages [key_f; key_f; key_f] = pages [key_f; key_f] ++ [Printf EOF_text] /\
  rendered (snd (main small (file example_input) [key_f; key_f; key_f]))
  = text "abcdefgh " ++ [LF] ++ text "ij" ++ [LF] ++ text "klmno" ++ [LF]
      ++ EOF_text.
Proof. vm_compute. repeat split. Qed.

(** C1 at the failing input: a file of 81 bytes without a delimiter. *)
Lemma overlong_word_never_shown_witness :
  let st := snd (main mypager (file long_word) [key_f; key_f]) in
  rendered_content st = [] /\ pending st = long_word.
Proof.
  apply (overlong_word_never_shown mypager long_word [key_f; key_f]).
  - vm_compute. split; [discriminate | reflexivity].
  - reflexivity.
  - vm_compute. reflexivity.
Defined.

Lemma lossless_when_words_fit_witness :
  let st := snd (main mypager (file example_input) (repeat key_f 17)) in
  rendered_content st = example_input /\ pending st = [].
Proof.
  apply (lossless_when_words_fit mypager example_input 17).
  - vm_compute. split; [discriminate | reflexivity].
  - reflexivity.
  - reflexivity.
  - vm_compute. repeat constructor.
  - vm_compute. reflexivity.
Defined.

(** C7 at a failing input: the viewer writes the first line and then
    only the end-of-input text; the word of 81 bytes and the line after
    it are never written. *)
Theorem lossless_fails_on_long_word :
  let st := snd (main mypager (file around_long_word) [key_f; key_f]) in
  rendered_content st = text "hello" ++ [LF] /\
  rendered st = text "hello" ++ [LF] ++ EOF_text ++ EOF_text ++ EOF_text /\
  rendered_content st <> around_long_word.
Proof. vm_compute. repeat split. discriminate. Qed.
(** C2, the statement as described fails.  After the first page of
    [page_then_long_word] the window holds 20 bytes of the long word at
    offsets 1600 to 1619; the next scan compacts, refills and then gives
    up: the window is now the 100 bytes at offsets 0 to 99. *)
Lemma overlong_window_changes :
  ~ overlong_as_described mypager 80
      (snd (display_page mypager (loaded mypager page_then_long_word))).
Proof.
  unfold overlong_as_described. vm_compute.
  intros H. destruct (H eq_refl) as (_ & Hsame). discriminate Hsame.
Qed.

(** A budget that reaches the capacity does not return the word whole:
    when the scanned bytes fill the store, [read] is asked for no bytes,
    returns 0, and the scan takes that for the end of the file.  Here the
    word has 1700 bytes and a line feed; the call with budget 2000
    returns its first 1620 bytes. *)
Lemma budget_beyond_capacity_truncates :
  let st := loaded mypager (repeat x61 1700 ++ [LF]) in
  let '(code, _, st') := fetch_next_word mypager 80 st in
  code = -2 /\ fst (fst (fetch_next_word mypager 2000 st')) = 1620.
Proof. vm_compute. split; reflexivity. Qed.

Lemma overlong_consumes_nothing_witness :
  let st := snd (display_page mypager (loaded mypager page_then_long_word)) in
  let '(code, _, st') := fetch_next_word mypager 80 st in
  code = -2 ->
  buffer_start st' <= buffer_start st /\
  (exists fresh, window st' = window st ++ fresh) /\
  pending st' = pending st /\
  window_ok mypager st' /\
  forall budget w,
    fault_free (fd st) = true ->
    no_delim w = true ->
    Z.of_nat (length w) <= budget < BUFFER_SIZE mypager ->
    (forall d rest,
       is_delim d = true -> pending st = w ++ d :: rest ->
       exists st'',
         fetch_next_word mypager budget st'
         = (Z.of_nat (length w) + 1, w ++ [d], st'') /\
         pending st'' = rest) /\
    (w <> [] -> pending st = w ->
     exists st'',
       fetch_next_word mypager budget st' = (Z.of_nat (length w), w, st'') /\
       pending st'' = []).
Proof.
  apply (overlong_consumes_nothing mypager 80
           (snd (display_page mypager (loaded mypager page_then_long_word)))).
  vm_compute. repeat split; discriminate.
Defined.

(** C3 at the failing input: the line has two words and 81 bytes, which
    are stored in the 80 cells of [line]. *)
Lemma line_of_two_words_overruns :
  let '(n, line, st') :=
    fetch_next_line mypager (loaded mypager two_words_81) in
  n = 81 /\ line = two_words_81 /\ single_word line = false /\
  overrun (loaded mypager two_words_81) = false /\ overrun st' = true.
Proof.
  vm_compute. repeat split.
Qed.

(** The width bound of the description fails there. *)
Lemma line_of_two_words_exceeds_width :
  ~ width_bound_as_described mypager (loaded mypager two_words_81).
Proof.
  unfold width_bound_as_described.
  assert (Hcall : let '(n, line, _) :=
                    fetch_next_line mypager (loaded mypager two_words_81) in
                  n = 81 /\ single_word line = false).
  { vm_compute. repeat split. }
  destruct (fetch_next_line mypager (loaded mypager two_words_81))
    as [[n line] st'].
  destruct Hcall as (-> & Hwords). intros H. specialize (H Hwords).
  unfold mypager, macro_config, LINE_WIDTH in H. lia.
Qed.

Lemma line_width_bound_witness :
  let '(n, line, st') :=
    fetch_next_line mypager (loaded mypager two_words_81) in
  n <= LINE_WIDTH mypager + 1 /\
  (0 <= n -> Z.of_nat (length line) = n) /\
  (n = LINE_WIDTH mypager + 1 -> is_delim (last line x00) = true) /\
  overrun st'
  = overrun (loaded mypager two_words_81) || (n >? LINE_WIDTH mypager).
Proof.
  apply (line_width_bound mypager (loaded mypager two_words_81)).
  - vm_compute. repeat split; discriminate.
  - vm_compute. discriminate.
Defined.

(** C5, the statement as described fails twice.  When [read] fails the
    value returned is -1 and the window end is [preserved_count - 1], not
    [preserved_count - 2].  And with [preserved_count] equal to the
    capacity the value returned is 0 while the source still holds its
    bytes. *)
Lemma refill_on_failure :
  ~ refill_as_described mypager 0 (startup mypager [Fault]) /\
  ~ refill_as_described mypager (BUFFER_SIZE mypager)
      (startup mypager (file (text "more"))).
Proof.
  split.
  - unfold refill_as_described.
    assert (Hcall : let '(bytes_read, st') :=
                      refill_buffer mypager 0 (startup mypager [Fault]) in
                    bytes_read = -1 /\ buffer_end st' = -1).
    { vm_compute. repeat split. }
    destruct (refill_buffer mypager 0 (startup mypager [Fault]))
      as [bytes_read st'].
    destruct Hcall as (-> & Hend). intros (_ & H & _). lia.
  - unfold refill_as_described.
    assert (Hcall : let '(bytes_read, st') :=
                      refill_buffer mypager (BUFFER_SIZE mypager)
                        (startup mypager (file (text "more"))) in
                    bytes_read = 0).
    { vm_compute. reflexivity. }
    destruct (refill_buffer mypager (BUFFER_SIZE mypager)
                (startup mypager (file (text "more")))) as [bytes_read st'].
    intros (_ & _ & H). specialize (H Hcall). discriminate H.
Qed.

(** C5 amended, with three bytes preserved and with the store full. *)
Lemma refill_contract_witness :
  (let st := loaded mypager (text "one two") in
   let '(bytes_read, st') := refill_buffer mypager 3 st in
   buffer_start st' = 0 /\
   buffer_end st' = 3 - 1 + Z.max 0 bytes_read /\
   -1 <= bytes_read <= BUFFER_SIZE mypager - 3 /\
   length (buffer st') = length (buffer st) /\
   sub (buffer st') 0 3 = sub (buffer st) 0 3 /\
   source_bytes (fd st)
   = sub (buffer st') 3 (Z.max 0 bytes_read) ++ source_bytes (fd st') /\
   (bytes_read = 0 -> 3 < BUFFER_SIZE mypager -> fd st = []) /\
   (fd st = [] -> bytes_read = 0) /\
   (3 = BUFFER_SIZE mypager -> bytes_read = 0 /\ fd st' = fd st) /\
   (bytes_read = -1 ->
    exists rest, fd st = Fault :: rest /\ fd st' = rest) /\
   buffer_has_data st' = (if bytes_read >? 0 then 1 else 0)) /\
  (let st := startup mypager (file (text "more")) in
   let '(bytes_read, st') := refill_buffer mypager 1620 st in
   buffer_start st' = 0 /\
   buffer_end st' = 1620 - 1 + Z.max 0 bytes_read /\
   -1 <= bytes_read <= BUFFER_SIZE mypager - 1620 /\
   length (buffer st') = length (buffer st) /\
   sub (buffer st') 0 1620 = sub (buffer st) 0 1620 /\
   source_bytes (fd st)
   = sub (buffer st') 1620 (Z.max 0 bytes_read) ++ source_bytes (fd st') /\
   (bytes_read = 0 -> 1620 < BUFFER_SIZE mypager -> fd st = []) /\
   (fd st = [] -> bytes_read = 0) /\
   (1620 = BUFFER_SIZE mypager -> bytes_read = 0 /\ fd st' = fd st) /\
   (bytes_read = -1 ->
    exists rest, fd st = Fault :: rest /\ fd st' = rest) /\
   buffer_has_data st' = (if bytes_read >? 0 then 1 else 0)).
Proof.
  split.
  - apply (refill_contract mypager 3 (loaded mypager (text "one two"))).
    + vm_compute. split; discriminate.
    + vm_compute. reflexivity.
  - apply (refill_contract mypager 1620
             (startup mypager (file (text "more")))).
    + vm_compute. split; discriminate.
    + vm_compute. reflexivity.
Defined.

(** C8, the statement as described fails: with a store of 5 bytes under
    a line width of 10, the first line of ["abc defghijk l"] is
    ["abc defgh"]; with the store of 11 bytes it is ["abc "]. *)
Lemma small_store_splits_word :
  ~ transparency_as_described small tiny_store (text "abc defghijk l") [].
Proof.
  unfold transparency_as_described. vm_compute.
  intros H. specialize (H eq_refl eq_refl). discriminate.
Qed.

Lemma capacity_transparent_witness :
  fst (main mypager (file example_input) [key_f; key_q])
  = fst (main mypager_100 example_in_runs [key_f; key_q]) /\
  stdout (snd (main mypager (file example_input) [key_f; key_q]))
  = stdout (snd (main mypager_100 example_in_runs [key_f; key_q])) /\
  pending (snd (main mypager (file example_input) [key_f; key_q]))
  = pending (snd (main mypager_100 example_in_runs [key_f; key_q])).
Proof.
  apply (capacity_transparent mypager mypager_100).
  - reflexivity.
  - reflexivity.
  - reflexivity.
  - reflexivity.
  - vm_compute. discriminate.
  - reflexivity.
  - reflexivity.
  - reflexivity.
Defined.

Lemma window_invariant_witness :
  sound mypager (snd (main mypager (file example_input) [key_f; key_q])).
Proof.
  destruct (window_invariant mypager) as (_ & _ & _ & _ & _ & _ & _ & H).
  - vm_compute. discriminate.
  - apply H.
Defined.


(** * Further properties of the viewer *)

Section Viewer.

Variable cfg : config.

(** ** What the return codes of [fetch_next_word] mean *)

Lemma scan_codes (fuel : nat) :
  forall max_size st start count,
  scanning cfg st start count ->
  match scan cfg fuel max_size start count st with
  | Returned code st' =>
      (code = 0 -> count = 0 /\ (BUFFER_SIZE cfg <= 0 \/ pending st = [])) /\
      (code = -1 -> fault_free (fd st) = false)
  | Left _ _ _ _ => True
  end.
Proof.
  induction fuel as [|fuel IH]; intros max_size st start count Hscan;
    cbn [scan]; destruct (Z.ltb_spec count (max_size + 1)); try exact I.
  pose proof (at_buffer_end_spec cfg st start count Hscan) as Hblock.
  destruct (at_buffer_end cfg start count st)
    as [[code st'|more start' count' st']|start' st']; try exact I.
  - destruct Hblock as (_ & _ & Hfull & [(-> & -> & Hnone)|(-> & src' & Hsrc)]).
    + split; [|discriminate]. intros _. split; [reflexivity|].
      destruct Hnone as [Hcap|Hsrc]; [left; lia | right].
      unfold pending. rewrite (window_full cfg _ _ _ Hscan Hfull), Hsrc.
      reflexivity.
    + split; [discriminate|]. intros _. now rewrite Hsrc.
  - destruct Hblock as (Hscan' & Havail & Hkept).
    destruct (peek (start' + count) st') as [c st''] eqn:Hpeek.
    unfold peek in Hpeek. injection Hpeek as <- <-.
    rewrite note_read_inside
      by (destruct Hscan' as (_ & -> & ? & _); lia).
    destruct (is_delim _); [exact I|].
    assert (Hnext : scanning cfg st' start' (count + 1)).
    { destruct Hscan' as (? & ? & ? & ?). repeat split; auto; try lia;
        apply H0. }
    specialize (IH max_size st' start' (count + 1) Hnext).
    destruct (scan cfg fuel max_size start' (count + 1) st')
      as [code st''|]; [|exact I].
    destruct IH as (Hzero & Hfault).
    destruct Hscan as (_ & _ & Hcount & _).
    split.
    + intros Hc. destruct (Hzero Hc) as (? & _). lia.
    + intros Hc. specialize (Hfault Hc).
      destruct Hkept as (_ & _ & _ & _ & _ & _ & Hff).
      destruct (fault_free (fd st)); [|reflexivity].
      rewrite Hff in Hfault by reflexivity. discriminate.
Qed.

(** X2.  What [fetch_next_word] returns, for every source (short reads
    and failures included), every window and every [max_size], over a
    store of at least one byte.  A positive value [n <= max_size + 1] is
    the length of the word, and the word is the first [n] pending bytes,
    which are consumed.  Otherwise nothing is consumed: 0 only when
    nothing is pending, -1 only when a read of the source failed, and -2
    for a scan abandoned.  Standard output is not written. *)
Theorem fetch_next_word_contract (max_size : Z) (st : state) :
  window_ok cfg st -> 0 < BUFFER_SIZE cfg ->
  let '(code, word, st') := fetch_next_word cfg max_size st in
  window_ok cfg st' /\ stdout st' = stdout st /\
  ((0 < code <= max_size + 1 /\ Z.of_nat (length word) = code /\
    pending st = word ++ pending st') \/
   (code = 0 /\ pending st = [] /\ pending st' = []) \/
   (code = -1 /\ fault_free (fd st) = false /\ pending st' = pending st) \/
   (code = -2 /\ pending st' = pending st)).
Proof.
  intros Hok Hcap.
  pose proof (fetch_next_word_inv cfg max_size st Hok) as Hinv.
  assert (Hscan : scanning cfg st (buffer_start st) 0).
  { destruct Hok as (? & ? & ?). repeat split; auto; lia. }
  pose proof (scan_codes (Z.to_nat (max_size + 1)) max_size _ _ _ Hscan)
    as Hcodes.
  pose proof (scan_inv cfg (Z.to_nat (max_size + 1)) max_size _ _ _ Hscan)
    as Hpos.
  unfold fetch_next_word in *.
  destruct (scan cfg (Z.to_nat (max_size + 1)) max_size (buffer_start st) 0 st)
    as [code st'|[|] start' count' st'].
  - destruct Hinv as (Hok' & _ & (Hout & _) & _ & [Htaken|Hnone]).
    { destruct Htaken as (? & Hlen & _). simpl in Hlen. lia. }
    destruct Hnone as (Hcode & _ & Hpend & _).
    destruct Hcodes as (Hzero & Hfault).
    split; [assumption|]. split; [assumption|]. right.
    destruct Hcode as [->|[->| ->]].
    + left. destruct (Hzero eq_refl) as (_ & [?|Hnil]); [lia|].
      splits; congruence.
    + right. left. splits; auto.
    + right. right. now split.
  - destruct Hinv as (Hok' & _ & (Hout & _) & _ & [Htaken|Hnone]).
    { destruct Htaken as (? & _). lia. }
    destruct Hnone as (_ & _ & Hpend & _).
    split; [assumption|]. split; [assumption|].
    right. right. right. now split.
  - destruct Hpos as (_ & _ & _ & Hpos). specialize (Hpos eq_refl).
    destruct Hinv as (Hok' & _ & (Hout & _) & _ & [Htaken|Hnone]).
    + destruct Htaken as (Hcode & Hlen & Hpend & _).
      split; [assumption|]. split; [assumption|]. left. now splits.
    + destruct Hnone as (Hcode & _). lia.
Qed.

(** ** The scanner and its description *)

(** X3.  With a source that does not fail and [max_size] below the
    capacity of the store, [fetch_next_word] is the scanner of the
    description applied to the pending bytes: it returns the word that
    [Spec.next_word] finds and leaves its rest pending, returns 0 at the
    end of the stream, and returns -2 and leaves everything pending when
    [max_size + 1] bytes hold no delimiter.  A word is the bytes up to
    and including the first delimiter, at most [max_size + 1] of them,
    or the bytes up to the end of the stream, at most [max_size] of
    them: the scan gives up after [max_size + 1] bytes without a
    delimiter before it can meet the end of the stream.  How the bytes
    are spread over the store and the reads does not matter. *)
Theorem fetch_next_word_meets_description (max_size : Z) (st : state) :
  window_ok cfg st ->
  fault_free (fd st) = true ->
  max_size < BUFFER_SIZE cfg ->
  let '(code, word, st') := fetch_next_word cfg max_size st in
  match Spec.next_word max_size (pending st) with
  | Spec.Found w rest =>
      code = Z.of_nat (length w) /\ word = w /\ pending st' = rest
  | Spec.EndOfStream => code = 0 /\ pending st = [] /\ pending st' = []
  | Spec.Overlong => code = -2 /\ pending st' = pending st
  end.
Proof.
  intros Hok Hff Hcap.
  pose proof (fetch_next_word_refines cfg max_size st Hok Hff Hcap) as H.
  cbn zeta in H.
  destruct (fetch_next_word cfg max_size st) as [[code word] st'].
  destruct H as (Hcode & Hword & Hrest & _).
  destruct (Spec.next_word max_size (pending st)) as [w rest| |] eqn:Hnext;
    cbn [Spec.code Spec.word Spec.rest] in *.
  - now splits.
  - apply next_word_from_end in Hnext. destruct Hnext as (_ & Hnil).
    splits; congruence.
  - now split.
Qed.

(** ** Lines end where words end *)

Lemma next_word_from_boundary (budget : nat) :
  forall seen p word rest,
  Spec.next_word_from budget seen p = Spec.Found word rest ->
  is_delim (last word x00) = true \/ rest = [].
Proof.
  induction budget as [|budget IH]; intros seen p word rest; cbn;
    [discriminate|].
  destruct p as [|c p].
  - destruct seen; [discriminate|]. intros [= _ <-]. now right.
  - destruct (is_delim c) eqn:Hc.
    + intros [= <- _]. left. now rewrite last_last.
    + apply IH.
Qed.

Lemma line_loop_boundary (fuel : nat) :
  forall line count st,
  window_ok cfg st -> fault_free (fd st) = true ->
  0 <= LINE_WIDTH cfg < BUFFER_SIZE cfg ->
  count = Z.of_nat (length line) ->
  (line = [] \/ is_delim (last line x00) = true \/ pending st = []) ->
  let '(n, line', st') := line_loop cfg fuel line count st in
  line' = [] \/ is_delim (last line' x00) = true \/ pending st' = [].
Proof.
  induction fuel as [|fuel IH]; intros line count st Hok Hff Hlw Hcount Hinv;
    cbn [line_loop]; [assumption|].
  pose proof (fetch_next_word_refines cfg (LINE_WIDTH cfg - count) st Hok Hff
                ltac:(lia)) as Href.
  cbn zeta in Href.
  destruct (fetch_next_word cfg (LINE_WIDTH cfg - count) st)
    as [[code word] st1].
  destruct Href as (Hcode & Hword & Hrest & Hok1 & Hff1 & _).
  unfold Spec.next_word in *.
  destruct (Spec.next_word_from (Z.to_nat (LINE_WIDTH cfg - count + 1)) []
              (pending st)) as [w r| |] eqn:Hnext;
    cbn [Spec.code Spec.word Spec.rest] in *; subst code word.
  - pose proof (next_word_from_nonempty _ _ _ _ _ Hnext) as Hne.
    pose proof (next_word_from_boundary _ _ _ _ _ Hnext) as Hend.
    assert (Hlen : 0 < Z.of_nat (length w)) by (destruct w; simpl; [easy|lia]).
    destruct (Z.gtb_spec (Z.of_nat (length w)) 0) as [_|?]; [|lia].
    assert (Hinv' : line ++ w = [] \/
                    is_delim (last (line ++ w) x00) = true \/
                    pending st1 = []).
    { right. rewrite last_app_nonempty by assumption.
      destruct Hend; [now left | right; congruence]. }
    rewrite !note_array_is.
    destruct (Byte.eqb _ LF
              || (count + Z.of_nat (length w) >=? LINE_WIDTH cfg));
      [exact Hinv'|].
    apply IH; [exact Hok1 | exact Hff1 | exact Hlw | | exact Hinv'].
    rewrite length_app. lia.
  - cbn [Z.gtb Z.compare Z.eqb orb]. now rewrite Hrest.
  - cbn [Z.gtb Z.compare Z.eqb Pos.eqb orb]. now rewrite Hrest.
Qed.

(** X4.  No word is cut by a line break.  With a source that does not
    fail and a store larger than the line, a line that [fetch_next_line]
    returns without an access beyond the arrays [word] and [line] has at
    most [LINE_WIDTH] bytes and ends with a delimiter, unless it is the
    last line of the stream and nothing is pending after it. *)
Theorem line_ends_at_word_end (st : state) :
  window_ok cfg st -> fault_free (fd st) = true ->
  0 <= LINE_WIDTH cfg < BUFFER_SIZE cfg ->
  let '(n, line, st') := fetch_next_line cfg st in
  0 < n -> overrun st' = false ->
  n <= LINE_WIDTH cfg /\
  (is_delim (last line x00) = true \/ pending st' = []).
Proof.
  intros Hok Hff Hlw.
  pose proof (fetch_next_line_inv cfg st Hok) as Hinv.
  pose proof (line_loop_boundary (S (Z.to_nat (LINE_WIDTH cfg))) [] 0 st
                Hok Hff Hlw eq_refl (or_introl eq_refl)) as Hend.
  pose proof (line_loop_overrun cfg (S (Z.to_nat (LINE_WIDTH cfg))) [] 0 st
                Hok ltac:(lia)) as Hflag.
  unfold fetch_next_line in *.
  destruct (line_loop cfg (S (Z.to_nat (LINE_WIDTH cfg))) [] 0 st)
    as [[n line] st'].
  intros Hn Hdown.
  rewrite Hflag in Hdown. apply orb_false_iff in Hdown as (_ & Hin).
  split; [destruct (Z.gtb_spec n (LINE_WIDTH cfg)); [discriminate | lia]|].
  destruct Hinv as (_ & _ & _ & _ & [?|(Hlen & _)]); [lia|].
  destruct Hend as [->|Hend]; [simpl in Hlen; lia | exact Hend].
Qed.

(** ** Read failures *)

Lemma fetch_next_word_failure (max_size : Z) (st : state) :
  window_ok cfg st ->
  fst (fst (fetch_next_word cfg max_size st)) = -1 ->
  fault_free (fd st) = false.
Proof.
  intros Hok.
  assert (Hscan : scanning cfg st (buffer_start st) 0).
  { destruct Hok as (? & ? & ?). repeat split; auto; lia. }
  pose proof (scan_codes (Z.to_nat (max_size + 1)) max_size _ _ _ Hscan)
    as Hcodes.
  pose proof (scan_inv cfg (Z.to_nat (max_size + 1)) max_size _ _ _ Hscan)
    as Hpos.
  unfold fetch_next_word.
  destruct (scan cfg (Z.to_nat (max_size + 1)) max_size (buffer_start st) 0 st)
    as [code st'|[|] start' count' st']; cbn [fst].
  - apply Hcodes.
  - discriminate.
  - destruct Hpos as (_ & _ & _ & Hpos). specialize (Hpos eq_refl). lia.
Qed.

Lemma line_loop_failure (fuel : nat) :
  forall line count st,
  window_ok cfg st -> 0 <= count ->
  fst (fst (line_loop cfg fuel line count st)) = -1 ->
  fault_free (fd st) = false.
Proof.
  induction fuel as [|fuel IH]; intros line count st Hok Hcount;
    cbn [line_loop]; [cbn; lia|].
  pose proof (fetch_next_word_inv cfg (LINE_WIDTH cfg - count) st Hok) as Hinv.
  pose proof (fetch_next_word_failure (LINE_WIDTH cfg - count) st Hok)
    as Hfail.
  destruct (fetch_next_word cfg (LINE_WIDTH cfg - count) st)
    as [[code word] st1].
  cbn [fst] in Hfail.
  destruct Hinv as (Hok1 & _ & _ & Hff & Hres).
  destruct (Z.gtb_spec code 0) as [Hpos|Hnon].
  - rewrite !note_array_is.
    destruct (Byte.eqb _ LF || (count + code >=? LINE_WIDTH cfg)).
    + cbn [fst]. lia.
    + intros H. apply IH in H; [|exact Hok1|lia].
      cbn [fd set_overrun] in H.
      destruct (fault_free (fd st)); [|reflexivity].
      rewrite Hff in H by reflexivity. discriminate.
  - destruct ((code =? 0) || (code =? -2)) eqn:Hcode; cbn [fst]; [lia|].
    intros _. apply Hfail.
    apply orb_false_iff in Hcode. destruct Hcode as (H0 & H2).
    apply Z.eqb_neq in H0, H2.
    destruct Hres as [((? & _) & _)|(? & _)]; lia.
Qed.

(** ** The shape of a page *)

Lemma page_loop_shape (k : nat) :
  forall st,
  window_ok cfg st ->
  let '(status, st') := page_loop cfg k st in
  exists n evs ending,
    stdout st' = stdout st ++ evs ++ ending /\
    page_lines n evs /\
    window_ok cfg st' /\
    (fault_free (fd st) = true -> fault_free (fd st') = true) /\
    current_page_size st'
    = current_page_size st + Z.of_nat (length (content_of evs)) /\
    ((status = 1 /\ n = k /\ ending = [] /\
      pending st = content_of evs ++ pending st') \/
     (status = 0 /\ (n < k)%nat /\ ending = [Printf EOF_text] /\
      pending st = content_of evs ++ pending st') \/
     (status = 0 /\ (n < k)%nat /\ ending = [Printf error_text] /\
      fault_free (fd st) = false)) /\
    (0 <= LINE_WIDTH cfg -> overrun st' = false ->
     overrun st = false /\
     Forall (fun e => Z.of_nat (length (file_bytes e)) <= LINE_WIDTH cfg)
            evs).
Proof.
  induction k as [|k IH]; intros st Hok; cbn [page_loop].
  { exists O, [], []. rewrite !app_nil_r. cbn [content_of map concat length].
    split; [reflexivity|]. split; [constructor|]. split; [assumption|].
    split; [auto|]. split; [lia|]. split; [left; now splits|].
    intros _ Hflag. now split. }
  assert (Hflag1 : 0 <= LINE_WIDTH cfg ->
            let '(n, _, st') := fetch_next_line cfg st in
            overrun st' = overrun st || (n >? LINE_WIDTH cfg)).
  { intros Hlw.
    exact (line_loop_overrun cfg (S (Z.to_nat (LINE_WIDTH cfg))) [] 0 st Hok
             ltac:(lia)). }
  pose proof (fetch_next_line_inv cfg st Hok) as Hline.
  pose proof (line_loop_failure (S (Z.to_nat (LINE_WIDTH cfg))) [] 0 st Hok
                ltac:(lia)) as Hfail.
  fold (fetch_next_line cfg st) in Hfail.
  destruct (fetch_next_line cfg st) as [[chars line] st1].
  cbn [fst] in Hfail.
  destruct Hline as (Hok1 & _ & (Hout1 & Hcps1) & Hff1 & Hres).
  destruct (Z.gtb_spec chars 0) as [Hpos|Hnon].
  - destruct Hres as [?|(Hlen & _ & Hpend & _)]; [lia|].
    assert (Hfirst : firstn (Z.to_nat chars) line = line)
      by (apply firstn_all2; lia).
    assert (Hne : line <> []) by (intros ->; simpl in Hlen; lia).
    assert (Hlast : nth (Z.to_nat (chars - 1)) line x00 = last line x00).
    { rewrite last_nth. f_equal. lia. }
    rewrite Hfirst, Hlast.
    match goal with |- context [page_loop cfg k ?s] => set (st2 := s) end.
    assert (H2 : exists own,
               stdout st2 = stdout st ++ own /\
               (forall n evs, page_lines n evs ->
                              page_lines (S n) (own ++ evs)) /\
               content_of own = line /\
               window_ok cfg st2 /\ fd st2 = fd st1 /\
               pending st2 = pending st1 /\
               current_page_size st2 = current_page_size st + chars /\
               overrun st2 = overrun st1 || (chars >? LINE_WIDTH cfg) /\
               Forall (fun e => Z.of_nat (length (file_bytes e)) <= chars)
                      own).
    { subst st2. rewrite note_array_is.
      destruct (Byte.eqb (last line x00) LF) eqn:Hlf.
      - exists [Fwrite line].
        unfold window_ok, pending, window, content_of in *. fields.
        rewrite Hout1, Hcps1. cbn [map concat file_bytes].
        rewrite app_nil_r. splits; auto; try apply Hok1.
        + intros n evs Hevs. apply page_lines_ended; auto.
          now apply Byte.byte_dec_bl.
        + repeat constructor. cbn [file_bytes]. lia.
      - exists [Fwrite line; Printf [LF]].
        unfold window_ok, pending, window, content_of in *. fields.
        rewrite Hout1, Hcps1, <- app_assoc. cbn [map concat file_bytes app].
        rewrite app_nil_r. splits; auto; try apply Hok1.
        + intros n evs Hevs. apply page_lines_wrapped; auto.
          intros Heq. rewrite Heq in Hlf. discriminate.
        + repeat constructor; cbn [file_bytes length]; lia. }
    destruct H2 as (own & Hout2 & Hshape & Hown & Hok2 & Hfd2 & Hpend2 & Hcps2
                    & Hflag2 & Hfit2).
    specialize (IH st2 Hok2).
    destruct (page_loop cfg k st2) as [status st'].
    destruct IH as (n & evs & ending & Hout & Hlines & Hok' & Hff' & Hcps
                    & Hcases & Hfit).
    exists (S n), (own ++ evs), ending.
    assert (Hcontent : content_of (own ++ evs) = line ++ content_of evs).
    { unfold content_of in *. now rewrite map_app, concat_app, Hown. }
    rewrite Hcontent, length_app.
    splits; auto.
    + rewrite Hout, Hout2, <- !app_assoc. reflexivity.
    + rewrite Hfd2 in Hff'. auto.
    + lia.
    + destruct Hcases as [(-> & -> & -> & Hp)|[(-> & Hn & -> & Hp)
                                               |(-> & Hn & -> & Hf)]].
      * left. splits; auto. rewrite <- app_assoc, <- Hp. congruence.
      * right. left. splits; auto; [lia|].
        rewrite <- app_assoc, <- Hp. congruence.
      * right. right. splits; auto; [lia|].
        rewrite Hfd2 in Hf. destruct (fault_free (fd st)); [|reflexivity].
        rewrite Hff1 in Hf by reflexivity. discriminate.
    + intros Hlw Hdown. destruct (Hfit Hlw Hdown) as (Hdown2 & Hall).
      specialize (Hflag1 Hlw). rewrite Hflag2, Hflag1 in Hdown2.
      apply orb_false_iff in Hdown2 as (Hdown1 & Hin).
      apply orb_false_iff in Hdown1 as (Hdown0 & _).
      split; [exact Hdown0|].
      apply Forall_app. split; [|exact Hall].
      destruct (Z.gtb_spec chars (LINE_WIDTH cfg)); [discriminate|].
      eapply Forall_impl; [|exact Hfit2]. cbn beta. intros e He. lia.
  - destruct (Z.eqb_spec chars 0) as [->|Hneg].
    + exists O, [], [Printf EOF_text].
      destruct Hres as [?|(Hlen & _ & Hpend & _)]; [lia|].
      assert (Hnil : line = [])
        by (destruct line; [reflexivity|simpl in Hlen; lia]).
      subst line.
      unfold window_ok, pending, window, content_of in *. fields.
      cbn [map concat app length]. rewrite Hout1, Hcps1.
      split; [reflexivity|]. split; [constructor|]. split; [exact Hok1|].
      split; [auto|]. split; [lia|].
      split; [right; left; splits; auto; lia|].
      intros Hlw Hdown. specialize (Hflag1 Hlw). rewrite Hflag1 in Hdown.
      apply orb_false_iff in Hdown as (Hdown & _). now split.
    + exists O, [], [Printf error_text].
      destruct Hres as [->|(? & ? & _)]; [|lia].
      unfold window_ok, pending, window, content_of in *. fields.
      cbn [map concat app length]. rewrite Hout1, Hcps1.
      split; [reflexivity|]. split; [constructor|]. split; [exact Hok1|].
      split; [auto|]. split; [lia|].
      split; [right; right; splits; auto; lia|].
      intros Hlw Hdown. specialize (Hflag1 Hlw). rewrite Hflag1 in Hdown.
      apply orb_false_iff in Hdown as (Hdown & _). now split.
Qed.

(** X5.  The shape of a page, for every source and every window, when
    [display_page] returns without an access beyond the arrays [word]
    and [line].  It writes [n] lines of at most [LINE_WIDTH] bytes, each
    with [fwrite] and each followed
    by a line feed of its own or a printed one, and sets
    [current_page_size] to the number of bytes of the file it wrote.  It
    returns 1 exactly when [n] is [PAGE_SIZE] and nothing else was
    written; otherwise it returns 0, [n] is less, and one text follows
    the lines: the end-of-input text, or the error text, the latter only
    when a read of the source failed. *)
Theorem display_page_shape (st : state) :
  window_ok cfg st -> 0 <= LINE_WIDTH cfg ->
  let '(status, st') := display_page cfg st in
  overrun st' = false ->
  exists n evs ending,
    stdout st' = stdout st ++ evs ++ ending /\
    page_lines n evs /\
    Forall (fun e => Z.of_nat (length (file_bytes e)) <= LINE_WIDTH cfg)
           evs /\
    current_page_size st' = Z.of_nat (length (content_of evs)) /\
    ((status = 1 /\ n = Z.to_nat (PAGE_SIZE cfg) /\ ending = []) \/
     (status = 0 /\ (n < Z.to_nat (PAGE_SIZE cfg))%nat /\
      (ending = [Printf EOF_text] \/
       (ending = [Printf error_text] /\ fault_free (fd st) = false)))).
Proof.
  intros Hok Hlw. unfold display_page.
  pose proof (page_loop_shape (Z.to_nat (PAGE_SIZE cfg))
                (set_current_page_size 0 st) Hok) as H.
  destruct (page_loop cfg (Z.to_nat (PAGE_SIZE cfg))
              (set_current_page_size 0 st)) as [status st'].
  destruct H as (n & evs & ending & Hout & Hlines & _ & _ & Hcps & Hcases
                 & Hfit).
  intros Hdown. destruct (Hfit Hlw Hdown) as (_ & Hall).
  exists n, evs, ending. fields.
  split; [exact Hout|]. split; [exact Hlines|]. split; [exact Hall|].
  split; [lia|].
  destruct Hcases as [(? & ? & ? & _)|[(? & ? & ? & _)|(? & ? & ? & ?)]];
    [left | right | right]; splits; auto.
Qed.

(** ** Nothing is lost or repeated *)

Lemma display_page_conserves (st : state) :
  window_ok cfg st -> fault_free (fd st) = true ->
  let st' := snd (display_page cfg st) in
  window_ok cfg st' /\ fault_free (fd st') = true /\
  rendered_content st' ++ pending st' = rendered_content st ++ pending st.
Proof.
  intros Hok Hff. unfold display_page.
  pose proof (page_loop_shape (Z.to_nat (PAGE_SIZE cfg))
                (set_current_page_size 0 st) Hok) as H.
  destruct (page_loop cfg (Z.to_nat (PAGE_SIZE cfg))
              (set_current_page_size 0 st)) as [status st'].
  destruct H as (n & evs & ending & Hout & _ & Hok' & Hff' & _ & Hcases & _).
  cbn [snd]. fields.
  split; [exact Hok'|]. split; [auto|].
  assert (Hcons : content_of ending = [] /\
                  pending (set_current_page_size 0 st)
                  = content_of evs ++ pending st').
  { destruct Hcases as [(_ & _ & -> & Hp)|[(_ & _ & -> & Hp)
                                          |(_ & _ & _ & Hf)]];
      [now split | now split | congruence]. }
  destruct Hcons as (Hending & Hpend).
  change (pending (set_current_page_size 0 st)) with (pending st) in Hpend.
  unfold rendered_content. rewrite Hout, !map_app, !concat_app.
  fold (content_of evs) (content_of ending). rewrite Hending, app_nil_r.
  rewrite Hpend, <- app_assoc. reflexivity.
Qed.

Lemma command_loop_conserves (keys : list byte) :
  forall command st,
  window_ok cfg st -> fault_free (fd st) = true ->
  let st' := snd (command_loop cfg keys command st) in
  rendered_content st' ++ pending st' = rendered_content st ++ pending st.
Proof.
  assert (Hpage : forall command st,
            window_ok cfg st -> fault_free (fd st) = true ->
            let st1 := if Byte.eqb command key_f
                       then snd (display_page cfg st) else st in
            window_ok cfg st1 /\ fault_free (fd st1) = true /\
            rendered_content st1 ++ pending st1
            = rendered_content st ++ pending st).
  { intros command st Hok Hff. destruct (Byte.eqb command key_f);
      [|now splits]. apply display_page_conserves; assumption. }
  induction keys as [|k keys IH]; intros command st Hok Hff;
    cbn [command_loop]; destruct (Hpage command st Hok Hff)
      as (Hok1 & Hff1 & Hcons).
  - exact Hcons.
  - destruct (Byte.eqb k key_q); [exact Hcons|].
    cbn zeta. rewrite <- Hcons. now apply IH.
Qed.

(** X6.  What the viewer writes from the file is always a prefix of the
    file, and the rest of the file is what is pending.  For a source that
    does not fail this holds after any keys of a run that stays inside
    the arrays [word] and [line], for every line width, page size and
    capacity, and for every content (long words included): no byte is
    dropped, repeated or reordered. *)
Theorem written_content_is_a_prefix (src : source) (keys : list byte) :
  0 <= BUFFER_SIZE cfg -> fault_free src = true ->
  let st := snd (main cfg src keys) in
  overrun st = false ->
  rendered_content st ++ pending st = source_bytes src.
Proof.
  intros Hcap Hsrc st _. subst st.
  destruct (entered_ok cfg src Hcap) as (Hok & _ & Hpend & Hff & Hout & _).
  specialize (Hff Hsrc).
  pose proof (command_loop_conserves keys key_f _ Hok Hff) as H.
  cbn zeta in *. unfold main. rewrite H.
  unfold rendered_content. now rewrite Hout, Hpend.
Qed.

(** ** The keys *)

Lemma command_loop_ignores (k : byte) (keys : list byte) (command : byte)
  (st : state) :
  is_command k = false ->
  command_loop cfg (k :: keys) command st = command_loop cfg keys command st.
Proof.
  intros Hk. apply orb_false_iff in Hk. destruct Hk as (Hf & Hq).
  cbn [command_loop]. rewrite Hq.
  destruct keys as [|k' keys]; cbn [command_loop]; now rewrite Hf.
Qed.

(** X7.  Keys other than ['f'] and ['q'] have no effect: a run of the
    viewer is the run over the ['f'] and ['q'] keys alone, with the same
    output, the same state and the same end. *)
Theorem other_keys_are_ignored (src : source) (keys : list byte) :
  main cfg src keys = main cfg src (filter is_command keys).
Proof.
  unfold main. generalize (snd (refill_buffer cfg 0 (startup cfg src))).
  generalize key_f.
  induction keys as [|k keys IH]; intros command st; [reflexivity|].
  cbn [filter]. destruct (is_command k) eqn:Hk.
  - cbn [command_loop]. destruct (Byte.eqb k key_q); [reflexivity|].
    apply IH.
  - rewrite command_loop_ignores by assumption. apply IH.
Qed.

(** X8.  ['q'] ends the session: the loop is left, and whatever is typed
    after the first ['q'] changes nothing.  Typed as the first key, it
    leaves the viewer with the first page alone. *)
Theorem quit_ends_the_session (src : source) (before after : list byte) :
  main cfg src (before ++ key_q :: after) = main cfg src (before ++ [key_q])
  /\ fst (main cfg src (before ++ key_q :: after)) = true
  /\ main cfg src (key_q :: after)
     = (true, snd (display_page cfg
                     (snd (refill_buffer cfg 0 (startup cfg src))))).
Proof.
  unfold main. generalize (snd (refill_buffer cfg 0 (startup cfg src))).
  intros st0. split; [|split; [|reflexivity]].
  - generalize key_f. revert st0.
    induction before as [|k before IH]; intros st command; [reflexivity|].
    cbn [app command_loop]. destruct (Byte.eqb k key_q); [reflexivity|].
    apply IH.
  - generalize key_f. revert st0.
    induction before as [|k before IH]; intros st command; [reflexivity|].
    cbn [app command_loop]. destruct (Byte.eqb k key_q); [reflexivity|].
    apply IH.
Qed.

End Viewer.

(** ** What was written before does not matter *)

Section Output.

Variable cfg : config.
Variable before : list out_event.

Lemma refill_buffer_after_output (start : Z) (st : state) :
  refill_buffer cfg start (after_output before st)
  = (fst (refill_buffer cfg start st),
     after_output before (snd (refill_buffer cfg start st))).
Proof.
  unfold refill_buffer, after_output. fields.
  destruct (read (fd st) (BUFFER_SIZE cfg - start)) as [[n bs] fd'].
  now destruct (n >? 0).
Qed.

Lemma at_buffer_end_after_output (start count : Z) (st : state) :
  at_buffer_end cfg start count (after_output before st)
  = refilled_after_output before (at_buffer_end cfg start count st).
Proof.
  unfold at_buffer_end.
  change (buffer_end (after_output before st)) with (buffer_end st).
  destruct (start + count >? buffer_end st); [|reflexivity].
  assert (Hcompact : (if count =? 0 then after_output before st
                      else compact count (after_output before st))
                     = after_output before
                         (if count =? 0 then st else compact count st))
    by now destruct (count =? 0).
  rewrite Hcompact, refill_buffer_after_output.
  destruct (refill_buffer cfg count (if count =? 0 then st
                                     else compact count st)) as [r st'].
  cbn [fst snd]. destruct (r =? 0); [now destruct (count =? 0)|].
  now destruct (r =? -1).
Qed.

Lemma scan_after_output (fuel : nat) :
  forall max_size start count st,
  scan cfg fuel max_size start count (after_output before st)
  = exit_after_output before (scan cfg fuel max_size start count st).
Proof.
  induction fuel as [|fuel IH]; intros max_size start count st; cbn [scan];
    destruct (count <? max_size + 1); try reflexivity.
  rewrite at_buffer_end_after_output.
  destruct (at_buffer_end cfg start count st) as [e|start' st'];
    [reflexivity|].
  cbn [refilled_after_output]. unfold peek.
  change (buffer (after_output before st')) with (buffer st').
  destruct (is_delim (nth (Z.to_nat (start' + count)) (buffer st') x00));
    [reflexivity|].
  apply (IH max_size start' (count + 1) (note_read _ _ st')).
Qed.

Lemma fetch_next_word_after_output (max_size : Z) (st : state) :
  fetch_next_word cfg max_size (after_output before st)
  = let '(code, word, st') := fetch_next_word cfg max_size st in
    (code, word, after_output before st').
Proof.
  unfold fetch_next_word.
  change (buffer_start (after_output before st)) with (buffer_start st).
  rewrite scan_after_output.
  now destruct (scan cfg (Z.to_nat (max_size + 1)) max_size (buffer_start st)
                  0 st) as [code st'|[|] start count st'].
Qed.

Lemma note_array_after_output (used : Z) (st : state) :
  note_array cfg used (after_output before st)
  = after_output before (note_array cfg used st).
Proof.
  unfold note_array. now destruct (used >? LINE_WIDTH cfg).
Qed.

Lemma line_loop_after_output (fuel : nat) :
  forall line count st,
  line_loop cfg fuel line count (after_output before st)
  = let '(n, line', st') := line_loop cfg fuel line count st in
    (n, line', after_output before st').
Proof.
  induction fuel as [|fuel IH]; intros line count st; cbn [line_loop];
    [reflexivity|].
  rewrite fetch_next_word_after_output.
  destruct (fetch_next_word cfg (LINE_WIDTH cfg - count) st)
    as [[code word] st1].
  destruct (code >? 0).
  - rewrite !note_array_after_output.
    destruct (Byte.eqb _ LF || (count + code >=? LINE_WIDTH cfg));
      [reflexivity | apply IH].
  - now destruct ((code =? 0) || (code =? -2)).
Qed.

Lemma emit_after_output (e : out_event) (st : state) :
  emit e (after_output before st) = after_output before (emit e st).
Proof. unfold emit, after_output. fields. now rewrite app_assoc. Qed.

Lemma page_loop_after_output (n : nat) :
  forall st,
  page_loop cfg n (after_output before st)
  = (fst (page_loop cfg n st), after_output before (snd (page_loop cfg n st))).
Proof.
  induction n as [|n IH]; intros st; cbn [page_loop]; [reflexivity|].
  unfold fetch_next_line. rewrite line_loop_after_output.
  destruct (line_loop cfg (S (Z.to_nat (LINE_WIDTH cfg))) [] 0 st)
    as [[chars line] st1].
  destruct (chars >? 0).
  - rewrite note_array_after_output, emit_after_output.
    match goal with
    | |- page_loop cfg n ?a = (fst (page_loop cfg n ?b), _) =>
        replace a with (after_output before b); [apply IH|]
    end.
    destruct (Byte.eqb _ LF); [reflexivity|].
    now rewrite <- emit_after_output.
  - destruct (chars =? 0); cbn [fst snd]; now rewrite emit_after_output.
Qed.

Lemma command_loop_after_output (keys : list byte) :
  forall command st,
  command_loop cfg keys command (after_output before st)
  = (fst (command_loop cfg keys command st),
     after_output before (snd (command_loop cfg keys command st))).
Proof.
  assert (Hpage : forall command st,
            (if Byte.eqb command key_f
             then snd (display_page cfg (after_output before st))
             else after_output before st)
            = after_output before
                (if Byte.eqb command key_f
                 then snd (display_page cfg st) else st)).
  { intros command st. destruct (Byte.eqb command key_f); [|reflexivity].
    unfold display_page.
    change (set_current_page_size 0 (after_output before st))
      with (after_output before (set_current_page_size 0 st)).
    now rewrite page_loop_after_output. }
  induction keys as [|k keys IH]; intros command st; cbn [command_loop];
    rewrite Hpage; [reflexivity|].
  destruct (Byte.eqb k key_q); [reflexivity | apply IH].
Qed.

End Output.

Lemma command_loop_quits (cfg : config) (keys : list byte) :
  forall command st,
  fst (command_loop cfg keys command st) = quits keys.
Proof.
  induction keys as [|k keys IH]; intros command st;
    cbn [command_loop quits existsb]; [reflexivity|].
  destruct (Byte.eqb k key_q); [reflexivity | apply IH].
Qed.

(** ** After the page renderer has signalled the end *)

Lemma pages_ok (cfg : config) (k : nat) (st : state) :
  window_ok cfg st -> window_ok cfg (pages cfg k st).
Proof.
  intros Hok. induction k as [|k IH]; [exact Hok|].
  change (pages cfg (S k) st) with (snd (display_page cfg (pages cfg k st))).
  pose proof (display_page_inv cfg _ IH) as H.
  destruct (display_page cfg (pages cfg k st)) as [status st'].
  now destruct H.
Qed.

(** Every ['f'] is one more call of [display_page]. *)
Lemma command_loop_pages (cfg : config) (k : nat) :
  forall st,
  command_loop cfg (repeat key_f k) key_f st = (false, pages cfg (S k) st).
Proof.
  induction k as [|k IH]; intros st; cbn [repeat command_loop];
    [reflexivity|].
  change (Byte.eqb key_f key_f) with true.
  change (Byte.eqb key_f key_q) with false. cbv iota.
  rewrite IH. f_equal. symmetry.
  exact (Nat.iter_succ_r (S k) _ (fun st => snd (display_page cfg st)) st).
Qed.

(** With a page of at least one line, every call of [display_page]
    writes: lines, or one of its two texts. *)
Lemma display_page_writes (cfg : config) (st : state) :
  window_ok cfg st -> 0 < PAGE_SIZE cfg ->
  exists evs,
    evs <> [] /\ stdout (snd (display_page cfg st)) = stdout st ++ evs.
Proof.
  intros Hok Hps. unfold display_page.
  pose proof (page_loop_shape cfg (Z.to_nat (PAGE_SIZE cfg))
                (set_current_page_size 0 st) Hok) as H.
  destruct (page_loop cfg (Z.to_nat (PAGE_SIZE cfg))
              (set_current_page_size 0 st)) as [status st'].
  destruct H as (n & evs & ending & Hout & Hlines & _ & _ & _ & Hcases & _).
  cbn [snd]. exists (evs ++ ending). split; [|exact Hout].
  destruct Hcases as [(_ & -> & _)|[(_ & _ & -> & _)|(_ & _ & -> & _)]].
  - destruct (Z.to_nat (PAGE_SIZE cfg)) eqn:Hn; [lia|].
    inversion Hlines; subst; discriminate.
  - intros H. apply app_eq_nil in H as (_ & H). discriminate H.
  - intros H. apply app_eq_nil in H as (_ & H). discriminate H.
Qed.

(** C4, amended.  [main] does not look at what [display_page] returns.
    Once [display_page] has returned 0, for the end of the stream or for
    an error, the command loop is still left by ['q'] only, every
    further ['f'] is one more call of [display_page], and every such
    call writes.  When the stream has ended indeed (the window is empty
    and the source exhausted), what it writes is the end-of-input text
    again and nothing else. *)
Theorem next_page_after_end (cfg : config) (st : state) :
  window_ok cfg st -> 0 <= LINE_WIDTH cfg ->
  let '(status, st1) := display_page cfg st in
  status = 0 ->
  (forall keys command,
     fst (command_loop cfg keys command st1) = quits keys) /\
  (forall k,
     command_loop cfg (repeat key_f k) key_f st1
     = (false, pages cfg (S k) st1) /\
     exists evs,
       evs <> [] /\
       stdout (pages cfg (S k) st1) = stdout (pages cfg k st1) ++ evs) /\
  (at_end st1 ->
   forall k,
     at_end (pages cfg k st1) /\
     stdout (pages cfg k st1) = stdout st1 ++ repeat (Printf EOF_text) k).
Proof.
  intros Hok Hlw.
  assert (Hps : fst (display_page cfg st) = 0 -> 0 < PAGE_SIZE cfg).
  { unfold display_page. destruct (Z.to_nat (PAGE_SIZE cfg)) eqn:Hn; [|lia].
    cbn. discriminate. }
  pose proof (display_page_inv cfg st Hok) as Hinv.
  destruct (display_page cfg st) as [status st1].
  destruct Hinv as (Hok1 & _). cbn [fst] in Hps.
  intros Hstatus. specialize (Hps Hstatus). splits.
  - intros keys command. apply command_loop_quits.
  - intros k. split; [apply command_loop_pages|].
    change (pages cfg (S k) st1)
      with (snd (display_page cfg (pages cfg k st1))).
    apply display_page_writes; [now apply pages_ok | exact Hps].
  - intros Hend k. induction k as [|k (Hendk & Houtk)].
    + split; [exact Hend|]. cbn [pages Nat.iter repeat].
      now rewrite app_nil_r.
    + change (pages cfg (S k) st1)
        with (snd (display_page cfg (pages cfg k st1))).
      destruct (display_page_at_end cfg (pages cfg k st1) Hendk Hlw Hps)
        as (st' & -> & Hend' & Hout'). cbn [snd].
      split; [exact Hend'|].
      rewrite Hout', Houtk, <- app_assoc. f_equal.
      change [Printf EOF_text] with (repeat (Printf EOF_text) 1).
      now rewrite <- repeat_app, Nat.add_1_r.
Qed.

(** ** The terminal *)

(** X9.  [eliminate_stdio_buffering] clears the bits of [ICANON] and
    [ECHO] in [c_lflag] of the terminal and changes nothing else: every
    other bit of [c_lflag] and every other field stay as they were.  The
    attributes found are saved in [old], so that
    [restore_stdio_buffering] after it puts the terminal back exactly. *)
Theorem eliminate_clears_two_flags (ICANON ECHO : Z) (t : tty) :
  let t' := eliminate_stdio_buffering ICANON ECHO t in
  (forall i, 0 <= i ->
     Z.testbit (c_lflag (attributes t')) i
     = Z.testbit (c_lflag (attributes t)) i
       && negb (Z.testbit ICANON i) && negb (Z.testbit ECHO i)) /\
  (0 <= c_lflag (attributes t) -> 0 <= c_lflag (attributes t')) /\
  c_iflag (attributes t') = c_iflag (attributes t) /\
  c_oflag (attributes t') = c_oflag (attributes t) /\
  c_cflag (attributes t') = c_cflag (attributes t) /\
  c_cc (attributes t') = c_cc (attributes t) /\
  attributes (restore_stdio_buffering t') = attributes t.
Proof.
  cbn. splits; auto.
  - intros i Hi. now rewrite !Z.land_spec, !Z.lnot_spec by assumption.
  - intros Hflags. apply Z.land_nonneg. left. apply Z.land_nonneg. now left.
Qed.

(** X10.  The terminal and the exit status of the whole program.
    Whenever [main] returns, the terminal has the attributes it had when
    the program started: with a wrong number of arguments (status 1) and
    with a file that cannot be opened (status 1) they were never changed,
    and after ['q'] (status 0) they have been put back.  [main] does not
    return in any other case: while no ['q'] has been typed the program
    waits for a key, with [ICANON] and [ECHO] cleared. *)
Theorem terminal_is_restored_on_exit (cfg : config) (ICANON ECHO : Z)
  (argc : Z) (argv : list (list byte)) (opened : option source)
  (keys : list byte) (t : tty) :
  let r := mypager_main cfg ICANON ECHO argc argv opened keys t in
  match exit_status r with
  | Some status =>
      attributes (terminal r) = attributes t /\
      ((status = 1 /\ (argc <> 2 \/ opened = None)) \/
       (status = 0 /\ argc = 2 /\ opened <> None /\ quits keys = true))
  | None =>
      argc = 2 /\ opened <> None /\ quits keys = false /\
      attributes (terminal r) = raw_mode ICANON ECHO (attributes t)
  end.
Proof.
  unfold mypager_main.
  destruct (Z.eqb_spec argc 2) as [Hargc|Hargc]; cbn [negb].
  2:{ cbn. split; [reflexivity|]. left. split; [reflexivity | now left]. }
  destruct opened as [src|].
  2:{ cbn. split; [reflexivity|]. left. split; [reflexivity | now right]. }
  pose proof (command_loop_quits cfg keys key_f
                (snd (refill_buffer cfg 0
                        (emit (Printf (text "Opening file " ++ nth 1 argv []
                                         ++ text "..." ++ [LF]))
                              (startup cfg src))))) as Hquit.
  destruct (command_loop cfg keys key_f _) as [quit st]. cbn [fst] in Hquit.
  subst quit. destruct (quits keys); cbn.
  - split; [reflexivity|]. right. now splits.
  - now splits.
Qed.

(** X11.  What the whole program writes.  With one argument and a file
    that opens, standard output is the line ["Opening file <name>..."]
    followed by what [main] of the embedding writes for the same source
    and keys, and nothing goes to standard error.  With a wrong number of
    arguments nothing goes to standard output and the two usage lines go
    to standard error; when the file cannot be opened the opening line is
    all of standard output. *)
Theorem output_of_the_program (cfg : config) (ICANON ECHO : Z)
  (argc : Z) (argv : list (list byte)) (opened : option source)
  (keys : list byte) (t : tty) :
  let r := mypager_main cfg ICANON ECHO argc argv opened keys t in
  let opening :=
    Printf (text "Opening file " ++ nth 1 argv [] ++ text "..." ++ [LF]) in
  (argc <> 2 ->
   output r = [] /\
   errors r = [Fprintf (text "Usage:" ++ [LF]);
               Fprintf (nth 0 argv [] ++ text " <filename>" ++ [LF])]) /\
  (argc = 2 -> opened = None ->
   output r = [opening] /\ errors r = [Perror (text "open() failed")]) /\
  (argc = 2 -> forall src, opened = Some src ->
   output r = opening :: stdout (snd (main cfg src keys)) /\ errors r = []).
Proof.
  unfold mypager_main.
  destruct (Z.eqb_spec argc 2) as [Hargc|Hargc]; cbn [negb].
  2:{ cbn. splits; try contradiction. now intros _. }
  splits; [contradiction | now intros _ -> |].
  intros _ src ->.
  set (opening := Printf (text "Opening file " ++ nth 1 argv []
                            ++ text "..." ++ [LF])).
  change (emit opening (startup cfg src))
    with (after_output [opening] (startup cfg src)).
  rewrite refill_buffer_after_output. cbn [snd].
  rewrite command_loop_after_output. unfold main.
  destruct (command_loop cfg keys key_f
              (snd (refill_buffer cfg 0 (startup cfg src)))) as [quit st].
  cbn [fst snd]. now destruct quit.
Qed.

(** ** The properties at concrete inputs *)

(** C4, the statement as described fails, for the end of the stream and
    for an error.  On an empty file the first page ends the stream, and
    the next ['f'] writes the end-of-input text again.  On a source whose
    second [read] fails the first page is the error text, and the next
    ['f'] writes a line of the file. *)
Lemma next_page_after_end_is_not_silent :
  ~ ended_as_described mypager (loaded mypager []) /\
  ~ ended_as_described mypager (entered mypager fails_then_more).
Proof.
  split; unfold ended_as_described; vm_compute; intros H;
    specialize (H eq_refl); discriminate H.
Qed.

(** C4 amended, after an error: [display_page] has returned 0 there. *)
Lemma next_page_after_end_witness :
  fst (display_page mypager (entered mypager fails_then_more)) = 0 /\
  let '(status, st1) :=
    display_page mypager (entered mypager fails_then_more) in
  status = 0 ->
  (forall keys command,
     fst (command_loop mypager keys command st1) = quits keys) /\
  (forall k,
     command_loop mypager (repeat key_f k) key_f st1
     = (false, pages mypager (S k) st1) /\
     exists evs,
       evs <> [] /\
       stdout (pages mypager (S k) st1)
       = stdout (pages mypager k st1) ++ evs) /\
  (at_end st1 ->
   forall k,
     at_end (pages mypager k st1) /\
     stdout (pages mypager k st1)
     = stdout st1 ++ repeat (Printf EOF_text) k).
Proof.
  split; [vm_compute; reflexivity|].
  apply (next_page_after_end mypager (entered mypager fails_then_more)).
  - vm_compute. repeat split; discriminate.
  - vm_compute. discriminate.
Defined.

Lemma fetch_next_word_contract_witness :
  let '(code, word, st') :=
    fetch_next_word small 10 (loaded small example_input) in
  window_ok small st' /\ stdout st' = stdout (loaded small example_input) /\
  ((0 < code <= 10 + 1 /\ Z.of_nat (length word) = code /\
    pending (loaded small example_input) = word ++ pending st') \/
   (code = 0 /\ pending (loaded small example_input) = [] /\
    pending st' = []) \/
   (code = -1 /\ fault_free (fd (loaded small example_input)) = false /\
    pending st' = pending (loaded small example_input)) \/
   (code = -2 /\ pending st' = pending (loaded small example_input))).
Proof.
  apply (fetch_next_word_contract small 10 (loaded small example_input)).
  - vm_compute. repeat split; discriminate.
  - vm_compute. reflexivity.
Defined.

Lemma fetch_next_word_meets_description_witness :
  let '(code, word, st') :=
    fetch_next_word small 10 (loaded small example_input) in
  match Spec.next_word 10 (pending (loaded small example_input)) with
  | Spec.Found w rest =>
      code = Z.of_nat (length w) /\ word = w /\ pending st' = rest
  | Spec.EndOfStream =>
      code = 0 /\ pending (loaded small example_input) = [] /\
      pending st' = []
  | Spec.Overlong =>
      code = -2 /\ pending st' = pending (loaded small example_input)
  end.
Proof.
  apply (fetch_next_word_meets_description small 10
           (loaded small example_input)).
  - vm_compute. repeat split; discriminate.
  - reflexivity.
  - vm_compute. reflexivity.
Defined.

Lemma line_ends_at_word_end_witness :
  let '(n, line, st') := fetch_next_line small (loaded small example_input) in
  0 < n -> overrun st' = false ->
  n <= LINE_WIDTH small /\
  (is_delim (last line x00) = true \/ pending st' = []).
Proof.
  apply (line_ends_at_word_end small (loaded small example_input)).
  - vm_compute. repeat split; discriminate.
  - reflexivity.
  - vm_compute. split; [discriminate | reflexivity].
Defined.

Lemma display_page_shape_witness :
  let '(status, st') := display_page small (loaded small example_input) in
  overrun st' = false ->
  exists n evs ending,
    stdout st' = stdout (loaded small example_input) ++ evs ++ ending /\
    page_lines n evs /\
    Forall (fun e => Z.of_nat (length (file_bytes e)) <= LINE_WIDTH small)
           evs /\
    current_page_size st' = Z.of_nat (length (content_of evs)) /\
    ((status = 1 /\ n = Z.to_nat (PAGE_SIZE small) /\ ending = []) \/
     (status = 0 /\ (n < Z.to_nat (PAGE_SIZE small))%nat /\
      (ending = [Printf EOF_text] \/
       (ending = [Printf error_text] /\
        fault_free (fd (loaded small example_input)) = false)))).
Proof.
  apply (display_page_shape small (loaded small example_input)).
  - vm_compute. repeat split; discriminate.
  - vm_compute. discriminate.
Defined.

Lemma written_content_is_a_prefix_witness :
  let st := snd (main mypager example_in_runs [key_f; key_q]) in
  rendered_content st ++ pending st = source_bytes example_in_runs.
Proof.
  apply (written_content_is_a_prefix mypager example_in_runs [key_f; key_q]).
  - vm_compute. discriminate.
  - reflexivity.
  - vm_compute. reflexivity.
Defined.

(** * Properties of mycopy *)

Module MycopyFacts.

Import Mycopy.

Lemma readable_fault_free (src : source) :
  fault_free src = true -> readable src = source_bytes src.
Proof.
  induction src as [|[b bs|] src IH]; cbn; intros Hff;
    [reflexivity | | discriminate].
  now rewrite IH.
Qed.

(** One [read] of a full buffer, by what can be read: some bytes of it,
    or nothing at the end of the file or at a failure. *)
Lemma read_readable (src : source) :
  let '(r, bs, src') := read src BUFFER_SIZE in
  (0 < r /\ r = Z.of_nat (length bs) /\
   readable src = bs ++ readable src' /\
   fault_free src' = fault_free src /\
   source_bytes src = bs ++ source_bytes src') \/
  (r = 0 /\ bs = [] /\ src = [] /\ src' = []) \/
  (r = -1 /\ bs = [] /\ readable src = [] /\ fault_free src = false /\
   source_bytes src' = source_bytes src).
Proof.
  unfold read. change (BUFFER_SIZE <=? 0) with false. cbv iota.
  destruct src as [|[b bs|] rest].
  - right. left. now splits.
  - pose proof (firstn_skipn (Z.to_nat BUFFER_SIZE) (b :: bs)) as Hsplit.
    assert (Hgot : 0 < Z.of_nat (length (firstn (Z.to_nat BUFFER_SIZE)
                                           (b :: bs)))).
    { rewrite length_firstn. unfold BUFFER_SIZE. simpl length. lia. }
    destruct (skipn (Z.to_nat BUFFER_SIZE) (b :: bs)) as [|c cs] eqn:Hrest.
    + rewrite app_nil_r in Hsplit. rewrite Hsplit in *.
      left. splits; auto.
    + left. splits; auto; cbn [readable source_bytes];
        rewrite <- Hsplit at 1; now rewrite <- app_assoc.
  - right. right. now splits.
Qed.

(** The fuel of [copy_loop] is enough once it exceeds the number of
    bytes of the file. *)
Lemma copy_loop_fuel (fuel : nat) :
  forall fuel' file copy bytes_written reported,
  (length (source_bytes file) < fuel)%nat ->
  (length (source_bytes file) < fuel')%nat ->
  copy_loop fuel file copy bytes_written reported
  = copy_loop fuel' file copy bytes_written reported.
Proof.
  induction fuel as [|fuel IH];
    intros [|fuel'] file copy bytes_written reported H H'; try lia.
  cbn [copy_loop].
  pose proof (read_readable file) as Hread.
  destruct (read file BUFFER_SIZE) as [[r bs] file'].
  destruct (Z.gtb_spec r 0) as [Hpos|Hnon]; [|reflexivity].
  destruct (write copy bs) as [w copy'].
  destruct Hread as [(_ & Hr & _ & _ & Hbytes)|[(? & _)|(? & _)]]; try lia.
  apply IH; rewrite Hbytes, length_app in *; lia.
Qed.

(** A call of [write] on a copy whose calls are all complete. *)
Lemma write_complete (copy : sink) (bytes : list byte) :
  complete (plan copy) = true ->
  exists plan',
    write copy bytes
    = (Z.of_nat (length bytes), mkSink (content copy ++ bytes) plan') /\
    complete plan' = true.
Proof.
  unfold write, complete. destruct (plan copy) as [|[|k|] rest]; cbn;
    intros H; try discriminate; eauto.
Qed.

(** The loop when every [write] is complete: the copy receives the bytes
    up to the first failure of [read]; the loop leaves with 0 at the end
    of the file and with -1 at a failure; the only message is for a file
    that gives no byte while [bytes_written] holds less than 1. *)
Lemma copy_loop_complete (fuel : nat) :
  forall file copy bytes_written reported,
  complete (plan copy) = true ->
  (length (source_bytes file) < fuel)%nat ->
  exists plan',
    copy_loop fuel file copy bytes_written reported
    = (if fault_free file then 0 else -1,
       mkSink (content copy ++ readable file) plan',
       reported ++
       (if (bytes_written <? 1) && is_empty (readable file)
        then [text "write"] else [])) /\
    complete plan' = true.
Proof.
  induction fuel as [|fuel IH]; intros file copy bytes_written reported
    Hplan Hfuel; [lia|].
  cbn [copy_loop].
  pose proof (read_readable file) as Hread.
  destruct (read file BUFFER_SIZE) as [[r bs] file'].
  destruct Hread as [(Hpos & Hr & Hbytes & Hff & Hall)
                    |[(-> & -> & -> & ->)|(-> & -> & Hbytes & Hff & _)]].
  - destruct (Z.gtb_spec r 0) as [_|]; [|lia].
    destruct (write_complete copy bs Hplan) as (plan1 & -> & Hplan1).
    destruct (Z.ltb_spec (Z.of_nat (length bs)) 1) as [|_]; [lia|].
    destruct (IH file' (mkSink (content copy ++ bs) plan1)
                (Z.of_nat (length bs)) reported Hplan1)
      as (plan' & -> & Hplan').
    { rewrite Hall, length_app in Hfuel. lia. }
    exists plan'. split; [|exact Hplan'].
    cbn [content]. rewrite Hff, Hbytes, <- app_assoc.
    destruct (Z.ltb_spec (Z.of_nat (length bs)) 1) as [|_]; [lia|].
    assert (Hsome : is_empty (bs ++ readable file') = false).
    { destruct bs; [cbn in Hr; lia | reflexivity]. }
    rewrite Hsome, andb_false_r. reflexivity.
  - change (0 >? 0) with false. cbv iota. exists (plan copy).
    split; [|exact Hplan]. cbn [fault_free readable is_empty forallb].
    rewrite app_nil_r, andb_true_r. unfold error. cbn [fst].
    destruct copy as [c p].
    now destruct (bytes_written <? 1); cbn [content plan];
      rewrite ?app_nil_r.
  - change (-1 >? 0) with false. cbv iota. exists (plan copy).
    split; [|exact Hplan]. rewrite Hff, Hbytes, app_nil_r.
    cbn [is_empty]. rewrite andb_true_r. unfold error. cbn [fst].
    destruct copy as [c p].
    now destruct (bytes_written <? 1); cbn [content plan];
      rewrite ?app_nil_r.
Qed.

(** The mask of the permission bits keeps the low nine bits. *)
Lemma permission_bits (mode : Z) :
  Z.land mode (Z.lor (Z.lor S_IRWXU S_IRWXG) S_IRWXO) = mode mod 512.
Proof.
  change (Z.lor (Z.lor S_IRWXU S_IRWXG) S_IRWXO) with (Z.ones 9).
  now rewrite Z.land_ones by lia.
Qed.

(** X12.  A run with both names given, where every system call of the
    set-up succeeds, no [read] fails and every [write] writes all its
    bytes: the copy holds exactly the bytes of a file that is not empty,
    it is created with those of the low nine bits of the mode of the
    original that the umask of the process does not hold, nothing is
    printed or reported, and the exit status is 0, whatever
    [bytes_written] held at first. *)
Theorem copy_is_exact (argv : list (list byte)) (file : source)
  (mode mask : Z) (plan : list written) (junk : Z) :
  fault_free file = true ->
  complete plan = true ->
  source_bytes file <> [] ->
  main 3 argv (mkSystem (Some file) (Some mode) (Some plan) mask) junk
  = mkResult 0 [] [] (Some (source_bytes file))
      (Some (Z.land (mode mod 512) (Z.lnot mask))).
Proof.
  intros Hff Hplan Hsome. unfold main.
  change (negb (3 =? 3)) with false. cbv iota.
  cbn [opened st_mode created umask].
  destruct (copy_loop_complete (S (length (source_bytes file))) file
              (mkSink [] plan) junk [] Hplan) as (plan' & -> & _); [lia|].
  rewrite Hff, (readable_fault_free file Hff), permission_bits.
  change (0 =? -1) with false. cbv iota. cbn [content app].
  destruct (source_bytes file) as [|b bs]; [congruence|].
  cbn [is_empty]. now rewrite andb_false_r.
Qed.

(** X13.  When a [read] fails and every [write] writes all its bytes, the
    copy holds the bytes read before the failure and no more, [perror]
    is called for "read" last, and the exit status is still 0.  A file
    that gives no byte at all makes the program also report "write",
    when [bytes_written] holds less than 1 at first. *)
Theorem read_failure_keeps_status (argv : list (list byte)) (file : source)
  (mode mask : Z) (plan : list written) (junk : Z) :
  fault_free file = false ->
  complete plan = true ->
  let r := main 3 argv (mkSystem (Some file) (Some mode) (Some plan) mask)
             junk in
  status r = 0 /\
  copied r = Some (readable file) /\
  reported r
  = (if (junk <? 1) && is_empty (readable file) then [text "write"] else [])
    ++ [text "read"].
Proof.
  intros Hff Hplan. unfold main.
  change (negb (3 =? 3)) with false. cbv iota.
  cbn [opened st_mode created umask].
  destruct (copy_loop_complete (S (length (source_bytes file))) file
              (mkSink [] plan) junk [] Hplan) as (plan' & -> & _); [lia|].
  rewrite Hff. change (-1 =? -1) with true. cbv iota.
  cbn [status copied reported content app]. unfold error. cbn [fst].
  now splits.
Qed.

(** One [read] of a regular file. *)
Lemma read_file (original : list byte) :
  original <> [] ->
  read (file original) BUFFER_SIZE
  = (Z.of_nat (length (firstn (Z.to_nat BUFFER_SIZE) original)),
     firstn (Z.to_nat BUFFER_SIZE) original,
     file (skipn (Z.to_nat BUFFER_SIZE) original)).
Proof.
  intros Hsome. destruct original as [|b bs]; [congruence|].
  unfold read, file. change (BUFFER_SIZE <=? 0) with false. cbv iota.
  now destruct (skipn (Z.to_nat BUFFER_SIZE) (b :: bs)).
Qed.

Lemma file_bytes (original : list byte) :
  source_bytes (file original) = original /\
  readable (file original) = original /\
  fault_free (file original) = true.
Proof.
  destruct original; cbn; rewrite ?app_nil_r; auto.
Qed.

(** A regular file whose first [write] behaves as [w] and whose later
    ones are complete: what the first call returns decides the messages,
    and the bytes it leaves out are never written. *)
Lemma first_write (argv : list (list byte)) (original : list byte)
  (mode mask : Z) (w : written) (junk : Z) :
  original <> [] ->
  let block := firstn (Z.to_nat BUFFER_SIZE) original in
  let later := skipn (Z.to_nat BUFFER_SIZE) original in
  let r := main 3 argv
             (mkSystem (Some (file original)) (Some mode) (Some [w]) mask)
             junk in
  forall v kept,
  write (mkSink [] [w]) block = (v, mkSink kept []) ->
  status r = 0 /\
  copied r = Some (kept ++ later) /\
  reported r
  = (if v <? 1 then [text "write"] else []) ++
    (if (v <? 1) && is_empty later then [text "write"] else []).
Proof.
  intros Hsome block later r v kept Hwrite. subst r. unfold main.
  change (negb (3 =? 3)) with false. cbv iota.
  cbn [opened st_mode created umask].
  destruct (file_bytes original) as (Hbytes & _ & _).
  rewrite Hbytes. cbn [copy_loop].
  rewrite (read_file original Hsome). fold block later.
  assert (Hpos : 0 < Z.of_nat (length block)).
  { subst block. rewrite length_firstn. unfold BUFFER_SIZE.
    destruct original; [congruence | cbn [length]; lia]. }
  destruct (Z.gtb_spec (Z.of_nat (length block)) 0) as [_|]; [|lia].
  rewrite Hwrite.
  destruct (file_bytes later) as (Hlater & Hread & Hff).
  destruct (copy_loop_complete (length original) (file later)
              (mkSink kept []) v
              (if v <? 1 then [] ++ [fst (error (text "write"))] else [])
              eq_refl) as (plan' & -> & _).
  { rewrite Hlater. subst later. rewrite length_skipn. unfold BUFFER_SIZE.
    destruct original; [congruence | cbn [length]; lia]. }
  rewrite Hff, Hread. change (0 =? -1) with false. cbv iota.
  cbn [status copied reported content]. unfold error. cbn [fst app].
  now splits.
Qed.

(** X14.  A [write] that writes only the first [k] bytes of the first
    block of a regular file, with 0 < k, is taken for a success: the
    rest of the block is never written, so the copy lacks bytes of the
    file, yet nothing is reported and the exit status is 0. *)
Theorem short_write_loses_bytes (argv : list (list byte))
  (original : list byte) (mode mask : Z) (k : nat) (junk : Z) :
  (0 < k)%nat ->
  (k < length original)%nat ->
  (k < Z.to_nat BUFFER_SIZE)%nat ->
  let r := main 3 argv
             (mkSystem (Some (file original)) (Some mode)
                       (Some [Part k]) mask) junk in
  status r = 0 /\
  reported r = [] /\
  copied r
  = Some (firstn k original ++ skipn (Z.to_nat BUFFER_SIZE) original) /\
  copied r <> Some original.
Proof.
  intros Hk Hlen Hblock r.
  assert (Hsome : original <> []) by (destruct original; cbn in *; [lia|easy]).
  destruct (first_write argv original mode mask (Part k) junk Hsome
              (Z.of_nat (length (firstn k original))) (firstn k original))
    as (Hstatus & Hcopied & Hreported).
  { unfold write. cbn [plan content app].
    rewrite firstn_firstn, Nat.min_l by lia. reflexivity. }
  fold r in Hstatus, Hcopied, Hreported.
  assert (Hgot : (Z.of_nat (length (firstn k original)) <? 1) = false).
  { rewrite length_firstn. apply Z.ltb_ge. lia. }
  rewrite Hgot in Hreported. cbn [andb app] in Hreported.
  splits; auto.
  rewrite Hcopied. clear Hcopied Hreported Hstatus. clearbody r.
  remember (Z.to_nat BUFFER_SIZE) as n eqn:Hn. clear Hn.
  intros Hsame. injection Hsame as Hsame.
  apply (f_equal (@length byte)) in Hsame.
  rewrite length_app, length_firstn, length_skipn in Hsame. lia.
Qed.

(** X15.  A first [write] that fails, or that writes no byte, is reported
    by [perror] but does not stop the program: the first block of the
    file is missing from the copy, the later blocks are copied, and the
    exit status is 0.  The message is reported a second time when the
    file has no later block, as [bytes_written] keeps its value in the
    round that meets the end of the file. *)
Theorem failed_write_is_skipped (argv : list (list byte))
  (original : list byte) (mode mask : Z) (w : written) (junk : Z) :
  original <> [] ->
  w = Fails \/ w = Part 0 ->
  let r := main 3 argv
             (mkSystem (Some (file original)) (Some mode) (Some [w]) mask)
             junk in
  status r = 0 /\
  copied r = Some (skipn (Z.to_nat BUFFER_SIZE) original) /\
  reported r
  = if (length original <=? Z.to_nat BUFFER_SIZE)%nat
    then [text "write"; text "write"] else [text "write"].
Proof.
  intros Hsome Hw r.
  assert (Hwrite : exists v,
    v < 1 /\
    write (mkSink [] [w]) (firstn (Z.to_nat BUFFER_SIZE) original)
    = (v, mkSink [] [])).
  { destruct Hw as [-> | ->]; [exists (-1) | exists 0];
      (split; [lia | reflexivity]). }
  destruct Hwrite as (v & Hv & Hwrite).
  destruct (first_write argv original mode mask w junk Hsome v [] Hwrite)
    as (Hstatus & Hcopied & Hreported).
  fold r in Hstatus, Hcopied, Hreported.
  splits; auto.
  rewrite Hreported.
  destruct (Z.ltb_spec v 1) as [_|]; [|lia]. cbn [andb].
  destruct (Nat.leb_spec (length original) (Z.to_nat BUFFER_SIZE))
    as [Hshort|Hlong].
  - rewrite skipn_all2 by exact Hshort. reflexivity.
  - destruct (skipn (Z.to_nat BUFFER_SIZE) original) eqn:Hlater;
      [|reflexivity].
    apply (f_equal (@length byte)) in Hlater.
    rewrite length_skipn in Hlater. cbn [length] in Hlater. lia.
Qed.

(** X16.  The exit status tells how far the set-up came and nothing about
    the copying: it is 1 exactly when the program is not given two
    names, 2 exactly when it is and a system call of the set-up fails,
    and 0 otherwise, whatever [read] and [write] do afterwards; a copy
    exists exactly when the status is 0. *)
Theorem exit_status_of_mycopy (argc : Z) (argv : list (list byte))
  (sys : system) (junk : Z) :
  let r := main argc argv sys junk in
  let set_up := match opened sys, st_mode sys, created sys with
                | Some _, Some _, Some _ => true
                | _, _, _ => false
                end in
  (status r = 1 <-> argc <> 3) /\
  (status r = 2 <-> argc = 3 /\ set_up = false) /\
  (status r = 0 <-> argc = 3 /\ set_up = true) /\
  (copied r <> None <-> status r = 0) /\
  (status r = 1 -> reported r = [] /\ printed r <> []) /\
  (status r = 2 -> length (reported r) = 1%nat /\ printed r = []).
Proof.
  intros r set_up. subst r set_up. unfold main, usage, error.
  destruct (Z.eqb_spec argc 3) as [->|Hargc]; cbn [negb].
  - destruct sys as [[file|] [mode|] [plan|] mask];
      cbn [opened st_mode created umask];
      try (cbn [status copied reported printed length];
           splits; split; try tauto; try congruence; try lia;
           intros; splits; try congruence; try lia; easy).
    destruct (copy_loop _ _ _ _ _) as [[bytes_read copy] messages].
    cbn [status copied reported printed].
    splits; split; try tauto; try congruence; try lia; try easy.
  - cbn [status copied reported printed].
    splits; split; try tauto; try congruence; try lia; try easy.
Qed.

(** ** The properties at concrete inputs *)

(** A file of mode 0100666 copied under the umask 022: the copy is
    created with 0644. *)
Lemma copy_is_exact_witness :
  main 3 [text "mycopy"; text "from"; text "to"]
    (mkSystem (Some example_in_runs) (Some 33206) (Some [All]) 18) (-7)
  = mkResult 0 [] [] (Some (source_bytes example_in_runs))
      (Some (Z.land (33206 mod 512) (Z.lnot 18))).
Proof.
  apply (copy_is_exact [text "mycopy"; text "from"; text "to"]
           example_in_runs 33206 18 [All] (-7)).
  - reflexivity.
  - reflexivity.
  - vm_compute. discriminate.
Defined.

Lemma read_failure_keeps_status_witness :
  let file := [Data x61 (text "bc"); Fault; Data x64 []] in
  let r := main 3 [text "mycopy"; text "from"; text "to"]
             (mkSystem (Some file) (Some 33188) (Some [All]) 18) (-7) in
  status r = 0 /\
  copied r = Some (readable file) /\
  reported r
  = (if (-7 <? 1) && is_empty (readable file) then [text "write"] else [])
    ++ [text "read"].
Proof.
  apply (read_failure_keeps_status [text "mycopy"; text "from"; text "to"]
           [Data x61 (text "bc"); Fault; Data x64 []] 33188 18 [All] (-7)).
  - reflexivity.
  - reflexivity.
Defined.

Lemma short_write_loses_bytes_witness :
  let r := main 3 [text "mycopy"; text "from"; text "to"]
             (mkSystem (Some (file example_input)) (Some 33188)
                       (Some [Part 5]) 18) 0 in
  status r = 0 /\
  reported r = [] /\
  copied r
  = Some (firstn 5 example_input
            ++ skipn (Z.to_nat BUFFER_SIZE) example_input) /\
  copied r <> Some example_input.
Proof.
  apply (short_write_loses_bytes [text "mycopy"; text "from"; text "to"]
           example_input 33188 18 5 0).
  - lia.
  - vm_compute. lia.
  - unfold BUFFER_SIZE. lia.
Defined.

Lemma failed_write_is_skipped_witness :
  let r := main 3 [text "mycopy"; text "from"; text "to"]
             (mkSystem (Some (file example_input)) (Some 33188)
                       (Some [Fails]) 18) 0 in
  status r = 0 /\
  copied r = Some (skipn (Z.to_nat BUFFER_SIZE) example_input) /\
  reported r
  = if (length example_input <=? Z.to_nat BUFFER_SIZE)%nat
    then [text "write"; text "write"] else [text "write"].
Proof.
  apply (failed_write_is_skipped [text "mycopy"; text "from"; text "to"]
           example_input 33188 18 Fails 0).
  - vm_compute. discriminate.
  - left. reflexivity.
Defined.

End MycopyFacts.

(** * Properties of the sorting exercise *)

Module SortingFacts.

Import Sorting.

(** ** Integers *)

Lemma int_inside (x : Z) : INT_MIN <= x <= INT_MAX -> int x = x.
Proof.
  unfold int, INT_MIN, INT_MAX. intros H.
  rewrite Z.mod_small by lia. lia.
Qed.

Lemma is_int_spec (x : Z) : is_int x = true <-> INT_MIN <= x <= INT_MAX.
Proof.
  unfold is_int. rewrite andb_true_iff, !Z.leb_le. reflexivity.
Qed.

(** ** Memory *)

Lemma load_at (pre : list Z) (x : Z) (rest : list Z) (j : Z) :
  j = Z.of_nat (length pre) ->
  load (pre ++ x :: rest) j = Some x.
Proof.
  intros ->. unfold load.
  destruct (Z.ltb_spec (Z.of_nat (length pre)) 0) as [|_]; [lia|].
  rewrite Nat2Z.id, nth_error_app2, Nat.sub_diag by lia. reflexivity.
Qed.

Lemma store_at (pre : list Z) (x : Z) (rest : list Z) (j v : Z) :
  j = Z.of_nat (length pre) ->
  store (pre ++ x :: rest) j v = Some (pre ++ v :: rest).
Proof.
  intros ->. unfold store. rewrite length_app. cbn [length].
  destruct (Z.leb_spec 0 (Z.of_nat (length pre))) as [_|]; [|lia].
  destruct (Z.ltb_spec (Z.of_nat (length pre))
              (Z.of_nat (length pre + S (length rest)))) as [_|]; [|lia].
  cbn [andb]. rewrite Nat2Z.id.
  rewrite firstn_app, Nat.sub_diag, firstn_all. cbn [firstn].
  rewrite app_nil_r.
  rewrite skipn_app, skipn_all2 by lia.
  replace (S (length pre) - length pre)%nat with 1%nat by lia.
  reflexivity.
Qed.

Lemma load_inside (array : list Z) (i : Z) :
  0 <= i < Z.of_nat (length array) ->
  exists pre x rest,
    array = pre ++ x :: rest /\ i = Z.of_nat (length pre).
Proof.
  intros Hi.
  destruct (nth_error array (Z.to_nat i)) as [x|] eqn:Hx.
  - apply nth_error_split in Hx as (pre & rest & -> & Hlen).
    exists pre, x, rest. split; [reflexivity | lia].
  - apply nth_error_None in Hx. lia.
Qed.

Lemma swap_adjacent (pre : list Z) (x y : Z) (rest : list Z) (j : Z) :
  j = Z.of_nat (length pre) ->
  swap (pre ++ x :: y :: rest) j (j + 1) = Some (pre ++ y :: x :: rest).
Proof.
  intros Hj. unfold swap.
  rewrite (load_at pre x (y :: rest) j Hj). cbn [bind].
  assert (Hj1 : j + 1 = Z.of_nat (length (pre ++ [x]))).
  { rewrite length_app. cbn [length]. lia. }
  replace (pre ++ x :: y :: rest) with ((pre ++ [x]) ++ y :: rest) at 1
    by now rewrite <- app_assoc.
  rewrite (load_at (pre ++ [x]) y rest (j + 1) Hj1). cbn [bind].
  rewrite (store_at pre x (y :: rest) j y Hj). cbn [bind].
  replace (pre ++ y :: y :: rest) with ((pre ++ [y]) ++ y :: rest)
    by now rewrite <- app_assoc.
  rewrite (store_at (pre ++ [y]) y rest (j + 1) x).
  - now rewrite <- app_assoc.
  - rewrite length_app in *. cbn [length] in *. lia.
Qed.

Lemma load_some (array : list Z) (i : Z) :
  0 <= i < Z.of_nat (length array) -> exists v, load array i = Some v.
Proof.
  intros Hi. destruct (load_inside array i Hi) as (pre & x & rest & -> & Hpre).
  exists x. now apply load_at.
Qed.

(** Reading after [array[i] = v]. *)
Lemma load_store (array array' : list Z) (i v k : Z) :
  store array i v = Some array' ->
  load array' k = if k =? i then Some v else load array k.
Proof.
  intros Hstore.
  assert (Hi : 0 <= i < Z.of_nat (length array)).
  { unfold store in Hstore.
    destruct (Z.leb_spec 0 i), (Z.ltb_spec i (Z.of_nat (length array)));
      cbn [andb] in Hstore; try discriminate. lia. }
  destruct (load_inside array i Hi) as (pre & x & rest & -> & Hpre).
  rewrite (store_at pre x rest i v Hpre) in Hstore.
  injection Hstore as <-.
  destruct (Z.eqb_spec k i) as [->|Hk]; [now apply load_at|].
  unfold load. destruct (Z.ltb_spec k 0); [reflexivity|].
  rewrite !nth_error_app.
  destruct (Nat.ltb_spec (Z.to_nat k) (length pre)); [reflexivity|].
  destruct (Z.to_nat k - length pre)%nat as [|m] eqn:Hm; [lia|].
  reflexivity.
Qed.

Lemma store_some (array : list Z) (i v : Z) :
  0 <= i < Z.of_nat (length array) ->
  exists array',
    store array i v = Some array' /\ length array' = length array.
Proof.
  intros Hi. destruct (load_inside array i Hi) as (pre & x & rest & -> & Hpre).
  exists (pre ++ v :: rest). split; [now apply store_at|].
  rewrite !length_app. reflexivity.
Qed.

(** Two arrays that read the same at every index are the same. *)
Lemma load_ext (a b : list Z) :
  (forall k, load a k = load b k) -> a = b.
Proof.
  intros H. apply nth_error_ext. intros n.
  specialize (H (Z.of_nat n)). unfold load in H.
  destruct (Z.ltb_spec (Z.of_nat n) 0) as [|_]; [lia|].
  now rewrite Nat2Z.id in H.
Qed.

(** A [for] loop whose bound is not above its first index does nothing. *)
Lemma for_loop_none {A : Type} (first bound : Z)
  (body : Z -> A -> option A) (a : A) :
  bound <= first -> for_loop first bound body a = Some a.
Proof.
  intros H. unfold for_loop.
  replace (Z.to_nat (bound - first)) with 0%nat by lia. reflexivity.
Qed.

(** ** Ascending lists *)

Lemma ascending_app (l1 l2 : list Z) :
  ascending (l1 ++ l2) <->
  ascending l1 /\ ascending l2 /\
  Forall (fun x => Forall (Z.le x) l2) l1.
Proof.
  unfold ascending. induction l1 as [|x l1 IH]; cbn [app].
  - split; [intros H; splits; auto; constructor | now intros (_ & H & _)].
  - split.
    + intros H. inversion H as [|? ? Hl Hx]; subst.
      apply IH in Hl as (H1 & H2 & H12).
      apply Forall_app in Hx as (Hx1 & Hx2).
      splits; auto. now constructor.
    + intros (H1 & H2 & H12).
      inversion H1 as [|? ? Hl Hx]; subst.
      inversion H12 as [|? ? Hx2 Hl2]; subst.
      constructor; [apply IH; auto | apply Forall_app; auto].
Qed.

(** Two ascending lists with the same numbers are the same list. *)
Lemma ascending_unique (l1 : list Z) :
  forall l2, ascending l1 -> ascending l2 -> Permutation l1 l2 -> l1 = l2.
Proof.
  unfold ascending.
  induction l1 as [|x r1 IH]; intros l2 H1 H2 Hperm.
  - now apply Permutation_nil in Hperm.
  - destruct l2 as [|y r2].
    { symmetry in Hperm. now apply Permutation_nil in Hperm. }
    inversion H1 as [|? ? Hr1 Hx]; subst.
    inversion H2 as [|? ? Hr2 Hy]; subst.
    assert (Hxy : x = y).
    { assert (Hin1 : In y (x :: r1)).
      { apply (Permutation_in y (Permutation_sym Hperm)). now left. }
      assert (Hin2 : In x (y :: r2)).
      { apply (Permutation_in x Hperm). now left. }
      rewrite Forall_forall in Hx, Hy.
      destruct Hin1 as [|Hin1]; [assumption|].
      destruct Hin2 as [|Hin2]; [congruence|].
      specialize (Hx y Hin1). specialize (Hy x Hin2). lia. }
    subst y. f_equal. apply IH; auto.
    now apply Permutation_cons_inv in Hperm.
Qed.

(** ** Exchanging two cells *)

(** X25.  [swap] with two indices inside the array exchanges what the two
    cells hold and changes no other cell nor the length; exchanging the
    same two cells again gives the array back.  The indices may be
    equal.  With an index outside the array it accesses memory outside
    it. *)
Theorem swap_exchanges (array : list Z) (i j : Z) :
  0 <= i < Z.of_nat (length array) ->
  0 <= j < Z.of_nat (length array) ->
  exists array',
    swap array i j = Some array' /\
    length array' = length array /\
    load array' i = load array j /\
    load array' j = load array i /\
    (forall k, k <> i -> k <> j -> load array' k = load array k) /\
    swap array' i j = Some array /\
    (forall k, ~ 0 <= k < Z.of_nat (length array) ->
       swap array k j = None /\ swap array i k = None).
Proof.
  intros Hi Hj. unfold swap.
  destruct (load_some array i Hi) as (temp & Htemp).
  destruct (load_some array j Hj) as (aj & Haj).
  rewrite Htemp, Haj. cbn [bind].
  destruct (store_some array i aj Hi) as (a1 & Ha1 & Hlen1).
  rewrite Ha1. cbn [bind].
  destruct (store_some a1 j temp) as (a2 & Ha2 & Hlen2); [lia|].
  rewrite Ha2. exists a2.
  assert (Hread : forall k,
    load a2 k = if k =? j then Some temp
                else if k =? i then Some aj else load array k).
  { intros k. rewrite (load_store a1 a2 j temp k Ha2).
    now rewrite (load_store array a1 i aj k Ha1). }
  assert (Hi2 : load a2 i = Some aj).
  { rewrite Hread. destruct (Z.eqb_spec i j) as [->|_]; [congruence|].
    now rewrite Z.eqb_refl. }
  assert (Hj2 : load a2 j = Some temp).
  { rewrite Hread. now rewrite Z.eqb_refl. }
  splits.
  - reflexivity.
  - lia.
  - congruence.
  - congruence.
  - intros k Hki Hkj. rewrite Hread.
    destruct (Z.eqb_spec k j); [contradiction|].
    destruct (Z.eqb_spec k i); [contradiction | reflexivity].
  - rewrite Hi2, Hj2. cbn [bind].
    destruct (store_some a2 i temp) as (a3 & Ha3 & Hlen3); [lia|].
    rewrite Ha3. cbn [bind].
    destruct (store_some a3 j aj) as (a4 & Ha4 & Hlen4); [lia|].
    rewrite Ha4. f_equal. apply load_ext. intros k.
    rewrite (load_store a3 a4 j aj k Ha4).
    rewrite (load_store a2 a3 i temp k Ha3).
    rewrite Hread.
    destruct (Z.eqb_spec k j) as [->|_]; [congruence|].
    destruct (Z.eqb_spec k i) as [->|_]; [congruence | reflexivity].
  - intros k Hk.
    assert (Hout : load array k = None).
    { unfold load. destruct (Z.ltb_spec k 0); [reflexivity|].
      apply nth_error_None. lia. }
    rewrite Hout. split; reflexivity.
Qed.

(** ** Bubble sort *)

(** What a pass carries to the end is the largest number. *)
Lemma carry_largest (l : list Z) :
  forall x, exists init m,
    carry x l = init ++ [m] /\
    Forall (fun y => y <= m) init /\
    Permutation (x :: l) (init ++ [m]) /\
    length init = length l.
Proof.
  induction l as [|y r IH]; intros x; cbn [carry].
  - exists [], x. splits; auto.
  - destruct (Z.gtb_spec x y) as [Hgt|Hle].
    + destruct (IH x) as (init & m & -> & Hall & Hperm & Hlen).
      exists (y :: init), m. splits; cbn [app length]; auto.
      * constructor; [|assumption].
        assert (Hin : In x (init ++ [m])).
        { apply (Permutation_in x Hperm). now left. }
        apply in_app_iff in Hin as [Hin|[<-|[]]]; [|lia].
        rewrite Forall_forall in Hall. specialize (Hall x Hin). lia.
      * rewrite perm_swap. now constructor.
    + destruct (IH y) as (init & m & -> & Hall & Hperm & Hlen).
      exists (x :: init), m. splits; cbn [app length]; auto.
      * constructor; [|assumption].
        assert (Hin : In y (init ++ [m])).
        { apply (Permutation_in y Hperm). now left. }
        apply in_app_iff in Hin as [Hin|[<-|[]]]; [|lia].
        rewrite Forall_forall in Hall. specialize (Hall y Hin). lia.
Qed.

(** The inner loop of [bubbleSort], started at index [j] with [x] there:
    [count] rounds carry [x] through the next [count] numbers. *)
Lemma inner_loop_carries (count : nat) :
  forall pre x rest j,
  j = Z.of_nat (length pre) ->
  (count <= length rest)%nat ->
  rounds count j
    (fun j array =>
       aj <- load array j ;;
       aj1 <- load array (j + 1) ;;
       if aj >? aj1 then swap array j (j + 1) else Some array)
    (pre ++ x :: rest)
  = Some (pre ++ carry x (firstn count rest) ++ skipn count rest).
Proof.
  induction count as [|count IH]; intros pre x rest j Hj Hcount.
  - reflexivity.
  - destruct rest as [|y r]; [cbn in Hcount; lia|].
    cbn [length] in Hcount. cbn [rounds firstn skipn carry].
    rewrite (load_at pre x (y :: r) j Hj). cbn [bind].
    assert (Hj1 : j + 1 = Z.of_nat (length (pre ++ [x]))).
    { rewrite length_app. cbn [length]. lia. }
    replace (pre ++ x :: y :: r) with ((pre ++ [x]) ++ y :: r) at 1
      by now rewrite <- app_assoc.
    rewrite (load_at (pre ++ [x]) y r (j + 1) Hj1). cbn [bind].
    destruct (x >? y).
    + rewrite (swap_adjacent pre x y r j Hj). cbn [bind].
      replace (pre ++ y :: x :: r) with ((pre ++ [y]) ++ x :: r)
        by now rewrite <- app_assoc.
      rewrite IH; [now rewrite <- app_assoc | | lia].
      rewrite length_app. cbn [length]. lia.
    + cbn [bind].
      replace (pre ++ x :: y :: r) with ((pre ++ [x]) ++ y :: r)
        by now rewrite <- app_assoc.
      rewrite IH; [now rewrite <- app_assoc | exact Hj1 | lia].
Qed.

(** The outer loop of [bubbleSort] after [i] passes: the last [i] numbers
    ([back]) are in place, ascending and not below any number before
    them; the remaining passes sort the whole and leave [tail], the part
    of the array beyond [numNums], as it is. *)
Lemma outer_loop_sorts (numNums : Z) (tail : list Z) (count : nat) :
  forall i front back,
  numNums <= INT_MAX ->
  count = Z.to_nat (numNums - 1 - i) ->
  Z.of_nat (length front) = numNums - i ->
  0 <= i ->
  ascending back ->
  Forall (fun x => Forall (Z.le x) back) front ->
  exists sorted,
    rounds count i
      (fun i array =>
         for_loop 0 (int (int (numNums - i) - 1))
           (fun j array =>
              aj <- load array j ;;
              aj1 <- load array (j + 1) ;;
              if aj >? aj1 then swap array j (j + 1) else Some array)
           array)
      (front ++ back ++ tail)
    = Some (sorted ++ tail) /\
    ascending sorted /\
    Permutation sorted (front ++ back).
Proof.
  induction count as [|count IH]; intros i front back Hmax Hcount Hlen Hi
    Hback Hle.
  - exists (front ++ back). rewrite <- app_assoc.
    splits; [reflexivity | | reflexivity].
    apply ascending_app. splits; auto.
    destruct front as [|x [|y l]]; [constructor | | cbn [length] in Hlen; lia].
    repeat constructor.
  - destruct front as [|x l]; [cbn [length] in Hlen; lia|].
    cbn [length] in Hlen. cbn [rounds].
    unfold for_loop at 1.
    rewrite (int_inside (numNums - i)) by (unfold INT_MIN, INT_MAX in *; lia).
    rewrite (int_inside (numNums - i - 1))
      by (unfold INT_MIN, INT_MAX in *; lia).
    replace (Z.to_nat (numNums - i - 1 - 0)) with (length l) by lia.
    pose proof (inner_loop_carries (length l) [] x (l ++ back ++ tail) 0
                  eq_refl) as Hinner.
    cbn [app] in Hinner. cbn [app]. rewrite Hinner
      by (rewrite length_app; lia).
    clear Hinner. cbn [bind].
    rewrite firstn_app, Nat.sub_diag, firstn_all. cbn [firstn].
    rewrite app_nil_r.
    rewrite skipn_app, Nat.sub_diag, skipn_all. cbn [skipn app].
    destruct (carry_largest l x) as (init & m & -> & Hall & Hperm & Hinit).
    assert (Hfront : Forall (fun x => Forall (Z.le x) back) (init ++ [m])).
    { now rewrite <- Hperm. }
    apply Forall_app in Hfront as (Hinit_le & Hm).
    inversion Hm as [|? ? Hm_le _]; subst.
    destruct (IH (i + 1) init (m :: back)) as (sorted & Hrun & Hsorted & Hp).
    + exact Hmax.
    + lia.
    + lia.
    + lia.
    + now constructor.
    + rewrite Forall_forall in *. intros y Hy. constructor; auto.
    + exists sorted.
      replace ((init ++ [m]) ++ back ++ tail)
        with (init ++ (m :: back) ++ tail) by now rewrite <- app_assoc.
      splits; auto.
      change (x :: l ++ back) with ((x :: l) ++ back).
      rewrite Hp, Hperm. now rewrite <- app_assoc.
Qed.

Lemma bubbleSort_spec (array : list Z) (numNums : Z) :
  INT_MIN < numNums <= INT_MAX ->
  numNums <= Z.of_nat (length array) ->
  exists sorted,
    bubbleSort array numNums
    = Some (sorted ++ skipn (Z.to_nat numNums) array) /\
    ascending sorted /\
    Permutation sorted (firstn (Z.to_nat numNums) array).
Proof.
  intros Hint Hlen.
  assert (Hbound : int (numNums - 1) = numNums - 1)
    by (apply int_inside; unfold INT_MIN, INT_MAX in *; lia).
  destruct (Z.le_gt_cases numNums 0) as [Hnone|Hsome].
  { exists []. unfold bubbleSort. rewrite Hbound, for_loop_none by lia.
    replace (Z.to_nat numNums) with 0%nat by lia.
    splits; [reflexivity | constructor | constructor]. }
  unfold bubbleSort, for_loop at 1. rewrite Hbound.
  destruct (outer_loop_sorts numNums (skipn (Z.to_nat numNums) array)
              (Z.to_nat (numNums - 1 - 0)) 0
              (firstn (Z.to_nat numNums) array) [])
    as (sorted & Hrun & Hsorted & Hperm).
  - lia.
  - reflexivity.
  - rewrite length_firstn. lia.
  - lia.
  - constructor.
  - apply Forall_forall. intros; constructor.
  - exists sorted. rewrite app_nil_r in Hperm. cbn [app] in Hrun.
    rewrite firstn_skipn in Hrun. splits; auto.
Qed.

(** ** Insertion sort *)

Lemma shift_unfold (fuel : nat) (array : list Z) (key j : Z) :
  shift fuel array key j
  = if j >=? 0 then
      aj <- load array j ;;
      if aj >? key then
        match fuel with
        | O => None
        | S fuel' =>
            array <- store array (j + 1) aj ;;
            shift fuel' array key (j - 1)
        end
      else Some (array, j)
    else Some (array, j).
Proof.
  destruct fuel; reflexivity.
Qed.

(** The [while] loop of [insertionSort] with [before] in front of the
    cell at [j + 1]: it stops within its rounds, having moved one cell
    to the right the numbers at the end of [before] that are above
    [key], and leaves free the cell in front of them. *)
Lemma shift_moves (before : list Z) :
  forall fuel d after key,
  (length before <= fuel)%nat ->
  exists kept moved d',
    before = kept ++ moved /\
    Forall (fun y => key < y) moved /\
    (forall init y, kept = init ++ [y] -> y <= key) /\
    shift fuel (before ++ d :: after) key (Z.of_nat (length before) - 1)
    = Some (kept ++ d' :: moved ++ after, Z.of_nat (length kept) - 1).
Proof.
  induction before as [|y init IH] using rev_ind;
    intros fuel d after key Hfuel.
  - exists [], [], d. splits; auto.
    + intros [|? ?] ? H; discriminate H.
    + rewrite shift_unfold. reflexivity.
  - rewrite length_app in *. cbn [length] in *.
    rewrite shift_unfold.
    destruct (Z.geb_spec (Z.of_nat (length init + 1) - 1) 0) as [_|]; [|lia].
    rewrite <- app_assoc. cbn [app].
    rewrite (load_at init y (d :: after)) by lia. cbn [bind].
    destruct (Z.gtb_spec y key) as [Hgt|Hle].
    + destruct fuel as [|fuel]; [lia|].
      replace (init ++ y :: d :: after) with ((init ++ [y]) ++ d :: after)
        by now rewrite <- app_assoc.
      rewrite (store_at (init ++ [y]) d after _ y)
        by (rewrite length_app; cbn [length]; lia).
      cbn [bind]. rewrite <- app_assoc. cbn [app].
      destruct (IH fuel y (y :: after) key) as
        (kept & moved & d' & -> & Hmoved & Hkept & Hrun); [lia|].
      replace (Z.of_nat (length (kept ++ moved) + 1) - 1 - 1)
        with (Z.of_nat (length (kept ++ moved)) - 1) by lia.
      rewrite Hrun.
      exists kept, (moved ++ [y]), d'. splits.
      * now rewrite app_assoc.
      * apply Forall_app. split; [assumption | repeat constructor; lia].
      * exact Hkept.
      * now rewrite <- app_assoc.
    + exists (init ++ [y]), [], d. splits.
      * now rewrite app_nil_r.
      * constructor.
      * intros init' y' H. apply app_inj_tail in H as (_ & <-). exact Hle.
      * rewrite <- app_assoc, length_app. reflexivity.
Qed.

(** Putting [key] between the numbers kept and the numbers moved keeps
    the order. *)
Lemma ascending_insert (kept moved : list Z) (key : Z) :
  ascending (kept ++ moved) ->
  Forall (fun y => key < y) moved ->
  (forall init y, kept = init ++ [y] -> y <= key) ->
  ascending (kept ++ key :: moved).
Proof.
  intros Hsorted Hmoved Hkept.
  apply ascending_app in Hsorted as (Hk & Hm & Hkm).
  apply ascending_app. splits; auto.
  - constructor; [exact Hm|].
    apply Forall_forall. intros y Hy.
    rewrite Forall_forall in Hmoved. specialize (Hmoved y Hy). lia.
  - destruct kept as [|x l] using rev_ind; [constructor|].
    specialize (Hkept l x eq_refl).
    apply ascending_app in Hk as (_ & _ & Hlx).
    apply Forall_app in Hkm as (Hl & Hx).
    apply Forall_app. split.
    + rewrite Forall_forall in *. intros z Hz. constructor; auto.
      specialize (Hlx z Hz). inversion Hlx; subst. lia.
    + inversion Hx; subst. repeat constructor; auto.
Qed.

(** The outer loop of [insertionSort] at index [i]: the numbers in front
    of it ([done]) are ascending; the remaining rounds insert the numbers
    of [todo] one by one and leave [tail] as it is. *)
Lemma insertion_loop_sorts (tail : list Z) (todo : list Z) :
  forall i done,
  i = Z.of_nat (length done) ->
  ascending done ->
  exists sorted,
    rounds (length todo) i
      (fun i array =>
         key <- load array i ;;
         '(array, j) <- shift (Z.to_nat i) array key (i - 1) ;;
         store array (j + 1) key)
      (done ++ todo ++ tail)
    = Some (sorted ++ tail) /\
    ascending sorted /\
    Permutation sorted (done ++ todo).
Proof.
  induction todo as [|key todo IH]; intros i done Hi Hdone.
  - exists done. rewrite app_nil_r. splits; auto.
  - cbn [length rounds app].
    rewrite (load_at done key (todo ++ tail) i Hi). cbn [bind].
    destruct (shift_moves done (Z.to_nat i) key (todo ++ tail) key)
      as (kept & moved & d' & Hsplit & Hmoved & Hkept & Hrun); [lia|].
    replace (i - 1) with (Z.of_nat (length done) - 1) by lia.
    rewrite Hrun. cbn [bind].
    rewrite (store_at kept d' (moved ++ todo ++ tail)) by lia.
    cbn [bind].
    replace (kept ++ key :: moved ++ todo ++ tail)
      with ((kept ++ key :: moved) ++ todo ++ tail)
      by now rewrite <- app_assoc.
    destruct (IH (i + 1) (kept ++ key :: moved)) as (sorted & -> & Hs & Hp).
    + subst done. rewrite !length_app in *. cbn [length]. lia.
    + apply ascending_insert; auto. now subst done.
    + exists sorted. splits; auto.
      rewrite Hp, Hsplit, <- !app_assoc. cbn [app].
      apply Permutation_app_head, Permutation_middle.
Qed.

Lemma insertionSort_spec (array : list Z) (numNums : Z) :
  numNums <= Z.of_nat (length array) ->
  exists sorted,
    insertionSort array numNums
    = Some (sorted ++ skipn (Z.to_nat numNums) array) /\
    ascending sorted /\
    Permutation sorted (firstn (Z.to_nat numNums) array).
Proof.
  intros Hlen.
  destruct (Z.le_gt_cases numNums 0) as [Hnone|Hsome].
  { exists []. unfold insertionSort. rewrite for_loop_none by lia.
    replace (Z.to_nat numNums) with 0%nat by lia.
    splits; [reflexivity | constructor | constructor]. }
  unfold insertionSort, for_loop.
  pose proof (firstn_skipn (Z.to_nat numNums) array) as Hsplit.
  destruct (firstn (Z.to_nat numNums) array) as [|x todo] eqn:Hfirst.
  { apply (f_equal (@length Z)) in Hfirst.
    rewrite length_firstn in Hfirst. cbn [length] in Hfirst. lia. }
  assert (Htodo : Z.to_nat (numNums - 1) = length todo).
  { apply (f_equal (@length Z)) in Hfirst.
    rewrite length_firstn in Hfirst. cbn [length] in Hfirst. lia. }
  destruct (insertion_loop_sorts (skipn (Z.to_nat numNums) array) todo 1 [x])
    as (sorted & Hrun & Hsorted & Hperm).
  - reflexivity.
  - repeat constructor.
  - exists sorted. rewrite Htodo. rewrite <- Hsplit at 1.
    cbn [app] in Hrun |- *. rewrite Hrun. splits; auto.
Qed.

(** X17.  [bubbleSort] with a count that is an [int] above the least
    one, on an array that has [numNums] numbers or more, stays inside
    the array, leaves its first [numNums] numbers in ascending order,
    the same numbers as before with their multiplicities, and does not
    change the numbers after them.  (For the least [int] the bound
    [numNums-1] of its loop overflows.) *)
Theorem bubbleSort_sorts (array : list Z) (numNums : Z) :
  INT_MIN < numNums <= INT_MAX ->
  numNums <= Z.of_nat (length array) ->
  exists sorted,
    bubbleSort array numNums
    = Some (sorted ++ skipn (Z.to_nat numNums) array) /\
    ascending sorted /\
    Permutation sorted (firstn (Z.to_nat numNums) array).
Proof.
  exact (bubbleSort_spec array numNums).
Qed.

(** X18.  [insertionSort] on an array that has [numNums] numbers or more
    stays inside the array, ends every inner loop by its own test,
    leaves its first [numNums] numbers in ascending order, the same
    numbers as before with their multiplicities, and does not change the
    numbers after them. *)
Theorem insertionSort_sorts (array : list Z) (numNums : Z) :
  numNums <= Z.of_nat (length array) ->
  exists sorted,
    insertionSort array numNums
    = Some (sorted ++ skipn (Z.to_nat numNums) array) /\
    ascending sorted /\
    Permutation sorted (firstn (Z.to_nat numNums) array).
Proof.
  exact (insertionSort_spec array numNums).
Qed.

(** X19.  The two sorts give the same array, for a count that is an
    [int] above the least one. *)
Theorem sorts_agree (array : list Z) (numNums : Z) :
  INT_MIN < numNums <= INT_MAX ->
  numNums <= Z.of_nat (length array) ->
  bubbleSort array numNums = insertionSort array numNums.
Proof.
  intros Hint Hlen.
  destruct (bubbleSort_spec array numNums Hint Hlen)
    as (s1 & -> & Hs1 & Hp1).
  destruct (insertionSort_spec array numNums Hlen) as (s2 & -> & Hs2 & Hp2).
  do 2 f_equal. apply ascending_unique; auto.
  now rewrite Hp1, Hp2.
Qed.

(** ** Random numbers, input and output *)








Lemma obtainNumberBetween_spec (description : list byte) (low high : Z)
  (refusals : list Z) :
  forall number rest choice,
  Forall (fun n => is_int n = true) (refusals ++ [number]) ->
  Forall (fun n => refused low high n = true) refusals ->
  refused low high number = false ->
  obtainNumberBetween description low high (refusals ++ number :: rest)
    choice
  = Some (number, rest,
          repeat (Prompt description low high) (S (length refusals))).
Proof.
  unfold refused.
  induction refusals as [|n refusals IH];
    intros number rest choice Hints Hbad Hok.
  - inversion Hints as [|? ? Hint _]; subst. apply is_int_spec in Hint.
    cbn [app obtainNumberBetween]. cbv zeta.
    rewrite (int_inside number Hint). now rewrite Hok.
  - inversion Hbad as [|? ? Hn Hrest]; subst.
    inversion Hints as [|? ? Hint Hints']; subst. apply is_int_spec in Hint.
    cbn [app obtainNumberBetween]. cbv zeta.
    rewrite (int_inside n Hint), Hn.
    now rewrite (IH number rest n Hints' Hrest Hok).
Qed.

(** X20.  When the numbers entered are in the range of [int],
    [obtainNumberBetween] returns the first of them that lies between
    [low] and [high], having asked once for it and once for every number
    refused before it, and leaves the rest of the input unread. *)
Theorem obtainNumberBetween_takes_first (description : list byte)
  (low high : Z) (refusals : list Z) (number : Z) (rest : list Z)
  (choice : Z) :
  Forall (fun n => is_int n = true) (refusals ++ [number]) ->
  Forall (fun n => refused low high n = true) refusals ->
  refused low high number = false ->
  obtainNumberBetween description low high (refusals ++ number :: rest)
    choice
  = Some (number, rest,
          repeat (Prompt description low high) (S (length refusals))).
Proof.
  apply obtainNumberBetween_spec.
Qed.

Lemma obtainNumberBetween_sound (description : list byte) (low high : Z)
  (inputs : list Z) :
  forall choice,
  (forall number rest out,
     obtainNumberBetween description low high inputs choice
     = Some (number, rest, out) ->
     low <= number <= high) /\
  (inputs <> [] ->
   Forall (fun n => is_int n = true) inputs ->
   Forall (fun n => refused low high n = true) inputs ->
   obtainNumberBetween description low high inputs choice = None).
Proof.
  unfold refused.
  induction inputs as [|n inputs IH]; intros choice; cbn [obtainNumberBetween].
  - split; [|congruence].
    intros number rest out.
    destruct (Z.ltb_spec choice low), (Z.gtb_spec choice high);
      cbn [orb]; intros Heq; inversion Heq; subst; lia.
  - cbv zeta. destruct (IH (int n)) as (Hsome & Hnone). split.
    + intros number rest out.
      destruct (Z.ltb_spec (int n) low), (Z.gtb_spec (int n) high);
        cbn [orb];
        try (destruct (obtainNumberBetween description low high inputs
                         (int n))
               as [[[number' rest'] out']|] eqn:Hrec;
             [|discriminate];
             intros Heq; inversion Heq; subst;
             exact (Hsome number rest out' eq_refl)).
      intros Heq; inversion Heq; subst; lia.
    + intros _ Hints Hall. inversion Hall as [|? ? Hn Hrest]; subst.
      inversion Hints as [|? ? Hint Hints']; subst.
      apply is_int_spec in Hint. rewrite (int_inside n Hint) in *.
      rewrite Hn. destruct inputs as [|n' inputs'].
      * cbn [obtainNumberBetween]. now rewrite Hn.
      * rewrite Hnone; [reflexivity | discriminate | assumption
                       | assumption].
Qed.

(** X21.  Whatever is entered and whatever [choice] held at first, a
    number that [obtainNumberBetween] returns lies between [low] and
    [high]. *)
Theorem obtainNumberBetween_in_range (description : list byte)
  (low high : Z) (inputs : list Z) (choice number : Z) (rest : list Z)
  (out : list printed) :
  obtainNumberBetween description low high inputs choice
  = Some (number, rest, out) ->
  low <= number <= high.
Proof.
  apply (obtainNumberBetween_sound description low high inputs choice).
Qed.

(** X22.  When at least one number is entered, the numbers entered are
    in the range of [int] and every one of them is outside the range
    asked for, [obtainNumberBetween] does not return: at the end of the
    input [scanf] leaves [choice] as it is, and the loop asks again for
    ever. *)
Theorem obtainNumberBetween_asks_forever (description : list byte)
  (low high : Z) (inputs : list Z) (choice : Z) :
  inputs <> [] ->
  Forall (fun n => is_int n = true) inputs ->
  Forall (fun n => refused low high n = true) inputs ->
  obtainNumberBetween description low high inputs choice = None.
Proof.
  apply (obtainNumberBetween_sound description low high inputs choice).
Qed.



(** ** The properties at concrete inputs *)

Lemma swap_exchanges_witness :
  exists array',
    swap [3; 1; 2; 9; 0] 1 3 = Some array' /\
    length array' = length [3; 1; 2; 9; 0] /\
    load array' 1 = load [3; 1; 2; 9; 0] 3 /\
    load array' 3 = load [3; 1; 2; 9; 0] 1 /\
    (forall k, k <> 1 -> k <> 3 -> load array' k = load [3; 1; 2; 9; 0] k) /\
    swap array' 1 3 = Some [3; 1; 2; 9; 0] /\
    (forall k, ~ 0 <= k < Z.of_nat (length [3; 1; 2; 9; 0]) ->
       swap [3; 1; 2; 9; 0] k 3 = None /\ swap [3; 1; 2; 9; 0] 1 k = None).
Proof.
  apply (swap_exchanges [3; 1; 2; 9; 0] 1 3).
  - simpl. lia.
  - simpl. lia.
Defined.

Lemma bubbleSort_sorts_witness :
  exists sorted,
    bubbleSort [3; 1; 2; 9; 0] 4
    = Some (sorted ++ skipn (Z.to_nat 4) [3; 1; 2; 9; 0]) /\
    ascending sorted /\
    Permutation sorted (firstn (Z.to_nat 4) [3; 1; 2; 9; 0]).
Proof.
  apply (bubbleSort_sorts [3; 1; 2; 9; 0] 4).
  - unfold INT_MIN, INT_MAX. lia.
  - simpl. lia.
Defined.

Lemma insertionSort_sorts_witness :
  exists sorted,
    insertionSort [3; 1; 2; 9; 0] 4
    = Some (sorted ++ skipn (Z.to_nat 4) [3; 1; 2; 9; 0]) /\
    ascending sorted /\
    Permutation sorted (firstn (Z.to_nat 4) [3; 1; 2; 9; 0]).
Proof.
  apply (insertionSort_sorts [3; 1; 2; 9; 0] 4).
  simpl. lia.
Defined.

Lemma sorts_agree_witness :
  bubbleSort [3; 1; 2; 9; 0] 5 = insertionSort [3; 1; 2; 9; 0] 5.
Proof.
  apply (sorts_agree [3; 1; 2; 9; 0] 5).
  - unfold INT_MIN, INT_MAX. lia.
  - simpl. lia.
Defined.

Lemma obtainNumberBetween_takes_first_witness :
  obtainNumberBetween (text "a number") 1 10 ([0; 11] ++ 5 :: [7]) 0
  = Some (5, [7], repeat (Prompt (text "a number") 1 10) (S (length [0; 11]))).
Proof.
  apply (obtainNumberBetween_takes_first (text "a number") 1 10 [0; 11] 5
           [7] 0).
  - repeat constructor.
  - repeat constructor.
  - reflexivity.
Defined.

Lemma obtainNumberBetween_in_range_witness : 1 <= 5 <= 10.
Proof.
  apply (obtainNumberBetween_in_range (text "a number") 1 10 [0; 11; 5; 7]
           0 5 [7] (repeat (Prompt (text "a number") 1 10) 3)).
  reflexivity.
Defined.

Lemma obtainNumberBetween_asks_forever_witness :
  obtainNumberBetween (text "a number") 1 10 [0; 11] 5 = None.
Proof.
  apply (obtainNumberBetween_asks_forever (text "a number") 1 10 [0; 11] 5).
  - discriminate.
  - repeat constructor.
  - repeat constructor.
Defined.



End SortingFacts.
